(** * Stencil-Art: colour-group extraction, path normalisation and layer edits

    A shallow embedding of the TypeScript sources

    - [src/utils/colorUtils.ts]               (module [ColorUtils]),
    - [utils/imageProcessor], the file that exports [processSVG] and
      [processRaster]                         (module [ImageProcessor]),
    - [types], the file that declares the group and dimension interfaces
      (modules [SVGPathData], [SVGColorGroup], [RasterColorGroup],
      [ImageDimensions]),
    - [src/App.tsx]                           (module [App]),

    together with the properties of the specification that concern them.

    JavaScript numbers are IEEE 754 binary64 values; they are embedded as
    Rocq's primitive floats, whose operations are the same binary64
    operations.  Colour channels, counts and indices are integers well below
    2^53, where binary64 arithmetic is exact; they are embedded as [Z] and
    [nat] and turned into floats where the source takes a square root or
    compares with a threshold. *)

From Stdlib Require Import ZArith List Bool Lia Floats String Ascii Permutation.
From Stdlib Require Import Sorted.
Import ListNotations.
Open Scope Z_scope.

(* ================================================================== *)
(** * JavaScript values and built-ins used by the sources *)
(* ================================================================== *)

Module JS.

(** An integer as a JavaScript number (exact below 2^53 in magnitude). *)
Definition num (z : Z) : float :=
  if z <? 0 then PrimFloat.opp (PrimFloat.of_uint63 (Uint63.of_Z (- z)))
  else PrimFloat.of_uint63 (Uint63.of_Z z).

(** [isNaN] on a number. *)
Definition isNaN (x : float) : bool := PrimFloat.is_nan x.

(** [Math.min(a, b)]: NaN if either argument is NaN, and -0 below +0. *)
Definition Math_min (a c : float) : float :=
  if isNaN a || isNaN c then PrimFloat.nan
  else if PrimFloat.ltb a c then a
  else if PrimFloat.ltb c a then c
  else if PrimFloat.get_sign a then a else c.

(** [Math.floor] of a number, as an integer; 0 stands for NaN and the
    infinities, which no caller below produces. *)
Definition Math_floor (x : float) : Z :=
  match Prim2SF x with
  | S754_finite s m e =>
      let v := if (0 <=? e) then Z.shiftl (Zpos m) e else Z.shiftr (Zpos m) (- e) in
      if s
      then (if (e <? 0) && negb (Z.shiftl (Z.shiftr (Zpos m) (- e)) (- e) =? Zpos m)
            then - v - 1 else - v)
      else v
  | _ => 0
  end.

(** [Array.prototype.sort(compare)]: a stable sort (ECMAScript 2019), here by
    insertion; [compare x y] is the sign-carrying number the callback
    returns. *)
Section Sort.
Context {A : Type} (compare : A -> A -> Z).

Fixpoint insert (x : A) (l : list A) : list A :=
  match l with
  | [] => [x]
  | y :: l' => if compare x y <=? 0 then x :: l else y :: insert x l'
  end.

Fixpoint sort (l : list A) : list A :=
  match l with
  | [] => []
  | x :: l' => insert x (sort l')
  end.
End Sort.

(** [array.filter((_, index) => keep(index))]. *)
Fixpoint filter_index {A : Type} (keep : nat -> bool) (start : nat) (l : list A) : list A :=
  match l with
  | [] => []
  | x :: l' =>
      if keep start then x :: filter_index keep (S start) l'
      else filter_index keep (S start) l'
  end.

(** [array.splice(at, 0, x)] on a copy: insertion, the position clamped to
    the length as [splice] does. *)
Definition splice_insert {A : Type} (at_ : nat) (x : A) (l : list A) : list A :=
  firstn at_ l ++ x :: skipn at_ l.

(** [array.splice(at, 1)] on a copy: the array without position [at]. *)
Definition splice_remove {A : Type} (at_ : nat) (l : list A) : list A :=
  firstn at_ l ++ skipn (S at_) l.

(** [array.pop()] on a copy: the shortened array and the last element. *)
Definition pop {A : Type} (l : list A) : option (list A * A) :=
  match rev l with
  | [] => None
  | x :: rl => Some (rev rl, x)
  end.

(** [Math.min(...indices)] on a non-empty array of indices. *)
Definition min_list (l : list nat) : nat :=
  match l with
  | [] => 0%nat
  | x :: l' => fold_left Nat.min l' x
  end.

(** The code unit of a character. *)
Definition code (c : ascii) : Z := Z.of_N (N_of_ascii c).

Definition lowerChar (c : ascii) : ascii :=
  let n := code c in
  if (65 <=? n) && (n <=? 90) then ascii_of_N (Z.to_N (n + 32)) else c.

(** [String.prototype.toLowerCase] on ASCII text. *)
Fixpoint toLowerCase (s : string) : string :=
  match s with
  | EmptyString => EmptyString
  | String c s' => String (lowerChar c) (toLowerCase s')
  end.

(** [ToInt32]: an integer wrapped into the signed 32-bit range. *)
Definition toInt32 (z : Z) : Z := (z + 2 ^ 31) mod 2 ^ 32 - 2 ^ 31.

(** [x << k] on integers: both operands through [ToInt32]/[ToUint32], the
    count taken modulo 32, the result a signed 32-bit integer. *)
Definition shiftLeft (x k : Z) : Z := toInt32 (toInt32 x * 2 ^ (k mod 32)).

(** The digit characters of [Number.prototype.toString(16)]. *)
Definition hexChar (digit : Z) : ascii :=
  nth (Z.to_nat digit) (list_ascii_of_string "0123456789abcdef") "0"%char.

(** The hex digits of a non-negative integer, most significant first;
    [fuel] bounds the number of digits. *)
Fixpoint hexDigits (fuel : nat) (n : Z) : list ascii :=
  match fuel with
  | O => []
  | S fuel' =>
      if n <? 16 then [hexChar n]
      else hexDigits fuel' (n / 16) ++ [hexChar (n mod 16)]
  end.

(** [n.toString(16)] for an integer [n]. *)
Definition toString16 (n : Z) : string :=
  if n <? 0
  then String "-" (string_of_list_ascii
                     (hexDigits (S (Z.to_nat (Z.log2 (- n)))) (- n)))
  else string_of_list_ascii (hexDigits (S (Z.to_nat (Z.log2 n))) n).

(** [s.slice(1)] *)
Definition slice1 (s : string) : string :=
  match s with
  | EmptyString => EmptyString
  | String _ rest => rest
  end.

(** [s.padEnd(targetLength, fill)] for a one-character [fill]. *)
Definition padEnd (targetLength : nat) (fill : ascii) (s : string) : string :=
  (s ++ string_of_list_ascii
          (repeat fill (targetLength - String.length s)))%string.

End JS.

(* ================================================================== *)
(** * src/utils/colorUtils.ts *)
(* ================================================================== *)

Module ColorUtils.
Import JS.

(** [interface RGBColor { r: number; g: number; b: number }] *)
Record RGBColor := mkRGB { r : Z; g : Z; b : Z }.

Definition RGBColor_eqb (c1 c2 : RGBColor) : bool :=
  (r c1 =? r c2) && (g c1 =? g c2) && (b c1 =? b c2).

(** The character class [[a-f\d]] under the [i] flag, with the value
    [parseInt(_, 16)] gives the digit. *)
Definition hexDigit (c : ascii) : option Z :=
  let n := code c in
  if (48 <=? n) && (n <=? 57) then Some (n - 48)
  else if (97 <=? n) && (n <=? 102) then Some (n - 87)
  else if (65 <=? n) && (n <=? 70) then Some (n - 55)
  else None.

(** [parseInt(pair, 16)] of a two-character group of the pattern. *)
Definition hexPair (hi lo : ascii) : option Z :=
  match hexDigit hi, hexDigit lo with
  | Some h, Some l => Some (16 * h + l)
  | _, _ => None
  end.

(** [hexToRgb]: the pattern [/^#?([a-f\d]{2})([a-f\d]{2})([a-f\d]{2})$/i]
    accepts an optional leading [#] and then exactly six hex digits. *)
Definition hexToRgb (hex : string) : option RGBColor :=
  let body := match hex with
              | String "#"%char rest => rest
              | _ => hex
              end in
  match list_ascii_of_string body with
  | [r1; r2; g1; g2; b1; b2] =>
      match hexPair r1 r2, hexPair g1 g2, hexPair b1 b2 with
      | Some rv, Some gv, Some bv => Some (mkRGB rv gv bv)
      | _, _, _ => None
      end
  | _ => None
  end.

(** [colorDistance]: [Math.sqrt(dr * dr + dg * dg + db * db)]. *)
Definition colorDistance (color1 color2 : RGBColor) : float :=
  let dr := r color1 - r color2 in
  let dg := g color1 - g color2 in
  let db := b color1 - b color2 in
  PrimFloat.sqrt (JS.num (dr * dr + dg * dg + db * db)).

Definition isDigit (c : ascii) : bool := (48 <=? code c) && (code c <=? 57).

(** [colorStr.match(/(\d+)/g)] with [parseInt(_, 10)] applied to each match:
    the values of the maximal digit runs, left to right.  [cur] is the value
    of the run being read, if any. *)
Fixpoint digitRuns (cur : option Z) (s : string) : list Z :=
  match s with
  | EmptyString => match cur with Some v => [v] | None => [] end
  | String c s' =>
      if isDigit c
      then digitRuns (Some (10 * match cur with Some v => v | None => 0 end
                            + (code c - 48))) s'
      else match cur with
           | Some v => v :: digitRuns None s'
           | None => digitRuns None s'
           end
  end.

Section Host.
(** The colour the host computes for a style value: what
    [getComputedStyle(temp).color] reads back after
    [temp.style.color = colorStr]. *)
Variable computedColor : string -> string.

(** [parseColorString].  The source recurses on the computed colour; [fuel]
    bounds the depth of that recursion, and [None] is [null]. *)
Fixpoint parseColorString (fuel : nat) (colorStr : string) : option RGBColor :=
  match fuel with
  | O => None
  | S fuel' =>
      if (colorStr =? "")%string || (toLowerCase colorStr =? "none")%string
      then None
      else if String.prefix "#" colorStr then hexToRgb colorStr
      else
        let parsed :=
          if String.prefix "rgb" colorStr then
            match digitRuns None colorStr with
            | p0 :: p1 :: p2 :: _ => Some (mkRGB p0 p1 p2)
            | _ => None
            end
          else None in
        match parsed with
        | Some c => Some c
        | None => parseColorString fuel' (computedColor colorStr)
        end
  end.
End Host.

(** [rgbToHex]:
    ["#" + ((1 << 24) + (r << 16) + (g << 8) + b).toString(16).slice(1).padEnd(6, '0')] *)
Definition rgbToHex (c : RGBColor) : string :=
  String "#"
    (padEnd 6 "0"
       (slice1 (toString16 (shiftLeft 1 24 + shiftLeft (r c) 16
                            + shiftLeft (g c) 8 + b c)))).

End ColorUtils.

(* ================================================================== *)
(** * The document objects the sources work on *)
(* ================================================================== *)

Module DOM.

(** One command of path data as the normaliser reads it: a command letter
    of [MmLlHhVvCcSsQqTtAaZz] and [args], the numbers
    [(argsStr.trim().match(number) || []).map(parseFloat)] finds in the text
    up to the next command letter.  An argument slot is [None] where the
    array slot holds [undefined].  Text before the first command letter,
    which [replace] leaves as it is, is not represented. *)
Record Segment := mkSegment { command : ascii; args : list (option float) }.

(** A shape element.  The [d] attribute is kept as its sequence of commands
    ([None]: no [d] attribute, or an empty one); the other attributes are
    name/value pairs in document order. *)
Record SVGElement := mkElement {
  tagName : string;
  d : option (list Segment);
  attributes : list (string * string)
}.

Fixpoint assoc_set (name value : string) (l : list (string * string)) :=
  match l with
  | [] => [(name, value)]
  | (n, v) :: l' =>
      if (n =? name)%string then (n, value) :: l'
      else (n, v) :: assoc_set name value l'
  end.

Definition setAttribute (name value : string) (el : SVGElement) : SVGElement :=
  mkElement (tagName el) (d el) (assoc_set name value (attributes el)).

Definition removeAttribute (name : string) (el : SVGElement) : SVGElement :=
  mkElement (tagName el) (d el)
    (filter (fun nv => negb (fst nv =? name)%string) (attributes el)).

(** A pixel of [ImageData.data]: four bytes R, G, B, A. *)
Record Pixel := mkPixel { red : Z; green : Z; blue : Z; alpha : Z }.

(** [ImageData]: [data] holds [width * height] pixels, four bytes each. *)
Record ImageData := mkImageData {
  image_width : Z;
  image_height : Z;
  data : list Pixel
}.

(** [el.getAttribute(name)] for an attribute other than [d]. *)
Definition getAttribute (name : string) (el : SVGElement) : option string :=
  match find (fun nv => (fst nv =? name)%string) (attributes el) with
  | Some nv => Some (snd nv)
  | None => None
  end.

End DOM.

(* ================================================================== *)
(** * The interfaces of [types] *)
(* ================================================================== *)

Module SVGPathData.
Record t := mk { color : ColorUtils.RGBColor; element : DOM.SVGElement }.
End SVGPathData.

Module SVGColorGroup.
Record t := mk {
  representativeColor : ColorUtils.RGBColor;
  elements : list DOM.SVGElement
}.
End SVGColorGroup.

Module RasterColorGroup.
Record t := mk {
  representativeColor : ColorUtils.RGBColor;
  memberColors : list ColorUtils.RGBColor;
  totalCount : Z
}.
End RasterColorGroup.

(** [ImageDimensions].  The [viewBox] string is kept as the numbers
    [viewBox.split(/[ ,]+/).map(parseFloat)] yields for it; [None] is a
    missing ([null]) or empty view box, the two values the sources treat as
    false. *)
Module ImageDimensions.
Record t := mk {
  width : float;
  height : float;
  viewBox : option (list float)
}.
End ImageDimensions.

(* ================================================================== *)
(** * [utils/imageProcessor]: [processSVG] and [processRaster] *)
(* ================================================================== *)

Module ImageProcessor.
Import ColorUtils DOM.

(** A shape element found by [querySelectorAll], with what
    [getComputedStyle] reports for it: the fill, and
    [parseFloat(style.fillOpacity)]. *)
Record ShapeNode := mkShape {
  node : SVGElement;
  style_fill : string;
  style_fillOpacity : float
}.

(** The parsed document: the root's [viewBox] attribute (as in
    [ImageDimensions]), [width.baseVal.value], [height.baseVal.value], and
    the shape elements in document order. *)
Record SVGDocument := mkDocument {
  viewBoxAttribute : option (list float);
  widthBaseVal : float;
  heightBaseVal : float;
  shapeElements : list ShapeNode
}.

(** [tolerance * 2.55]; the tolerance is the value of the slider, an
    integer from 0 to 100. *)
Definition maxDist (tolerance : Z) : float := (JS.num tolerance * 2.55)%float.

Definition isWhiteColor (fill : option RGBColor) : bool :=
  match fill with
  | Some c => (r c =? 255) && (g c =? 255) && (b c =? 255)
  | None => false
  end.

(** The loop [for (const group of groups) { if (colorDistance(...) < maxDist)
    { group.elements.push(...); placed = true; break; } }] followed by
    [if (!placed) groups.push(...)]. *)
Fixpoint placePath (maxDist : float) (path : SVGPathData.t)
    (groups : list SVGColorGroup.t) : list SVGColorGroup.t :=
  match groups with
  | [] =>
      [SVGColorGroup.mk (SVGPathData.color path) [SVGPathData.element path]]
  | group :: rest =>
      if PrimFloat.ltb
           (colorDistance (SVGPathData.color path)
                          (SVGColorGroup.representativeColor group))
           maxDist
      then SVGColorGroup.mk (SVGColorGroup.representativeColor group)
             (SVGColorGroup.elements group ++ [SVGPathData.element path])
           :: rest
      else group :: placePath maxDist path rest
  end.

(** [paths.forEach(path => ...)] starting from [groups = []]. *)
Definition groupPaths (tolerance : Z) (paths : list SVGPathData.t)
    : list SVGColorGroup.t :=
  fold_left (fun groups path => placePath (maxDist tolerance) path groups)
            paths [].

Section Host.
Variable computedColor : string -> string.
Variable fuel : nat.

(** The body of [elements.forEach(el => ...)]: the path pushed for an
    element, if any. *)
Definition ingest (el : ShapeNode) : list SVGPathData.t :=
  let fill := parseColorString computedColor fuel (style_fill el) in
  let isWhite := isWhiteColor fill in
  let fill := if isWhite then Some (mkRGB 247 247 247) else fill in
  let fillOpacity :=
    if JS.isNaN (style_fillOpacity el) then 1%float else style_fillOpacity el in
  match fill with
  | Some color =>
      if PrimFloat.ltb 0 fillOpacity then
        let clonedElement := node el in
        let clonedElement :=
          if isWhite then setAttribute "fill" "#F7F7F7" clonedElement
          else clonedElement in
        let clonedElement := setAttribute "stroke" "none" clonedElement in
        [SVGPathData.mk color clonedElement]
      else []
  | None => []
  end.

Definition ingestAll (doc : SVGDocument) : list SVGPathData.t :=
  flat_map ingest (shapeElements doc).

Definition documentDimensions (doc : SVGDocument) : ImageDimensions.t :=
  let width := widthBaseVal doc in
  let height := heightBaseVal doc in
  match viewBoxAttribute doc with
  | Some [_; _; w; h] =>
      if PrimFloat.eqb width 0 || PrimFloat.eqb height 0
      then ImageDimensions.mk w h (viewBoxAttribute doc)
      else ImageDimensions.mk width height (viewBoxAttribute doc)
  | _ => ImageDimensions.mk width height (viewBoxAttribute doc)
  end.

(** [processSVG], from the parsed document on. *)
Definition processSVG (doc : SVGDocument) (tolerance : Z)
    : list SVGColorGroup.t * ImageDimensions.t :=
  (groupPaths tolerance (ingestAll doc), documentDimensions doc).
End Host.

(** An entry of [colorMap]: [{ color, count }]. *)
Record ColorCount := mkColorCount { color : RGBColor; count : Z }.

(** [Math.max(1, Math.floor(Math.sqrt(data.length / 4) / 1000))] *)
Definition sampleRate (pixelCount : Z) : Z :=
  Z.max 1 (JS.Math_floor (PrimFloat.sqrt (JS.num pixelCount) / 1000)%float).

(** The pixels [for (let i = 0; i < data.length; i += 4 * sampleRate)]
    visits: every [rate]-th one from the first; [skip] pixels are passed
    over before the next visit. *)
Fixpoint sampled (rate skip : nat) (pixels : list Pixel) : list Pixel :=
  match pixels with
  | [] => []
  | p :: rest =>
      match skip with
      | O => p :: sampled rate (rate - 1) rest
      | S k => sampled rate k rest
      end
  end.

(** [if (!colorMap[key]) colorMap[key] = { color, count: 0 };
    colorMap[key].count++].  The map is an object keyed by ["r,g,b"]; its
    values are enumerated in insertion order. *)
Fixpoint countColor (c : RGBColor) (colorMap : list ColorCount) : list ColorCount :=
  match colorMap with
  | [] => [mkColorCount c 1]
  | e :: rest =>
      if RGBColor_eqb (color e) c
      then mkColorCount (color e) (count e + 1) :: rest
      else e :: countColor c rest
  end.

Definition samplePixel (colorMap : list ColorCount) (p : Pixel) : list ColorCount :=
  if alpha p <? 128 then colorMap
  else countColor (mkRGB (red p) (green p) (blue p)) colorMap.

Definition buildColorMap (pixels : list Pixel) : list ColorCount :=
  let rate := Z.to_nat (sampleRate (Z.of_nat (List.length pixels))) in
  fold_left samplePixel (sampled rate 0 pixels) [].

(** [Object.values(colorMap).sort((a, b) => b.count - a.count)] *)
Definition sortColors (colorMap : list ColorCount) : list ColorCount :=
  JS.sort (fun a c => count c - count a) colorMap.

Fixpoint placeColor (maxDist : float) (colorData : ColorCount)
    (groups : list RasterColorGroup.t) : list RasterColorGroup.t :=
  match groups with
  | [] =>
      [RasterColorGroup.mk (color colorData) [color colorData] (count colorData)]
  | group :: rest =>
      if PrimFloat.ltb
           (colorDistance (color colorData)
                          (RasterColorGroup.representativeColor group))
           maxDist
      then RasterColorGroup.mk (RasterColorGroup.representativeColor group)
             (RasterColorGroup.memberColors group ++ [color colorData])
             (RasterColorGroup.totalCount group + count colorData)
           :: rest
      else group :: placeColor maxDist colorData rest
  end.

Definition groupColors (tolerance : Z) (sortedColors : list ColorCount)
    : list RasterColorGroup.t :=
  fold_left (fun groups colorData => placeColor (maxDist tolerance) colorData groups)
            sortedColors [].

(** [groups.sort((a, b) => b.totalCount - a.totalCount)] *)
Definition sortGroups (groups : list RasterColorGroup.t) : list RasterColorGroup.t :=
  JS.sort (fun a c => RasterColorGroup.totalCount c - RasterColorGroup.totalCount a)
          groups.

(** [processRaster], from the decoded [ImageData] on: the groups it resolves
    with. *)
Definition processRaster (imageData : ImageData) (tolerance : Z)
    : list RasterColorGroup.t :=
  sortGroups (groupColors tolerance (sortColors (buildColorMap (data imageData)))).

End ImageProcessor.

(* ================================================================== *)
(** * src/App.tsx *)
(* ================================================================== *)

Module App.
Import ColorUtils DOM.

(** [SVGColorGroup | RasterColorGroup] *)
Inductive ColorGroup :=
| SVG (group : SVGColorGroup.t)
| Raster (group : RasterColorGroup.t).

Definition representativeColor (group : ColorGroup) : RGBColor :=
  match group with
  | SVG g => SVGColorGroup.representativeColor g
  | Raster g => RasterColorGroup.representativeColor g
  end.

(** An entry of [deletedGroups]. *)
Record DeletedGroup := mkDeleted { group : ColorGroup; originalIndex : nat }.

(** The fields of [AppState] the group list and its edit history live in
    (the file, loading, error and modal fields are left out). *)
Record AppState := mkState {
  tolerance : Z;
  colorGroups : list ColorGroup;
  dimensions : option ImageDimensions.t;
  isSvgSource : bool;
  originalImageData : option ImageData;
  deletedGroups : list DeletedGroup;
  reorderHistory : list (list ColorGroup);
  selectedGroupIndices : list nat;
  mergeHistory : list (list ColorGroup)
}.

(** ** [transformSvgElements] *)

(** An array slot used as a number: [undefined] becomes NaN. *)
Definition toNumber (slot : option float) : float :=
  match slot with
  | Some x => x
  | None => PrimFloat.nan
  end.

(** [args[i]] *)
Definition argAt (args : list (option float)) (i : nat) : option float :=
  nth i args None.

Section Transform.
Variables x y w h scale : float.

Definition targetWidth : float := 600%float.
Definition targetHeight : float := 600%float.

(** [isRelative ? v * scale : (v - x) * scale + (targetWidth - w * scale) / 2] *)
Definition transformX (isRelative : bool) (v : float) : float :=
  if isRelative then (v * scale)%float
  else ((v - x) * scale + (targetWidth - w * scale) / 2)%float.

(** [isRelative ? v * scale : (v - y) * scale + (targetHeight - h * scale) / 2] *)
Definition transformY (isRelative : bool) (v : float) : float :=
  if isRelative then (v * scale)%float
  else ((v - y) * scale + (targetHeight - h * scale) / 2)%float.

(** The [default] branch:
    [for (let i = 0; i < args.length; i += 2) { newArgs.push(...args[i]...);
    newArgs.push(...args[i+1]...) }]. *)
Fixpoint transformPairs (isRelative : bool) (args : list (option float))
    : list (option float) :=
  match args with
  | [] => []
  | [a0] =>
      [Some (transformX isRelative (toNumber a0));
       Some (transformY isRelative (toNumber None))]
  | a0 :: a1 :: rest =>
      Some (transformX isRelative (toNumber a0))
      :: Some (transformY isRelative (toNumber a1))
      :: transformPairs isRelative rest
  end.

(** The callback of [d.replace(...)] on one match of the pattern: a command
    letter of [MmLlHhVvCcSsQqTtAaZz] and the text up to the next one, whose
    numbers are [args]. *)
Definition transformSegment (seg : Segment) : Segment :=
  let command := DOM.command seg in
  let args := DOM.args seg in
  let isRelative := Ascii.eqb command (JS.lowerChar command) in
  let lower := JS.lowerChar command in
  let newArgs :=
    if Ascii.eqb lower "a" then
      [ Some (toNumber (argAt args 0) * scale)%float;
        Some (toNumber (argAt args 1) * scale)%float;
        argAt args 2;
        argAt args 3;
        argAt args 4;
        Some (transformX isRelative (toNumber (argAt args 5)));
        Some (transformY isRelative (toNumber (argAt args 6))) ]
    else if Ascii.eqb lower "h" then
      [ Some (transformX isRelative (toNumber (argAt args 0))) ]
    else if Ascii.eqb lower "v" then
      [ Some (transformY isRelative (toNumber (argAt args 0))) ]
    else transformPairs isRelative args in
  if Ascii.eqb lower "z" then mkSegment command []
  else mkSegment command newArgs.

(** The callback of the final [elements.map(el => ...)]. *)
Definition transformElement (el : SVGElement) : SVGElement :=
  let clone :=
    match DOM.d el with
    | Some segments =>
        mkElement (tagName el) (Some (map transformSegment segments))
                  (attributes el)
    | None => el
    end in
  removeAttribute "transform" clone.
End Transform.

(** [transformSvgElements].  The result stands for the concatenated
    [outerHTML] of the elements listed. *)
Definition transformSvgElements (elements : list SVGElement)
    (dimensions : option ImageDimensions.t) : list SVGElement :=
  match dimensions with
  | None => elements
  | Some dimensions =>
      let viewBoxParts :=
        match ImageDimensions.viewBox dimensions with
        | Some parts => parts
        | None =>
            [0%float; 0%float; ImageDimensions.width dimensions;
             ImageDimensions.height dimensions]
        end in
      if negb (Nat.eqb (List.length viewBoxParts) 4) || existsb JS.isNaN viewBoxParts
      then elements
      else
        match viewBoxParts with
        | [x; y; w; h] =>
            if PrimFloat.leb w 0 || PrimFloat.leb h 0 then elements
            else
              let scale := JS.Math_min (targetWidth / w) (targetHeight / h) in
              map (transformElement x y w h scale) elements
        | _ => elements
        end
  end.

(** ** The raster effect of [ReassembledPreview] *)

(** [for (let j = 0; j < colorGroups.length; j++) { ... if (dist <
    minDistance) { minDistance = dist; bestGroupIndex = j; } }], from
    position [j] on. *)
Fixpoint bestFitFrom (pixelColor : RGBColor) (groups : list ColorGroup)
    (j : Z) (bestGroupIndex : Z) (minDistance : float) : Z * float :=
  match groups with
  | [] => (bestGroupIndex, minDistance)
  | group :: rest =>
      let dist := colorDistance pixelColor (representativeColor group) in
      if PrimFloat.ltb dist minDistance
      then bestFitFrom pixelColor rest (j + 1) j dist
      else bestFitFrom pixelColor rest (j + 1) bestGroupIndex minDistance
  end.

Definition bestFit (pixelColor : RGBColor) (colorGroups : list ColorGroup)
    : Z * float :=
  bestFitFrom pixelColor colorGroups 0 (-1) PrimFloat.infinity.

(** A pixel of a fresh [createImageData] buffer. *)
Definition blankPixel : Pixel := mkPixel 0 0 0 0.

(** One turn of [for (let i = 0; i < data.length; i += 4)]: the pixel
    written to [newData]. *)
Definition previewPixel (colorGroups : list ColorGroup) (maxDist : float)
    (p : Pixel) : Pixel :=
  if alpha p <? 128 then blankPixel
  else
    let pixelColor := mkRGB (red p) (green p) (blue p) in
    let '(bestGroupIndex, minDistance) := bestFit pixelColor colorGroups in
    if negb (bestGroupIndex =? -1) && PrimFloat.ltb minDistance maxDist then
      match nth_error colorGroups (Z.to_nat bestGroupIndex) with
      | Some group =>
          let repColor := representativeColor group in
          mkPixel (r repColor) (g repColor) (b repColor) 255
      | None => blankPixel
      end
    else mkPixel 0 0 0 0.

(** The buffer the effect puts on the canvas. *)
Definition reassembledPreview (colorGroups : list ColorGroup)
    (originalImageData : ImageData) (tolerance : Z) : list Pixel :=
  map (previewPixel colorGroups (ImageProcessor.maxDist tolerance))
      (data originalImageData).

(** ** Edit handlers

    A handler maps the state at the event to the state after it.  [None]
    stands for the runs this embedding does not follow: an index outside the
    group list (the source would read [undefined] there and store it or
    throw a [TypeError]), or a group of the wrong variant for
    [isSvgSource]. *)

Definition withGroups (s : AppState) (groups : list ColorGroup)
    (deleted : list DeletedGroup) (reorders : list (list ColorGroup))
    (selected : list nat) (merges : list (list ColorGroup)) : AppState :=
  mkState (tolerance s) groups (dimensions s) (isSvgSource s)
          (originalImageData s) deleted reorders selected merges.

Definition handleDeleteGroup (indexToDelete : nat) (s : AppState) : option AppState :=
  match nth_error (colorGroups s) indexToDelete with
  | Some groupToDelete =>
      let newColorGroups :=
        JS.filter_index (fun index => negb (Nat.eqb index indexToDelete)) 0
                        (colorGroups s) in
      Some (withGroups s newColorGroups
              (deletedGroups s ++ [mkDeleted groupToDelete indexToDelete])
              (reorderHistory s) [] (mergeHistory s))
  | None => None
  end.

Definition handleUndoDelete (s : AppState) : AppState :=
  match JS.pop (deletedGroups s) with
  | None => s
  | Some (newDeletedGroups, lastDeleted) =>
      let insertAt :=
        Nat.min (originalIndex lastDeleted) (List.length (colorGroups s)) in
      withGroups s
        (JS.splice_insert insertAt (group lastDeleted) (colorGroups s))
        newDeletedGroups (reorderHistory s) (selectedGroupIndices s)
        (mergeHistory s)
  end.

Definition handleUndoReorder (s : AppState) : AppState :=
  match JS.pop (reorderHistory s) with
  | None => s
  | Some (newReorderHistory, lastState) =>
      withGroups s lastState (deletedGroups s) newReorderHistory
                 (selectedGroupIndices s) (mergeHistory s)
  end.

(** [handleDrop]; [draggedItem] is the value of the ref set by
    [handleDragStart]. *)
Definition handleDrop (draggedItem : option nat) (dropIndex : nat)
    (s : AppState) : option AppState :=
  match draggedItem with
  | None => Some s
  | Some from =>
      if Nat.eqb from dropIndex then Some s
      else
        match nth_error (colorGroups s) from with
        | Some draggedGroup =>
            let newColorGroups :=
              JS.splice_insert dropIndex draggedGroup
                (JS.splice_remove from (colorGroups s)) in
            Some (withGroups s newColorGroups (deletedGroups s)
                    (reorderHistory s ++ [colorGroups s]) [] (mergeHistory s))
        | None => None
        end
  end.

(** [newSelection.splice(existingIndex, 1)] where [existingIndex] is the
    first position of the index. *)
Fixpoint removeFirst (i : nat) (l : list nat) : list nat :=
  match l with
  | [] => []
  | k :: l' => if Nat.eqb k i then l' else k :: removeFirst i l'
  end.

Definition handleSelectGroup (indexToToggle : nat) (s : AppState) : AppState :=
  let newSelection :=
    if existsb (Nat.eqb indexToToggle) (selectedGroupIndices s)
    then removeFirst indexToToggle (selectedGroupIndices s)
    else selectedGroupIndices s ++ [indexToToggle] in
  withGroups s (colorGroups s) (deletedGroups s) (reorderHistory s)
             newSelection (mergeHistory s).

(** [selectedGroupIndices.map(i => colorGroups[i])] *)
Fixpoint lookupAll (groups : list ColorGroup) (indices : list nat)
    : option (list ColorGroup) :=
  match indices with
  | [] => Some []
  | i :: rest =>
      match nth_error groups i, lookupAll groups rest with
      | Some g, Some gs => Some (g :: gs)
      | _, _ => None
      end
  end.

(** [groupsToMerge as SVGColorGroup[]] *)
Fixpoint asSVG (groups : list ColorGroup) : option (list SVGColorGroup.t) :=
  match groups with
  | [] => Some []
  | SVG g :: rest =>
      match asSVG rest with Some gs => Some (g :: gs) | None => None end
  | Raster _ :: _ => None
  end.

(** [groupsToMerge as RasterColorGroup[]] *)
Fixpoint asRaster (groups : list ColorGroup) : option (list RasterColorGroup.t) :=
  match groups with
  | [] => Some []
  | Raster g :: rest =>
      match asRaster rest with Some gs => Some (g :: gs) | None => None end
  | SVG _ :: _ => None
  end.

Definition mergeSVG (svgGroups : list SVGColorGroup.t) : option ColorGroup :=
  match JS.sort (fun a c => Z.of_nat (List.length (SVGColorGroup.elements c))
                            - Z.of_nat (List.length (SVGColorGroup.elements a)))
                svgGroups with
  | primaryGroup :: _ =>
      let allElements := flat_map SVGColorGroup.elements svgGroups in
      Some (SVG (SVGColorGroup.mk
                   (SVGColorGroup.representativeColor primaryGroup)
                   allElements))
  | [] => None
  end.

Definition mergeRaster (rasterGroups : list RasterColorGroup.t) : option ColorGroup :=
  match JS.sort (fun a c => RasterColorGroup.totalCount c
                            - RasterColorGroup.totalCount a)
                rasterGroups with
  | primaryGroup :: _ =>
      let allMemberColors := flat_map RasterColorGroup.memberColors rasterGroups in
      let totalCount :=
        fold_left (fun sum g => sum + RasterColorGroup.totalCount g)
                  rasterGroups 0 in
      Some (Raster (RasterColorGroup.mk
                      (RasterColorGroup.representativeColor primaryGroup)
                      allMemberColors totalCount))
  | [] => None
  end.

Definition handleMergeGroups (s : AppState) : option AppState :=
  if (List.length (selectedGroupIndices s) <? 2)%nat then Some s
  else
    match lookupAll (colorGroups s) (selectedGroupIndices s) with
    | None => None
    | Some groupsToMerge =>
        let merged :=
          if isSvgSource s then
            match asSVG groupsToMerge with
            | Some svgGroups => mergeSVG svgGroups
            | None => None
            end
          else
            match asRaster groupsToMerge with
            | Some rasterGroups => mergeRaster rasterGroups
            | None => None
            end in
        match merged with
        | None => None
        | Some newMergedGroup =>
            let indicesToRemove := selectedGroupIndices s in
            let newColorGroups :=
              JS.filter_index
                (fun index => negb (existsb (Nat.eqb index) indicesToRemove))
                0 (colorGroups s) in
            let insertAtIndex := JS.min_list (selectedGroupIndices s) in
            Some (withGroups s
                    (JS.splice_insert insertAtIndex newMergedGroup newColorGroups)
                    [] [] [] (mergeHistory s ++ [colorGroups s]))
        end
    end.

Definition handleUndoMerge (s : AppState) : AppState :=
  match JS.pop (mergeHistory s) with
  | None => s
  | Some (newMergeHistory, lastState) =>
      withGroups s lastState (deletedGroups s) (reorderHistory s)
                 (selectedGroupIndices s) newMergeHistory
  end.

(** ** The raster branch of [downloadPng]

    [groupIndex] is the value of
    [colorGroups.findIndex(g => g.representativeColor === rasterGroup.representativeColor)],
    -1 when no group is found. *)

(** One turn of the loop: the pixel left in [newData]. *)
Definition layerPixel (colorGroups : list ColorGroup) (groupIndex : Z)
    (maxDist : float) (p : Pixel) : Pixel :=
  if alpha p <? 128 then blankPixel
  else
    let pixelColor := mkRGB (red p) (green p) (blue p) in
    let '(bestGroupIndex, minDistance) := bestFit pixelColor colorGroups in
    if (bestGroupIndex =? groupIndex) && PrimFloat.ltb minDistance maxDist
    then mkPixel (red p) (green p) (blue p) (alpha p)
    else blankPixel.

(** The buffer drawn for the group's PNG. *)
Definition downloadPngRaster (colorGroups : list ColorGroup) (groupIndex : Z)
    (originalImageData : ImageData) (tolerance : Z) : list Pixel :=
  map (layerPixel colorGroups groupIndex (ImageProcessor.maxDist tolerance))
      (data originalImageData).

End App.
(* ================================================================== *)
(** * The order of binary64 numbers *)
(* ================================================================== *)

(** [<] and [<=] on floats are read through their specification on
    [spec_float]; a rank into a lexicographic triple of integers gives the
    order facts the clustering and best-fit loops rely on. *)
Module FloatOrder.

Definition rank (f : spec_float) : Z * (Z * Z) :=
  match f with
  | S754_nan => (0, (0, 0))
  | S754_zero _ => (0, (0, 0))
  | S754_infinity true => (-2, (0, 0))
  | S754_infinity false => (2, (0, 0))
  | S754_finite true m e => (-1, (- e, - Zpos m))
  | S754_finite false m e => (1, (e, Zpos m))
  end.

Definition number (f : spec_float) : bool :=
  match f with S754_nan => false | _ => true end.

Definition lex_lt (p q : Z * (Z * Z)) : Prop :=
  fst p < fst q \/
  (fst p = fst q /\
   (fst (snd p) < fst (snd q) \/
    (fst (snd p) = fst (snd q) /\ snd (snd p) < snd (snd q)))).

Lemma lex_lt_trans p q s : lex_lt p q -> lex_lt q s -> lex_lt p s.
Proof. unfold lex_lt; lia. Qed.

Lemma lex_lt_irrefl p : ~ lex_lt p p.
Proof. unfold lex_lt; lia. Qed.

Lemma lex_le_lt_trans p q s : ~ lex_lt q p -> lex_lt q s -> lex_lt p s.
Proof. unfold lex_lt; lia. Qed.

Lemma lex_lt_le_trans p q s : lex_lt p q -> ~ lex_lt s q -> lex_lt p s.
Proof. unfold lex_lt; lia. Qed.

Ltac cmp_cases :=
  repeat match goal with
  | |- context [Z.compare ?a ?c] => destruct (Z.compare_spec a c)
  | |- context [Pos.compare_cont Eq ?a ?c] =>
      rewrite (Pos.compare_cont_spec a c Eq); cbn [Pos.switch_Eq];
      destruct (Pos.compare_spec a c)
  end.

Lemma SFltb_iff x y :
  SFltb x y = true <->
  number x = true /\ number y = true /\ lex_lt (rank x) (rank y).
Proof.
  unfold SFltb, SFcompare, lex_lt.
  destruct x as [[|]|[|]| |[|] mx ex], y as [[|]|[|]| |[|] my ey]; cbn;
    cmp_cases; cbn; split; intros; try discriminate; try tauto; try lia;
    repeat split; try lia; subst; try lia.
Qed.

Lemma SFleb_iff x y :
  SFleb x y = true <->
  number x = true /\ number y = true /\ ~ lex_lt (rank y) (rank x).
Proof.
  unfold SFleb, SFcompare, lex_lt.
  destruct x as [[|]|[|]| |[|] mx ex], y as [[|]|[|]| |[|] my ey]; cbn;
    cmp_cases; cbn; split; intros; try discriminate; try tauto; try lia;
    repeat split; try lia; subst; try lia.
Qed.

Lemma ltb_irrefl x : PrimFloat.ltb x x = false.
Proof.
  destruct (PrimFloat.ltb x x) eqn:E; [|reflexivity].
  rewrite FloatAxioms.ltb_spec in E. apply SFltb_iff in E.
  destruct E as (_ & _ & E). now apply lex_lt_irrefl in E.
Qed.

Lemma ltb_trans x y z :
  PrimFloat.ltb x y = true -> PrimFloat.ltb y z = true -> PrimFloat.ltb x z = true.
Proof.
  rewrite !FloatAxioms.ltb_spec, !SFltb_iff.
  intros (Hx & _ & H1) (_ & Hz & H2). eauto using lex_lt_trans.
Qed.

Lemma ltb_leb_trans x y z :
  PrimFloat.ltb x y = true -> PrimFloat.leb y z = true -> PrimFloat.ltb x z = true.
Proof.
  rewrite !FloatAxioms.ltb_spec, FloatAxioms.leb_spec, !SFltb_iff, SFleb_iff.
  intros (Hx & _ & H1) (_ & Hz & H2). eauto using lex_lt_le_trans.
Qed.

Lemma leb_trans x y z :
  PrimFloat.leb x y = true -> PrimFloat.leb y z = true -> PrimFloat.leb x z = true.
Proof.
  rewrite !FloatAxioms.leb_spec, !SFleb_iff.
  intros (Hx & _ & H1) (_ & Hz & H2). repeat split; trivial.
  unfold lex_lt in *; lia.
Qed.

(** [x < y], [z] a finite number and not [z < y]: then [x < z]. *)
Lemma ltb_nlt_trans x y z :
  PrimFloat.ltb x y = true -> PrimFloat.ltb z y = false ->
  PrimFloat.ltb z PrimFloat.infinity = true ->
  PrimFloat.ltb x z = true.
Proof.
  intros Hxy Hzy Hz.
  rewrite FloatAxioms.ltb_spec in *.
  apply SFltb_iff in Hxy as (Hx & Hy & Hxy).
  apply SFltb_iff in Hz as (Hz & _ & _).
  apply SFltb_iff. repeat split; trivial.
  apply lex_lt_le_trans with (q := rank (Prim2SF y)); trivial.
  intros Hlt. assert (SFltb (Prim2SF z) (Prim2SF y) = true)
    by (apply SFltb_iff; auto).
  congruence.
Qed.

(** For two numbers, "not below" is "at or above". *)
Lemma nlt_iff_leb x y :
  PrimFloat.leb x x = true -> PrimFloat.leb y y = true ->
  (PrimFloat.ltb x y = false <-> PrimFloat.leb y x = true).
Proof.
  rewrite FloatAxioms.ltb_spec, !FloatAxioms.leb_spec, !SFleb_iff.
  intros (Hx & _ & _) (Hy & _ & _).
  split.
  - intros Hlt. repeat split; trivial.
    intros L. assert (SFltb (Prim2SF x) (Prim2SF y) = true)
      by (apply SFltb_iff; auto).
    congruence.
  - intros (_ & _ & Hle).
    destruct (SFltb (Prim2SF x) (Prim2SF y)) eqn:E; [|reflexivity].
    apply SFltb_iff in E as (_ & _ & E). contradiction.
Qed.

Lemma finite_leb_refl x :
  PrimFloat.ltb x PrimFloat.infinity = true -> PrimFloat.leb x x = true.
Proof.
  rewrite FloatAxioms.ltb_spec, FloatAxioms.leb_spec, SFltb_iff, SFleb_iff.
  intros (Hx & _ & _). repeat split; trivial. apply lex_lt_irrefl.
Qed.

End FloatOrder.

(* ================================================================== *)
(** * Facts about the array operations *)
(* ================================================================== *)

Module Arrays.

Lemma filter_index_ext {A : Type} (keep keep' : nat -> bool) (l : list A) start :
  (forall k, (start <= k < start + List.length l)%nat -> keep k = keep' k) ->
  JS.filter_index keep start l = JS.filter_index keep' start l.
Proof.
  revert start.
  induction l as [|x l IH]; intros start H; cbn; [reflexivity|].
  rewrite (H start) by (cbn; lia).
  rewrite (IH (S start)) by (intros k Hk; apply H; cbn; lia).
  reflexivity.
Qed.

Lemma filter_index_all {A : Type} (keep : nat -> bool) (l : list A) start :
  (forall k, (start <= k < start + List.length l)%nat -> keep k = true) ->
  JS.filter_index keep start l = l.
Proof.
  revert start.
  induction l as [|x l IH]; intros start H; cbn; [reflexivity|].
  rewrite (H start) by (cbn; lia).
  rewrite (IH (S start)) by (intros k Hk; apply H; cbn; lia).
  reflexivity.
Qed.

Lemma filter_index_app {A : Type} (keep : nat -> bool) (l1 l2 : list A) start :
  JS.filter_index keep start (l1 ++ l2) =
  JS.filter_index keep start l1
  ++ JS.filter_index keep (start + List.length l1) l2.
Proof.
  revert start.
  induction l1 as [|x l1 IH]; intros start; cbn.
  - now rewrite Nat.add_0_r.
  - rewrite IH. replace (S start + List.length l1)%nat
      with (start + S (List.length l1))%nat by lia.
    now destruct (keep start).
Qed.

(** Filtering one position out of [before ++ x :: after]. *)
Lemma filter_index_one {A : Type} (before after : list A) (x : A) :
  JS.filter_index (fun index => negb (Nat.eqb index (List.length before))) 0
                  (before ++ x :: after)
  = before ++ after.
Proof.
  rewrite filter_index_app. cbn.
  rewrite Nat.eqb_refl. cbn.
  rewrite !filter_index_all; trivial.
  - intros k Hk. apply negb_true_iff, Nat.eqb_neq. lia.
  - intros k Hk. apply negb_true_iff, Nat.eqb_neq. lia.
Qed.

(** Filtering two positions out of [before ++ x :: between ++ y :: after]. *)
Lemma filter_index_two {A : Type} (before between after : list A) (x y : A)
    (selected : list nat) :
  (forall k, existsb (Nat.eqb k) selected = true <->
             k = List.length before \/
             k = (List.length before + 1 + List.length between)%nat) ->
  JS.filter_index (fun index => negb (existsb (Nat.eqb index) selected)) 0
                  (before ++ x :: between ++ y :: after)
  = before ++ between ++ after.
Proof.
  intros Hsel.
  assert (Hout : forall k, k <> List.length before ->
                           k <> (List.length before + 1 + List.length between)%nat ->
                           negb (existsb (Nat.eqb k) selected) = true).
  { intros k H1 H2. apply negb_true_iff.
    destruct (existsb (Nat.eqb k) selected) eqn:E; [|reflexivity].
    apply Hsel in E. lia. }
  assert (Hin1 : negb (existsb (Nat.eqb (List.length before)) selected) = false).
  { apply negb_false_iff, Hsel. now left. }
  assert (Hin2 : negb (existsb
                         (Nat.eqb (List.length before + 1 + List.length between))
                         selected) = false).
  { apply negb_false_iff, Hsel. now right. }
  rewrite filter_index_app. cbn [JS.filter_index Nat.add].
  rewrite Hin1.
  rewrite filter_index_app. cbn [JS.filter_index].
  replace (S (List.length before) + List.length between)%nat
    with (List.length before + 1 + List.length between)%nat by lia.
  rewrite Hin2.
  rewrite !filter_index_all; trivial.
  - intros k Hk. apply Hout; lia.
  - intros k Hk. apply Hout; lia.
  - intros k Hk. apply Hout; lia.
Qed.

Lemma splice_insert_at {A : Type} (before after : list A) (x : A) :
  JS.splice_insert (List.length before) x (before ++ after)
  = before ++ x :: after.
Proof.
  unfold JS.splice_insert.
  rewrite firstn_app, skipn_app, Nat.sub_diag, firstn_all, skipn_all.
  cbn. now rewrite app_nil_r.
Qed.

Lemma pop_push {A : Type} (l : list A) (x : A) : JS.pop (l ++ [x]) = Some (l, x).
Proof.
  unfold JS.pop. rewrite rev_app_distr. cbn. now rewrite rev_involutive.
Qed.

Lemma nth_error_middle {A : Type} (before after : list A) (x : A) :
  nth_error (before ++ x :: after) (List.length before) = Some x.
Proof.
  rewrite nth_error_app2 by lia. now rewrite Nat.sub_diag.
Qed.

Lemma split_two {A : Type} (l : list A) i j x y :
  (i < j)%nat -> nth_error l i = Some x -> nth_error l j = Some y ->
  exists before between after,
    l = before ++ x :: between ++ y :: after /\
    List.length before = i /\
    j = (i + 1 + List.length between)%nat.
Proof.
  intros Hij Hi Hj.
  apply nth_error_split in Hi as (before & rest & -> & <-).
  rewrite nth_error_app2 in Hj by lia.
  destruct (j - List.length before)%nat as [|k] eqn:Hk; [lia|].
  cbn in Hj.
  apply nth_error_split in Hj as (between & after & -> & <-).
  exists before, between, after. repeat split; lia.
Qed.

Lemma splice_remove_at {A : Type} (before after : list A) (x : A) :
  JS.splice_remove (List.length before) (before ++ x :: after) = before ++ after.
Proof.
  unfold JS.splice_remove.
  rewrite firstn_app, Nat.sub_diag, firstn_all. cbn [firstn].
  rewrite app_nil_r.
  replace (S (List.length before)) with (List.length (before ++ [x]))
    by (rewrite length_app; cbn; lia).
  replace (before ++ x :: after) with ((before ++ [x]) ++ after)
    by (now rewrite <- app_assoc).
  rewrite skipn_app, Nat.sub_diag, skipn_all. reflexivity.
Qed.

End Arrays.

(* ================================================================== *)
(** * Colour distances as exact numbers *)
(* ================================================================== *)

(** For 8-bit channels the squared distance is an integer below 195076, and
    for the tolerances 0..100 of the slider the threshold is one of 101
    numbers.  On these the binary64 square root and comparison of the
    sources agree with exact arithmetic; the agreement is checked on the
    tables below. *)
Module ColorMath.
Import ColorUtils.

(** A byte of a [Uint8ClampedArray]; a channel of an [RGBColor]. *)
Definition validChannel (z : Z) : Prop := 0 <= z <= 255.

Definition validColor (c : RGBColor) : Prop :=
  validChannel (r c) /\ validChannel (g c) /\ validChannel (b c).

(** [dr * dr + dg * dg + db * db] *)
Definition squaredDistance (c1 c2 : RGBColor) : Z :=
  (r c1 - r c2) * (r c1 - r c2) + (g c1 - g c2) * (g c1 - g c2)
  + (b c1 - b c2) * (b c1 - b c2).

(** [f n && f (n + 1) && ...], [k] values in all. *)
Fixpoint allFrom (f : Z -> bool) (k : nat) (n : Z) : bool :=
  match k with
  | O => true
  | S k' => f n && allFrom f k' (n + 1)
  end.

Lemma allFrom_spec f k n :
  allFrom f k n = true ->
  forall z, n <= z < n + Z.of_nat k -> f z = true.
Proof.
  revert n.
  induction k as [|k IH]; intros n H z Hz; [lia|].
  cbn [allFrom] in H. apply andb_true_iff in H as (Hn & Hrest).
  destruct (Z.eq_dec z n) as [->|Hne]; [exact Hn|].
  apply (IH (n + 1) Hrest). lia.
Qed.

(** The square root of every squared distance between two colours is a
    finite number. *)
Lemma sqrt_finite_table :
  allFrom (fun n => PrimFloat.ltb (PrimFloat.sqrt (JS.num n)) PrimFloat.infinity)
          (Z.to_nat 195076) 0 = true.
Proof. vm_compute. reflexivity. Qed.

Lemma squaredDistance_range c1 c2 :
  validColor c1 -> validColor c2 -> 0 <= squaredDistance c1 c2 < 195076.
Proof.
  unfold validColor, validChannel, squaredDistance.
  intros (Hr1 & Hg1 & Hb1) (Hr2 & Hg2 & Hb2).
  assert (forall u v, 0 <= u <= 255 -> 0 <= v <= 255 ->
                      0 <= (u - v) * (u - v) <= 65025) as Hsq.
  { intros u v Hu Hv.
    pose proof (Z.square_nonneg (u - v)).
    assert (0 <= (255 - (u - v)) * (255 + (u - v)))
      by (apply Z.mul_nonneg_nonneg; lia).
    lia. }
  pose proof (Hsq _ _ Hr1 Hr2). pose proof (Hsq _ _ Hg1 Hg2).
  pose proof (Hsq _ _ Hb1 Hb2). lia.
Qed.

Lemma colorDistance_finite c1 c2 :
  validColor c1 -> validColor c2 ->
  PrimFloat.ltb (colorDistance c1 c2) PrimFloat.infinity = true.
Proof.
  intros H1 H2.
  change (colorDistance c1 c2)
    with (PrimFloat.sqrt (JS.num (squaredDistance c1 c2))).
  apply (allFrom_spec _ _ _ sqrt_finite_table).
  pose proof (squaredDistance_range c1 c2 H1 H2). lia.
Qed.

(** [Math.sqrt] of an integer. *)
Definition root (n : Z) : float := PrimFloat.sqrt (JS.num n).

Lemma colorDistance_root c1 c2 :
  colorDistance c1 c2 = root (squaredDistance c1 c2).
Proof. reflexivity. Qed.

(** Consecutive integers have distinct, increasing square roots. *)
Lemma root_step_table :
  allFrom (fun n => PrimFloat.ltb (root n) (root (n + 1)))
          (Z.to_nat 195075) 0 = true.
Proof. vm_compute. reflexivity. Qed.

Lemma root_lt a c :
  0 <= a -> a < c -> c <= 195075 -> PrimFloat.ltb (root a) (root c) = true.
Proof.
  intros Ha Hac Hc.
  replace c with (a + 1 + Z.of_nat (Z.to_nat (c - a - 1))) in * by lia.
  induction (Z.to_nat (c - a - 1)) as [|k IH].
  - rewrite Z.add_0_r.
    apply (allFrom_spec _ _ _ root_step_table). lia.
  - eapply FloatOrder.ltb_trans; [apply IH; lia|].
    replace (a + 1 + Z.of_nat (S k)) with (a + 1 + Z.of_nat k + 1) by lia.
    apply (allFrom_spec _ _ _ root_step_table). lia.
Qed.

(** On squared distances the computed roots compare as the integers do. *)
Lemma root_ltb a c :
  0 <= a <= 195075 -> 0 <= c <= 195075 ->
  PrimFloat.ltb (root a) (root c) = (a <? c).
Proof.
  intros Ha Hc.
  destruct (Z.ltb_spec a c) as [Hlt|Hge].
  - apply root_lt; lia.
  - destruct (Z.eq_dec a c) as [->|Hne]; [apply FloatOrder.ltb_irrefl|].
    destruct (PrimFloat.ltb (root a) (root c)) eqn:E; [|reflexivity].
    assert (Hca : PrimFloat.ltb (root c) (root a) = true)
      by (apply root_lt; lia).
    pose proof (FloatOrder.ltb_trans _ _ _ E Hca) as Habs.
    now rewrite FloatOrder.ltb_irrefl in Habs.
Qed.

(** The least squared distance that is not below [(2.55 * t)^2], i.e. the
    least [n] with [400 * n >= 2601 * t * t]. *)
Definition boundary (t : Z) : Z := (2601 * t * t + 399) / 400.

Lemma boundary_spec t n : n < boundary t <-> 400 * n < 2601 * t * t.
Proof.
  unfold boundary. generalize (2601 * t * t). intros q.
  pose proof (Z.div_mod (q + 399) 400 ltac:(lia)).
  pose proof (Z.mod_pos_bound (q + 399) 400 ltac:(lia)).
  lia.
Qed.

Lemma boundary_range t : 0 <= t <= 100 -> 0 <= boundary t <= 65025.
Proof.
  intros Ht. unfold boundary.
  assert (0 <= t * t <= 10000) by nia.
  pose proof (Z.div_mod (2601 * t * t + 399) 400 ltac:(lia)).
  pose proof (Z.mod_pos_bound (2601 * t * t + 399) 400 ltac:(lia)).
  lia.
Qed.

(** For each tolerance of the slider, the computed threshold separates the
    roots just below and at the boundary. *)
Lemma threshold_table :
  allFrom (fun t =>
             ((boundary t =? 0)
              || PrimFloat.ltb (root (boundary t - 1)) (ImageProcessor.maxDist t))
             && ((195075 <? boundary t)
                 || negb (PrimFloat.ltb (root (boundary t))
                                        (ImageProcessor.maxDist t))))
          101 0 = true.
Proof. vm_compute. reflexivity. Qed.

(** [Math.sqrt(n) < tolerance * 2.55] holds exactly when
    [n < (2.55 * tolerance)^2] does. *)
Lemma root_below_maxDist t n :
  0 <= t <= 100 -> 0 <= n <= 195075 ->
  PrimFloat.ltb (root n) (ImageProcessor.maxDist t)
  = (400 * n <? 2601 * t * t).
Proof.
  intros Ht Hn.
  pose proof (boundary_range t Ht) as Hrange.
  pose proof (allFrom_spec _ _ _ threshold_table t ltac:(lia)) as T.
  cbv beta in T. apply andb_true_iff in T as (Tlow & Thigh).
  destruct (Z.ltb_spec (400 * n) (2601 * t * t)) as [Hlt|Hge].
  - apply boundary_spec in Hlt.
    apply orb_true_iff in Tlow as [Tz|Tlow]; [apply Z.eqb_eq in Tz; lia|].
    destruct (Z.eq_dec n (boundary t - 1)) as [->|Hne]; [exact Tlow|].
    eapply FloatOrder.ltb_trans; [|exact Tlow].
    apply root_lt; lia.
  - assert (Hb : boundary t <= n).
    { destruct (Z.lt_ge_cases n (boundary t)) as [L|L]; [|exact L].
      apply boundary_spec in L. lia. }
    apply orb_true_iff in Thigh as [Tz|Thigh]; [apply Z.ltb_lt in Tz; lia|].
    apply negb_true_iff in Thigh.
    destruct (Z.eq_dec n (boundary t)) as [->|Hne]; [exact Thigh|].
    destruct (PrimFloat.ltb (root n) (ImageProcessor.maxDist t)) eqn:E;
      [|reflexivity].
    assert (Hbn : PrimFloat.ltb (root (boundary t)) (root n) = true).
    { apply root_lt; lia. }
    pose proof (FloatOrder.ltb_trans _ _ _ Hbn E). congruence.
Qed.

(** The two tests of the sources on valid colours, in exact terms. *)
Lemma colorDistance_ltb c c1 c2 :
  validColor c -> validColor c1 -> validColor c2 ->
  PrimFloat.ltb (colorDistance c c1) (colorDistance c c2)
  = (squaredDistance c c1 <? squaredDistance c c2).
Proof.
  intros H H1 H2. rewrite !colorDistance_root.
  pose proof (squaredDistance_range c c1 H H1).
  pose proof (squaredDistance_range c c2 H H2).
  apply root_ltb; lia.
Qed.

Lemma colorDistance_below_maxDist t c1 c2 :
  0 <= t <= 100 -> validColor c1 -> validColor c2 ->
  PrimFloat.ltb (colorDistance c1 c2) (ImageProcessor.maxDist t)
  = (400 * squaredDistance c1 c2 <? 2601 * t * t).
Proof.
  intros Ht H1 H2. rewrite colorDistance_root.
  pose proof (squaredDistance_range c1 c2 H1 H2).
  apply root_below_maxDist; lia.
Qed.

End ColorMath.

(* ================================================================== *)
(** * Parsing hex colours *)
(* ================================================================== *)

Module ColorParsing.
Import ColorUtils.

(** The hex numeral of a digit value, in either case. *)
Definition hexNumeral (upper : bool) (n : nat) : ascii :=
  nth n (list_ascii_of_string
           (if upper then "0123456789ABCDEF" else "0123456789abcdef"))
      "0"%char.

(** [#] followed by the given characters. *)
Definition hashed (body : list ascii) : string :=
  String "#" (string_of_list_ascii body).

(** A host that serialises every named colour as opaque black. *)
Definition blackHost (_ : string) : string := "rgb(0, 0, 0)"%string.

Lemma hexDigit_numeral upper n :
  (n < 16)%nat -> hexDigit (hexNumeral upper n) = Some (Z.of_nat n).
Proof.
  intros H.
  do 16 (destruct n as [|n]; [destruct upper; reflexivity|]).
  lia.
Qed.

Lemma hexDigit_is_numeral c v :
  hexDigit c = Some v -> exists upper n, (n < 16)%nat /\ c = hexNumeral upper n.
Proof.
  destruct c as [[] [] [] [] [] [] [] []]; intros E; vm_compute in E;
    try discriminate;
    match type of E with
    | Some ?k = _ =>
        first [ exists false, (Z.to_nat k); split; [cbn; lia|reflexivity]
              | exists true, (Z.to_nat k); split; [cbn; lia|reflexivity] ]
    end.
Qed.

Lemma hexPair_numeral u1 n1 u2 n2 :
  (n1 < 16)%nat -> (n2 < 16)%nat ->
  hexPair (hexNumeral u1 n1) (hexNumeral u2 n2)
  = Some (16 * Z.of_nat n1 + Z.of_nat n2).
Proof.
  intros H1 H2. unfold hexPair.
  now rewrite !hexDigit_numeral.
Qed.

(** A string that starts with [#] goes to [hexToRgb], whatever the host
    and the remaining fuel. *)
Lemma parseColorString_hash host fuel body :
  parseColorString host (S fuel) (String "#" body) = hexToRgb (String "#" body).
Proof.
  cbn [parseColorString].
  replace ((String "#" body =? "")%string) with false by reflexivity.
  assert (E : (JS.toLowerCase (String "#" body) =? "none")%string = false)
    by reflexivity.
  rewrite E. cbn [orb].
  assert (P : String.prefix "#" (String "#" body) = true)
    by (destruct body; reflexivity).
  now rewrite P.
Qed.

Lemma hexToRgb_hash body :
  hexToRgb (String "#" body) =
  match list_ascii_of_string body with
  | [r1; r2; g1; g2; b1; b2] =>
      match hexPair r1 r2, hexPair g1 g2, hexPair b1 b2 with
      | Some rv, Some gv, Some bv => Some (mkRGB rv gv bv)
      | _, _, _ => None
      end
  | _ => None
  end.
Proof. reflexivity. Qed.

Lemma hexDigit_not_numeral c :
  (forall upper n, (n < 16)%nat -> c <> hexNumeral upper n) ->
  hexDigit c = None.
Proof.
  intros H. destruct (hexDigit c) as [v|] eqn:E; [|reflexivity].
  apply hexDigit_is_numeral in E as (upper & n & Hn & ->).
  now destruct (H upper n Hn).
Qed.

Lemma parseColorString_hashed host fuel body :
  parseColorString host (S fuel) (hashed body) =
  match body with
  | [r1; r2; g1; g2; b1; b2] =>
      match hexPair r1 r2, hexPair g1 g2, hexPair b1 b2 with
      | Some rv, Some gv, Some bv => Some (mkRGB rv gv bv)
      | _, _, _ => None
      end
  | _ => None
  end.
Proof.
  unfold hashed.
  now rewrite parseColorString_hash, hexToRgb_hash,
              list_ascii_of_string_of_list_ascii.
Qed.

(** ** The claim on hex colours *)

(** C5, refuted as stated: the three-digit form is not accepted.  [#fff]
    parses to nothing, where the claim has (255,255,255). *)
Lemma parseColorString_short_hex :
  hexToRgb "#fff" = None /\ parseColorString blackHost 2 "#fff" = None.
Proof. split; reflexivity. Qed.

(** C5 (as amended).  [parseColorString] returns the corresponding colour
    for every six-digit hex string [#rrggbb], in either letter case, and
    returns nothing for every other string that starts with [#]: one whose
    body has not exactly six characters (so every three-digit [#rgb]), and
    one whose body holds a character that is no hex digit. *)
Theorem parseColorString_hex (host : string -> string) (fuel : nat) :
  (forall u1 n1 u2 n2 u3 n3 u4 n4 u5 n5 u6 n6,
     (n1 < 16)%nat -> (n2 < 16)%nat -> (n3 < 16)%nat ->
     (n4 < 16)%nat -> (n5 < 16)%nat -> (n6 < 16)%nat ->
     parseColorString host (S fuel)
       (hashed [hexNumeral u1 n1; hexNumeral u2 n2; hexNumeral u3 n3;
                hexNumeral u4 n4; hexNumeral u5 n5; hexNumeral u6 n6])
     = Some (mkRGB (16 * Z.of_nat n1 + Z.of_nat n2)
                   (16 * Z.of_nat n3 + Z.of_nat n4)
                   (16 * Z.of_nat n5 + Z.of_nat n6))) /\
  (forall body,
     List.length body <> 6%nat ->
     parseColorString host (S fuel) (hashed body) = None) /\
  (forall body c,
     In c body ->
     (forall upper n, (n < 16)%nat -> c <> hexNumeral upper n) ->
     parseColorString host (S fuel) (hashed body) = None).
Proof.
  split; [|split].
  - intros. rewrite parseColorString_hashed.
    now rewrite !hexPair_numeral.
  - intros body Hlen. rewrite parseColorString_hashed.
    do 7 (destruct body as [|? body]; try reflexivity).
    now destruct Hlen.
  - intros body c Hin Hc. rewrite parseColorString_hashed.
    apply hexDigit_not_numeral in Hc.
    do 7 (destruct body as [|? body]; try reflexivity).
    unfold hexPair.
    cbn in Hin.
    destruct Hin as [->|[->|[->|[->|[->|[->|[]]]]]]]; rewrite Hc;
      repeat match goal with
      | |- context [hexDigit ?a] => destruct (hexDigit a)
      end; reflexivity.
Qed.

Lemma parseColorString_hex_witness :
  parseColorString blackHost 1 "#F7f7F7" = Some (mkRGB 247 247 247) /\
  parseColorString blackHost 1 "#F7F" = None.
Proof.
  split.
  - exact (proj1 (parseColorString_hex blackHost 0)
             true 15%nat false 7%nat false 15%nat false 7%nat true 15%nat false 7%nat
             ltac:(lia) ltac:(lia) ltac:(lia) ltac:(lia) ltac:(lia) ltac:(lia)).
  - exact (proj1 (proj2 (parseColorString_hex blackHost 0))
             (list_ascii_of_string "F7F") ltac:(cbn; lia)).
Defined.

End ColorParsing.

(* ================================================================== *)
(** * Vector clustering: partition and the white rule *)
(* ================================================================== *)

Module VectorClustering.
Import ColorUtils DOM ImageProcessor ColorParsing.

Definition allElements (groups : list SVGColorGroup.t) : list SVGElement :=
  flat_map SVGColorGroup.elements groups.

Definition white : RGBColor := mkRGB 255 255 255.
Definition offWhite : RGBColor := mkRGB 247 247 247.

Lemma placePath_elements maxDist path groups :
  Permutation (allElements (placePath maxDist path groups))
              (SVGPathData.element path :: allElements groups).
Proof.
  unfold allElements.
  induction groups as [|group rest IH]; cbn.
  - reflexivity.
  - destruct (PrimFloat.ltb _ _); cbn.
    + rewrite <- app_assoc. cbn.
      symmetry. apply Permutation_middle.
    + rewrite IH. symmetry. apply Permutation_middle.
Qed.

Lemma fold_placePath_elements maxDist paths groups :
  Permutation
    (allElements
       (fold_left (fun gs path => placePath maxDist path gs) paths groups))
    (allElements groups ++ map SVGPathData.element paths).
Proof.
  revert groups.
  induction paths as [|path paths IH]; intros groups; cbn.
  - now rewrite app_nil_r.
  - rewrite IH, placePath_elements. cbn.
    apply Permutation_middle.
Qed.

Lemma NoDup_app_disjoint {B : Type} (l1 l2 : list B) (e : B) :
  NoDup (l1 ++ l2) -> In e l1 -> In e l2 -> False.
Proof.
  induction l1 as [|y ys IH]; cbn; [contradiction|].
  intros ND [->|Hin] H2.
  - inversion ND; subst. apply H1, in_or_app. now right.
  - inversion ND; subst. eauto.
Qed.

(** In a family of lists whose concatenation has no repetition, a value
    lies in one list of the family only. *)
Lemma NoDup_flat_map_unique {A B : Type} (f : A -> list B) (l : list A) :
  NoDup (flat_map f l) ->
  forall i j a c e,
    nth_error l i = Some a -> nth_error l j = Some c ->
    In e (f a) -> In e (f c) -> i = j.
Proof.
  induction l as [|x l IH]; intros ND i j a c e Hi Hj Ha Hc.
  - destruct i; discriminate.
  - cbn in ND. apply NoDup_app_remove_l in ND as ND'.
    destruct i as [|i], j as [|j]; cbn in Hi, Hj.
    + reflexivity.
    + injection Hi as ->. exfalso.
      apply nth_error_In in Hj.
      eapply (NoDup_app_disjoint _ _ e ND); [assumption|].
      apply in_flat_map; eauto.
    + injection Hj as ->. exfalso.
      apply nth_error_In in Hi.
      eapply (NoDup_app_disjoint _ _ e ND); [assumption|].
      apply in_flat_map; eauto.
    + f_equal. eapply IH; eauto.
Qed.

(** The representative colour of a group is the colour of the path that
    opened it. *)
Lemma placePath_representative maxDist path groups g :
  In g (placePath maxDist path groups) ->
  SVGColorGroup.representativeColor g = SVGPathData.color path \/
  exists g', In g' groups /\
             SVGColorGroup.representativeColor g' =
             SVGColorGroup.representativeColor g.
Proof.
  induction groups as [|group rest IH]; cbn.
  - intros [<-|[]]. now left.
  - destruct (PrimFloat.ltb _ _); cbn.
    + intros [<-|Hin]; right; eauto.
    + intros [<-|Hin]; [right; eauto|].
      destruct (IH Hin) as [?|(g' & ? & ?)]; [now left|right; eauto].
Qed.

Lemma fold_placePath_representative maxDist paths groups g :
  In g (fold_left (fun gs path => placePath maxDist path gs) paths groups) ->
  (exists path, In path paths /\
                SVGColorGroup.representativeColor g = SVGPathData.color path) \/
  (exists g', In g' groups /\
              SVGColorGroup.representativeColor g' =
              SVGColorGroup.representativeColor g).
Proof.
  revert groups.
  induction paths as [|path paths IH]; intros groups; cbn.
  - intros Hin. right; eauto.
  - intros Hin. destruct (IH _ Hin) as [(q & ? & ?)|(g' & Hg' & Heq)].
    + left; eauto.
    + destruct (placePath_representative _ _ _ _ Hg') as [Hc|(g'' & ? & ?)].
      * left. exists path. split; [now left|congruence].
      * right. exists g''. split; [assumption|congruence].
Qed.

Lemma isWhiteColor_false fill c :
  isWhiteColor fill = false -> fill = Some c -> c <> white.
Proof.
  intros Hw -> ->. discriminate Hw.
Qed.

Lemma ingest_color host fuel el path :
  In path (ingest host fuel el) -> SVGPathData.color path <> white.
Proof.
  unfold ingest.
  destruct (isWhiteColor (parseColorString host fuel (style_fill el))) eqn:Hw.
  - destruct (PrimFloat.ltb _ _); [|contradiction].
    intros [<-|[]]. discriminate.
  - destruct (parseColorString host fuel (style_fill el)) as [c|] eqn:Hp;
      [|contradiction].
    destruct (PrimFloat.ltb _ _); [|contradiction].
    intros [<-|[]]. cbn. eapply isWhiteColor_false; eauto.
Qed.

(** What [ingest] does with a visible white shape. *)
Lemma ingest_white host fuel el :
  parseColorString host fuel (style_fill el) = Some white ->
  PrimFloat.ltb 0 (if JS.isNaN (style_fillOpacity el) then 1%float
                   else style_fillOpacity el) = true ->
  ingest host fuel el =
    [SVGPathData.mk offWhite
       (setAttribute "stroke" "none" (setAttribute "fill" "#F7F7F7" (node el)))].
Proof.
  intros Hp Ho. unfold ingest. rewrite Hp. cbn. now rewrite Ho.
Qed.

(** ** Sample inputs *)

Definition rectElement (fill : string) : SVGElement :=
  mkElement "rect" None [("fill"%string, fill)].

(** Three shapes: white, white again, and red at half opacity. *)
Definition sampleDocument : SVGDocument :=
  mkDocument (Some [0; 0; 100; 50]%float) 100%float 50%float
    [ mkShape (rectElement "#fff") "rgb(255, 255, 255)" 1%float;
      mkShape (rectElement "white") "rgb(255, 255, 255)" PrimFloat.nan;
      mkShape (rectElement "red") "rgb(255, 0, 0)" 0.5%float ].

Definition samplePaths : list SVGPathData.t :=
  [ SVGPathData.mk (mkRGB 0 0 0) (rectElement "a");
    SVGPathData.mk (mkRGB 10 0 0) (rectElement "b");
    SVGPathData.mk (mkRGB 14 0 0) (rectElement "c") ].

(** ** The claims on vector clustering *)

(** C1 (as amended to what the vector path does).  After [processSVG], pure
    white (255,255,255) is the colour of no ingested shape and the
    representative colour of no group: a visible shape whose computed fill
    is (255,255,255) is ingested with colour (247,247,247), its [fill]
    attribute set to [#F7F7F7], before grouping. *)
Theorem processSVG_never_white
    (host : string -> string) (fuel : nat) (doc : SVGDocument) (tolerance : Z) :
  (forall path, In path (ingestAll host fuel doc) ->
                SVGPathData.color path <> white) /\
  (forall g, In g (fst (processSVG host fuel doc tolerance)) ->
             SVGColorGroup.representativeColor g <> white) /\
  (forall el,
     In el (shapeElements doc) ->
     parseColorString host fuel (style_fill el) = Some white ->
     PrimFloat.ltb 0 (if JS.isNaN (style_fillOpacity el) then 1%float
                      else style_fillOpacity el) = true ->
     In (SVGPathData.mk offWhite
           (setAttribute "stroke" "none"
              (setAttribute "fill" "#F7F7F7" (node el))))
        (ingestAll host fuel doc)).
Proof.
  assert (Hpaths : forall path, In path (ingestAll host fuel doc) ->
                                SVGPathData.color path <> white).
  { intros path Hin. unfold ingestAll in Hin.
    apply in_flat_map in Hin as (el & _ & Hin).
    eapply ingest_color; eauto. }
  split; [exact Hpaths|split].
  - intros g Hin. cbn in Hin. unfold groupPaths in Hin.
    apply fold_placePath_representative in Hin
      as [(path & Hp & ->)|(g' & [] & _)].
    now apply Hpaths.
  - intros el Hel Hfill Hvisible. unfold ingestAll.
    apply in_flat_map. exists el. split; [assumption|].
    rewrite (ingest_white _ _ _ Hfill Hvisible). now left.
Qed.

Definition sampleWhiteGroup : SVGColorGroup.t :=
  SVGColorGroup.mk offWhite
    [ setAttribute "stroke" "none"
        (setAttribute "fill" "#F7F7F7" (rectElement "#fff"));
      setAttribute "stroke" "none"
        (setAttribute "fill" "#F7F7F7" (rectElement "white")) ].

Lemma processSVG_never_white_witness :
  In sampleWhiteGroup (fst (processSVG blackHost 1 sampleDocument 20)) /\
  SVGColorGroup.representativeColor sampleWhiteGroup <> white.
Proof.
  assert (H : In sampleWhiteGroup (fst (processSVG blackHost 1 sampleDocument 20))).
  { vm_compute. left. reflexivity. }
  split; [exact H|].
  exact (proj1 (proj2 (processSVG_never_white blackHost 1 sampleDocument 20)) _ H).
Defined.

(** C2.  Vector clustering partitions its input, whatever the shapes and the
    tolerance: the elements of the groups, taken together, are the input
    shapes, each as often as it occurs in the input (none dropped, none
    duplicated); and when the input shapes are pairwise distinct, every
    shape lies in the group at one position of the result and in no group
    at another position. *)
Theorem groupPaths_partition (tolerance : Z) (paths : list SVGPathData.t) :
  let groups := groupPaths tolerance paths in
  Permutation (allElements groups) (map SVGPathData.element paths) /\
  (NoDup (map SVGPathData.element paths) ->
   forall e, In e (map SVGPathData.element paths) ->
     exists i,
       (exists g, nth_error groups i = Some g /\
                  In e (SVGColorGroup.elements g)) /\
       (forall j g', nth_error groups j = Some g' ->
                     In e (SVGColorGroup.elements g') -> j = i)).
Proof.
  cbv zeta.
  assert (Hperm : Permutation (allElements (groupPaths tolerance paths))
                              (map SVGPathData.element paths)).
  { unfold groupPaths. now rewrite fold_placePath_elements. }
  split; [exact Hperm|].
  intros Hnodup e He.
  assert (Hall : In e (allElements (groupPaths tolerance paths))).
  { eapply Permutation_in; [symmetry; exact Hperm|exact He]. }
  assert (ND : NoDup (allElements (groupPaths tolerance paths))).
  { eapply Permutation_NoDup; [symmetry; exact Hperm|exact Hnodup]. }
  unfold allElements in Hall. apply in_flat_map in Hall as (g & Hg & Heg).
  apply In_nth_error in Hg as (i & Hi).
  exists i. split; [eauto|].
  intros j g' Hj Hin.
  exact (NoDup_flat_map_unique _ _ ND j i g' g e Hj Hi Hin Heg).
Qed.

Lemma groupPaths_partition_witness :
  NoDup (map SVGPathData.element samplePaths) /\
  exists i,
    (exists g, nth_error (groupPaths 2 samplePaths) i = Some g /\
               In (rectElement "c") (SVGColorGroup.elements g)) /\
    (forall j g', nth_error (groupPaths 2 samplePaths) j = Some g' ->
                  In (rectElement "c") (SVGColorGroup.elements g') -> j = i).
Proof.
  assert (ND : NoDup (map SVGPathData.element samplePaths)).
  { cbn. repeat constructor; cbn; intuition discriminate. }
  split; [exact ND|].
  apply (proj2 (groupPaths_partition 2 samplePaths) ND).
  cbn. auto.
Defined.

End VectorClustering.

(* ================================================================== *)
(** * Raster clustering and the effect of the tolerance *)
(* ================================================================== *)

Module Coarsening.
Import ColorUtils DOM ImageProcessor.

(** [colorDistance(c, rep) < maxDist]: the test both clusterers apply. *)
Definition near (maxDist : float) (rep c : RGBColor) : bool :=
  PrimFloat.ltb (colorDistance c rep) maxDist.

(** The size of the largest group, for the three measures of size. *)
Definition largestShapeCount (groups : list SVGColorGroup.t) : nat :=
  fold_right Nat.max 0%nat
    (map (fun g => List.length (SVGColorGroup.elements g)) groups).

Definition largestMemberCount (groups : list RasterColorGroup.t) : nat :=
  fold_right Nat.max 0%nat
    (map (fun g => List.length (RasterColorGroup.memberColors g)) groups).

Definition largestTotalCount (groups : list RasterColorGroup.t) : Z :=
  fold_right Z.max 0 (map RasterColorGroup.totalCount groups).

Definition sumCounts (l : list ColorCount) : Z :=
  fold_right Z.add 0 (map count l).

(** The tolerances the slider offers. *)
Definition tolerances : list Z := map Z.of_nat (seq 0 101).

Lemma tolerances_In t : 0 <= t <= 100 -> In t tolerances.
Proof.
  intros H. unfold tolerances.
  replace t with (Z.of_nat (Z.to_nat t)) by lia.
  apply in_map, in_seq. lia.
Qed.

Lemma maxDist_table :
  forallb (fun t1 =>
    forallb (fun t2 =>
      (t2 <? t1) || PrimFloat.leb (maxDist t1) (maxDist t2)) tolerances)
    tolerances = true.
Proof. vm_compute. reflexivity. Qed.

(** The threshold grows with the tolerance. *)
Lemma maxDist_monotone t1 t2 :
  0 <= t1 -> t1 <= t2 -> t2 <= 100 ->
  PrimFloat.leb (maxDist t1) (maxDist t2) = true.
Proof.
  intros H0 H12 H100.
  pose proof maxDist_table as T.
  rewrite forallb_forall in T.
  specialize (T t1 (tolerances_In t1 ltac:(lia))).
  rewrite forallb_forall in T.
  specialize (T t2 (tolerances_In t2 ltac:(lia))).
  apply orb_true_iff in T as [T|T]; [|exact T].
  apply Z.ltb_lt in T. lia.
Qed.

Lemma near_monotone t1 t2 rep c :
  0 <= t1 -> t1 <= t2 -> t2 <= 100 ->
  near (maxDist t1) rep c = true -> near (maxDist t2) rep c = true.
Proof.
  intros H0 H12 H100 Hn. unfold near in *.
  eapply FloatOrder.ltb_leb_trans; [exact Hn|].
  now apply maxDist_monotone.
Qed.

(** ** Lists filtered by a weaker test *)

Lemma filter_length_le {A : Type} (f h : A -> bool) (l : list A) :
  (forall x, In x l -> f x = true -> h x = true) ->
  (List.length (filter f l) <= List.length (filter h l))%nat.
Proof.
  induction l as [|x l IH]; intros Hfh; cbn; [lia|].
  assert (IH' := IH (fun y Hy => Hfh y (or_intror Hy))).
  destruct (f x) eqn:Hf.
  - rewrite (Hfh x (or_introl eq_refl) Hf). cbn. lia.
  - destruct (h x); cbn; lia.
Qed.

Lemma filter_sumCounts_le (f h : ColorCount -> bool) (l : list ColorCount) :
  (forall x, In x l -> 0 <= count x) ->
  (forall x, In x l -> f x = true -> h x = true) ->
  sumCounts (filter f l) <= sumCounts (filter h l).
Proof.
  unfold sumCounts.
  induction l as [|x l IH]; intros Hpos Hfh; cbn; [lia|].
  assert (IH' := IH (fun y Hy => Hpos y (or_intror Hy))
                    (fun y Hy => Hfh y (or_intror Hy))).
  assert (Hx := Hpos x (or_introl eq_refl)).
  destruct (f x) eqn:Hf.
  - rewrite (Hfh x (or_introl eq_refl) Hf). cbn. lia.
  - destruct (h x); cbn; lia.
Qed.

(** ** The group opened first *)

(** Under first-fit the group at the head of the list takes every later
    item within the threshold of its representative colour, and no other. *)
Lemma fold_placePath_head maxDist paths g rest :
  exists rest',
    fold_left (fun gs path => placePath maxDist path gs) paths (g :: rest) =
    SVGColorGroup.mk (SVGColorGroup.representativeColor g)
      (SVGColorGroup.elements g ++
       map SVGPathData.element
         (filter (fun p => near maxDist (SVGColorGroup.representativeColor g)
                                (SVGPathData.color p)) paths))
    :: rest'.
Proof.
  unfold near. revert g rest.
  induction paths as [|path paths IH]; intros g rest; cbn.
  - exists rest. rewrite app_nil_r. now destruct g.
  - destruct (PrimFloat.ltb _ _) eqn:Hnear.
    + destruct (IH (SVGColorGroup.mk (SVGColorGroup.representativeColor g)
                      (SVGColorGroup.elements g ++ [SVGPathData.element path]))
                   rest) as (rest' & ->).
      exists rest'. cbn. now rewrite <- app_assoc.
    + destruct (IH g (placePath maxDist path rest)) as (rest' & ->).
      now exists rest'.
Qed.

Lemma fold_placeColor_head maxDist colors g rest :
  exists rest',
    fold_left (fun gs c => placeColor maxDist c gs) colors (g :: rest) =
    RasterColorGroup.mk (RasterColorGroup.representativeColor g)
      (RasterColorGroup.memberColors g ++
       map color
         (filter (fun c => near maxDist (RasterColorGroup.representativeColor g)
                                (color c)) colors))
      (RasterColorGroup.totalCount g +
       sumCounts
         (filter (fun c => near maxDist (RasterColorGroup.representativeColor g)
                                (color c)) colors))
    :: rest'.
Proof.
  unfold near. revert g rest.
  induction colors as [|c colors IH]; intros g rest; cbn.
  - exists rest. rewrite app_nil_r, Z.add_0_r. now destruct g.
  - destruct (PrimFloat.ltb _ _) eqn:Hnear.
    + destruct (IH (RasterColorGroup.mk (RasterColorGroup.representativeColor g)
                      (RasterColorGroup.memberColors g ++ [color c])
                      (RasterColorGroup.totalCount g + count c))
                   rest) as (rest' & ->).
      exists rest'. cbn. rewrite <- app_assoc. cbn.
      f_equal. f_equal. unfold sumCounts. cbn. lia.
    + destruct (IH g (placeColor maxDist c rest)) as (rest' & ->).
      now exists rest'.
Qed.

Lemma groupPaths_head tolerance path paths :
  exists rest,
    groupPaths tolerance (path :: paths) =
    SVGColorGroup.mk (SVGPathData.color path)
      (SVGPathData.element path ::
       map SVGPathData.element
         (filter (fun p => near (maxDist tolerance) (SVGPathData.color path)
                                (SVGPathData.color p)) paths))
    :: rest.
Proof.
  unfold groupPaths. cbn [fold_left placePath].
  destruct (fold_placePath_head (maxDist tolerance) paths
              (SVGColorGroup.mk (SVGPathData.color path)
                                [SVGPathData.element path]) [])
    as (rest & E).
  exists rest. exact E.
Qed.

Lemma groupColors_head tolerance first others :
  exists rest,
    groupColors tolerance (first :: others) =
    RasterColorGroup.mk (color first)
      (color first ::
       map color
         (filter (fun c => near (maxDist tolerance) (color first) (color c))
                 others))
      (count first +
       sumCounts
         (filter (fun c => near (maxDist tolerance) (color first) (color c))
                 others))
    :: rest.
Proof.
  unfold groupColors. cbn [fold_left placeColor].
  destruct (fold_placeColor_head (maxDist tolerance) others
              (RasterColorGroup.mk (color first) [color first] (count first)) [])
    as (rest & E).
  exists rest. exact E.
Qed.

(** ** Sorting keeps the entries *)

Lemma insert_Permutation {A : Type} (compare : A -> A -> Z) x l :
  Permutation (JS.insert compare x l) (x :: l).
Proof.
  induction l as [|y l IH]; cbn; [reflexivity|].
  destruct (compare x y <=? 0); [reflexivity|].
  rewrite IH. apply perm_swap.
Qed.

Lemma sort_Permutation {A : Type} (compare : A -> A -> Z) l :
  Permutation (JS.sort compare l) l.
Proof.
  induction l as [|x l IH]; cbn; [reflexivity|].
  rewrite insert_Permutation. now constructor.
Qed.

(** ** Every colour of the frequency table has been seen at least once *)

Definition counted (colorMap : list ColorCount) : Prop :=
  Forall (fun e => 1 <= count e) colorMap.

Lemma countColor_counted c colorMap :
  counted colorMap -> counted (countColor c colorMap).
Proof.
  unfold counted.
  induction colorMap as [|e rest IH]; cbn; intros H.
  - repeat constructor. cbn. lia.
  - inversion H; subst.
    destruct (RGBColor_eqb (color e) c); constructor; cbn; auto; lia.
Qed.

Lemma buildColorMap_counted pixels : counted (buildColorMap pixels).
Proof.
  unfold buildColorMap.
  generalize (sampled (Z.to_nat (sampleRate (Z.of_nat (List.length pixels)))) 0 pixels).
  intros l.
  assert (H : counted []) by constructor.
  revert H. generalize (@nil ColorCount).
  induction l as [|p l IH]; intros m Hm; cbn; [exact Hm|].
  apply IH. unfold samplePixel.
  destruct (alpha p <? 128); [exact Hm|].
  now apply countColor_counted.
Qed.

Lemma sortColors_counted pixels e :
  In e (sortColors (buildColorMap pixels)) -> 0 <= count e.
Proof.
  intros Hin.
  eapply Permutation_in in Hin; [|apply sort_Permutation].
  pose proof (buildColorMap_counted pixels) as H.
  unfold counted in H. rewrite Forall_forall in H.
  specialize (H e Hin). lia.
Qed.

(** ** No group is larger than the largest *)

Lemma largestShapeCount_ge groups g :
  In g groups ->
  (List.length (SVGColorGroup.elements g) <= largestShapeCount groups)%nat.
Proof.
  unfold largestShapeCount.
  induction groups as [|g' groups IH]; cbn; [contradiction|].
  intros [->|Hin]; [lia|]. specialize (IH Hin). lia.
Qed.

Lemma largestMemberCount_ge groups g :
  In g groups ->
  (List.length (RasterColorGroup.memberColors g) <= largestMemberCount groups)%nat.
Proof.
  unfold largestMemberCount.
  induction groups as [|g' groups IH]; cbn; [contradiction|].
  intros [->|Hin]; [lia|]. specialize (IH Hin). lia.
Qed.

Lemma largestTotalCount_ge groups g :
  In g groups -> RasterColorGroup.totalCount g <= largestTotalCount groups.
Proof.
  unfold largestTotalCount.
  induction groups as [|g' groups IH]; cbn; [contradiction|].
  intros [->|Hin]; [lia|]. specialize (IH Hin). lia.
Qed.

(** ** Sample inputs *)

Definition plainPath (red : Z) : SVGPathData.t :=
  SVGPathData.mk (mkRGB red 0 0) (mkElement "path" None []).

(** Five shapes whose fills differ in the red channel only. *)
Definition shrinkingPaths : list SVGPathData.t :=
  map plainPath [0; 10; 14; 14; 14].

Definition opaque (red : Z) : Pixel := mkPixel red 0 0 255.

(** Fifteen opaque pixels: five of red 0, four of red 10, three of red 12,
    two of red 13 and one of red 14. *)
Definition shrinkingImage : ImageData :=
  mkImageData 15 1
    (map opaque [0; 0; 0; 0; 0; 10; 10; 10; 10; 12; 12; 12; 13; 13; 14]).

(** A single opaque white pixel. *)
Definition whitePixelImage : ImageData :=
  mkImageData 1 1 [mkPixel 255 255 255 255].

(** ** The claims on the tolerance and on raster ingestion *)

(** C1, refuted as stated: raster ingestion remaps nothing.  An image of one
    opaque pure-white pixel yields a group whose representative colour and
    only member colour are (255,255,255). *)
Lemma processRaster_keeps_white :
  processRaster whitePixelImage 20 =
    [RasterColorGroup.mk (mkRGB 255 255 255) [mkRGB 255 255 255] 1].
Proof. vm_compute. reflexivity. Qed.

(** C3, refuted as stated: raising the tolerance can shrink the largest
    group.  For the five shapes of [shrinkingPaths] the largest group has 4
    shapes at tolerance 2 and 3 shapes at tolerance 5; for the pixels of
    [shrinkingImage] the largest group has 4 member colours and 10 pixels
    at tolerance 2, but 3 member colours and 9 pixels at tolerance 4. *)
Lemma largest_group_can_shrink :
  (2 <= 5 /\
   largestShapeCount (groupPaths 2 shrinkingPaths) = 4%nat /\
   largestShapeCount (groupPaths 5 shrinkingPaths) = 3%nat) /\
  (2 <= 4 /\
   largestMemberCount (processRaster shrinkingImage 2) = 4%nat /\
   largestMemberCount (processRaster shrinkingImage 4) = 3%nat /\
   largestTotalCount (processRaster shrinkingImage 2) = 10 /\
   largestTotalCount (processRaster shrinkingImage 4) = 9).
Proof.
  repeat split; try lia; vm_compute; reflexivity.
Qed.

(** C3 (as amended).  For tolerances 0 <= t1 <= t2 <= 100 and a fixed input,
    the group opened by the first item in clustering order (the first shape
    of the document; for pixels, the most frequent sampled colour) never
    shrinks: under t2 it has the same representative colour and at least as
    many shapes (member colours, pixels) as under t1, so the largest group
    under t2 is at least as large as that group under t1. *)
Theorem first_group_never_shrinks (t1 t2 : Z) :
  0 <= t1 -> t1 <= t2 -> t2 <= 100 ->
  (forall path paths,
     exists g1 rest1 g2 rest2,
       groupPaths t1 (path :: paths) = g1 :: rest1 /\
       groupPaths t2 (path :: paths) = g2 :: rest2 /\
       SVGColorGroup.representativeColor g1 = SVGPathData.color path /\
       SVGColorGroup.representativeColor g2 = SVGPathData.color path /\
       (List.length (SVGColorGroup.elements g1)
        <= List.length (SVGColorGroup.elements g2))%nat /\
       (List.length (SVGColorGroup.elements g1)
        <= largestShapeCount (groupPaths t2 (path :: paths)))%nat) /\
  (forall image first others,
     sortColors (buildColorMap (data image)) = first :: others ->
     exists g1 g2,
       In g1 (processRaster image t1) /\
       In g2 (processRaster image t2) /\
       RasterColorGroup.representativeColor g1 = color first /\
       RasterColorGroup.representativeColor g2 = color first /\
       (List.length (RasterColorGroup.memberColors g1)
        <= List.length (RasterColorGroup.memberColors g2))%nat /\
       RasterColorGroup.totalCount g1 <= RasterColorGroup.totalCount g2 /\
       (List.length (RasterColorGroup.memberColors g1)
        <= largestMemberCount (processRaster image t2))%nat /\
       RasterColorGroup.totalCount g1
        <= largestTotalCount (processRaster image t2)).
Proof.
  intros H0 H12 H100. split.
  - intros path paths.
    destruct (groupPaths_head t1 path paths) as (rest1 & E1).
    destruct (groupPaths_head t2 path paths) as (rest2 & E2).
    rewrite E1, E2.
    do 4 eexists. split; [reflexivity|]. split; [reflexivity|].
    split; [reflexivity|]. split; [reflexivity|].
    cbn [SVGColorGroup.elements].
    match goal with |- (?a <= ?c)%nat /\ _ => assert (Hlen : (a <= c)%nat) end.
    { cbn [List.length]. rewrite !length_map.
      apply le_n_S, filter_length_le.
      intros p _. now apply near_monotone. }
    split; [exact Hlen|].
    etransitivity; [exact Hlen|].
    match goal with
    | |- (_ <= largestShapeCount (?g :: ?rest))%nat =>
        exact (largestShapeCount_ge (g :: rest) g (in_eq g rest))
    end.
  - intros image first others Hsorted.
    unfold processRaster. rewrite Hsorted.
    destruct (groupColors_head t1 first others) as (rest1 & E1).
    destruct (groupColors_head t2 first others) as (rest2 & E2).
    rewrite E1, E2.
    set (near1 := fun c => near (maxDist t1) (color first) (color c)).
    set (near2 := fun c => near (maxDist t2) (color first) (color c)).
    set (g1 := RasterColorGroup.mk _ _ (count first + sumCounts (filter near1 others))).
    set (g2 := RasterColorGroup.mk _ _ (count first + sumCounts (filter near2 others))).
    assert (Hin1 : In g1 (sortGroups (g1 :: rest1))).
    { eapply Permutation_in; [symmetry; apply sort_Permutation|now left]. }
    assert (Hin2 : In g2 (sortGroups (g2 :: rest2))).
    { eapply Permutation_in; [symmetry; apply sort_Permutation|now left]. }
    assert (Hmem :
      (List.length (RasterColorGroup.memberColors g1)
       <= List.length (RasterColorGroup.memberColors g2))%nat).
    { cbn. rewrite !length_map. apply le_n_S, filter_length_le.
      intros c _. now apply near_monotone. }
    assert (Htot :
      RasterColorGroup.totalCount g1 <= RasterColorGroup.totalCount g2).
    { cbn. apply Z.add_le_mono_l, filter_sumCounts_le.
      - intros c Hc. apply (sortColors_counted (data image)).
        rewrite Hsorted. now right.
      - intros c _. now apply near_monotone. }
    exists g1, g2. repeat split; trivial.
    + etransitivity; [exact Hmem|]. now apply largestMemberCount_ge.
    + etransitivity; [exact Htot|]. now apply largestTotalCount_ge.
Qed.

Lemma first_group_never_shrinks_witness :
  (exists g1 rest1 g2 rest2,
     groupPaths 2 shrinkingPaths = g1 :: rest1 /\
     groupPaths 5 shrinkingPaths = g2 :: rest2 /\
     SVGColorGroup.representativeColor g1 = mkRGB 0 0 0 /\
     SVGColorGroup.representativeColor g2 = mkRGB 0 0 0 /\
     (List.length (SVGColorGroup.elements g1)
      <= List.length (SVGColorGroup.elements g2))%nat /\
     (List.length (SVGColorGroup.elements g1)
      <= largestShapeCount (groupPaths 5 shrinkingPaths))%nat) /\
  (exists g1 g2,
     In g1 (processRaster shrinkingImage 2) /\
     In g2 (processRaster shrinkingImage 5) /\
     RasterColorGroup.representativeColor g1 = mkRGB 0 0 0 /\
     RasterColorGroup.representativeColor g2 = mkRGB 0 0 0 /\
     (List.length (RasterColorGroup.memberColors g1)
      <= List.length (RasterColorGroup.memberColors g2))%nat /\
     RasterColorGroup.totalCount g1 <= RasterColorGroup.totalCount g2 /\
     (List.length (RasterColorGroup.memberColors g1)
      <= largestMemberCount (processRaster shrinkingImage 5))%nat /\
     RasterColorGroup.totalCount g1
      <= largestTotalCount (processRaster shrinkingImage 5)).
Proof.
  split.
  - exact (proj1 (first_group_never_shrinks 2 5 ltac:(lia) ltac:(lia) ltac:(lia))
                 (plainPath 0) (map plainPath [10; 14; 14; 14])).
  - exact (proj2 (first_group_never_shrinks 2 5 ltac:(lia) ltac:(lia) ltac:(lia))
                 shrinkingImage
                 (mkColorCount (mkRGB 0 0 0) 5)
                 [ mkColorCount (mkRGB 10 0 0) 4; mkColorCount (mkRGB 12 0 0) 3;
                   mkColorCount (mkRGB 13 0 0) 2; mkColorCount (mkRGB 14 0 0) 1 ]
                 ltac:(vm_compute; reflexivity)).
Defined.

End Coarsening.

(* ================================================================== *)
(** * The layer-edit handlers *)
(* ================================================================== *)

Module LayerEdits.
Import ColorUtils DOM App Arrays.

(** ** Sample states *)

Definition circle (name : string) : SVGElement :=
  mkElement "circle" None [("id"%string, name)].

Definition circles (c : RGBColor) (names : list string) : SVGColorGroup.t :=
  SVGColorGroup.mk c (map circle names).

Definition redGroup : SVGColorGroup.t :=
  circles (mkRGB 200 0 0) ["r1"; "r2"; "r3"]%string.
Definition greenGroup : SVGColorGroup.t :=
  circles (mkRGB 0 200 0) ["g1"]%string.
Definition blueGroup : SVGColorGroup.t :=
  circles (mkRGB 0 0 200) ["b1"; "b2"]%string.

Definition redLayer : ColorGroup := SVG redGroup.
Definition greenLayer : ColorGroup := SVG greenGroup.
Definition blueLayer : ColorGroup := SVG blueGroup.

(** The state [processImage] leaves behind: fresh groups, empty histories,
    nothing selected. *)
Definition freshState (groups : list ColorGroup) : AppState :=
  mkState 20 groups
    (Some (ImageDimensions.mk 100 50 (Some [0; 0; 100; 50]%float)))
    true None [] [] [] [].

Definition sampleState : AppState := freshState [redLayer; greenLayer; blueLayer].

(** Handlers that may leave the model, in sequence. *)
Definition andThen (s : option AppState) (handler : AppState -> option AppState)
    : option AppState :=
  match s with
  | Some s' => handler s'
  | None => None
  end.

(** Delete the last of three layers, drag the first onto the second, undo
    the delete, then select the first and the restored third layer. *)
Definition staleSelectionRun : option AppState :=
  andThen (andThen (andThen (andThen
    (handleDeleteGroup 2 sampleState)
    (handleDrop (Some 0%nat) 1))
    (fun s => Some (handleUndoDelete s)))
    (fun s => Some (handleSelectGroup 0 s)))
    (fun s => Some (handleSelectGroup 2 s)).

(** ** Delete and its undo *)

Lemma handleDeleteGroup_at s before g after :
  colorGroups s = before ++ g :: after ->
  handleDeleteGroup (List.length before) s =
  Some (withGroups s (before ++ after)
          (deletedGroups s ++ [mkDeleted g (List.length before)])
          (reorderHistory s) [] (mergeHistory s)).
Proof.
  intros E. unfold handleDeleteGroup.
  rewrite E, nth_error_middle, filter_index_one. reflexivity.
Qed.

(** C7.  For every state and every valid index [i], [delete(i)] followed at
    once by [undoDelete()] gives back the group list as it was, in content
    and order (and the delete-undo stack as it was). *)
Theorem undoDelete_restores (s : AppState) (i : nat) :
  (i < List.length (colorGroups s))%nat ->
  exists s1,
    handleDeleteGroup i s = Some s1 /\
    colorGroups (handleUndoDelete s1) = colorGroups s /\
    deletedGroups (handleUndoDelete s1) = deletedGroups s.
Proof.
  intros Hi.
  destruct (nth_error (colorGroups s) i) as [g|] eqn:Hg.
  2:{ apply nth_error_None in Hg. lia. }
  apply nth_error_split in Hg as (before & after & E & <-).
  eexists. split; [exact (handleDeleteGroup_at s before g after E)|].
  unfold handleUndoDelete. cbn [deletedGroups withGroups].
  rewrite pop_push. cbn [originalIndex group colorGroups withGroups deletedGroups].
  rewrite length_app, Nat.min_l by lia.
  rewrite splice_insert_at. now rewrite E.
Qed.

Lemma undoDelete_restores_witness :
  exists s1,
    handleDeleteGroup 1 sampleState = Some s1 /\
    colorGroups (handleUndoDelete s1) = [redLayer; greenLayer; blueLayer] /\
    deletedGroups (handleUndoDelete s1) = [].
Proof.
  exact (undoDelete_restores sampleState 1 ltac:(cbn; lia)).
Defined.

(** ** Undo and the selection *)

(** C10.  [undoDelete()], [undoReorder()] and [undoMerge()] leave the
    selection as it is, although they change the group list; so an index
    selected before an undo is still selected after it and may then name
    another group or none.  In [staleSelectionRun] the indices 0 and 2 are
    selected while the list is green, red, blue; after [undoReorder()] the
    list is red, green, and both indices are still selected. *)
Theorem undo_keeps_selection :
  (forall s,
     selectedGroupIndices (handleUndoDelete s) = selectedGroupIndices s /\
     selectedGroupIndices (handleUndoReorder s) = selectedGroupIndices s /\
     selectedGroupIndices (handleUndoMerge s) = selectedGroupIndices s) /\
  (exists s,
     staleSelectionRun = Some s /\
     selectedGroupIndices s = [0; 2]%nat /\
     selectedGroupIndices (handleUndoReorder s) = [0; 2]%nat /\
     colorGroups s = [greenLayer; redLayer; blueLayer] /\
     colorGroups (handleUndoReorder s) = [redLayer; greenLayer] /\
     nth_error (colorGroups s) 0 = Some greenLayer /\
     nth_error (colorGroups (handleUndoReorder s)) 0 = Some redLayer /\
     nth_error (colorGroups s) 2 = Some blueLayer /\
     nth_error (colorGroups (handleUndoReorder s)) 2 = None).
Proof.
  split.
  - intros s. unfold handleUndoDelete, handleUndoReorder, handleUndoMerge.
    destruct (JS.pop (deletedGroups s)) as [[? ?]|];
    destruct (JS.pop (reorderHistory s)) as [[? ?]|];
    destruct (JS.pop (mergeHistory s)) as [[? ?]|];
    repeat split; reflexivity.
  - eexists. split; [vm_compute; reflexivity|].
    repeat split; vm_compute; reflexivity.
Qed.

(** ** Merging two groups *)

Lemma handleMergeGroups_pair s before between after gx gy first second merged :
  isSvgSource s = true ->
  colorGroups s = before ++ SVG gx :: between ++ SVG gy :: after ->
  (selectedGroupIndices s =
     [List.length before; (List.length before + 1 + List.length between)%nat] /\
   first = gx /\ second = gy) \/
  (selectedGroupIndices s =
     [(List.length before + 1 + List.length between)%nat; List.length before] /\
   first = gy /\ second = gx) ->
  mergeSVG [first; second] = Some merged ->
  handleMergeGroups s =
  Some (withGroups s (before ++ merged :: between ++ after) [] [] []
          (mergeHistory s ++ [colorGroups s])).
Proof.
  intros Hsvg E Hsel Hmerge.
  assert (Hx : nth_error (colorGroups s) (List.length before) = Some (SVG gx)).
  { rewrite E. apply nth_error_middle. }
  assert (Hy : nth_error (colorGroups s)
                 (List.length before + 1 + List.length between) = Some (SVG gy)).
  { rewrite E.
    replace (before ++ SVG gx :: between ++ SVG gy :: after)
      with ((before ++ SVG gx :: between) ++ SVG gy :: after)
      by (now rewrite <- app_assoc).
    replace (List.length before + 1 + List.length between)%nat
      with (List.length (before ++ SVG gx :: between))
      by (rewrite length_app; cbn; lia).
    apply nth_error_middle. }
  assert (Hfilter :
    JS.filter_index
      (fun index => negb (existsb (Nat.eqb index) (selectedGroupIndices s)))
      0 (colorGroups s) = before ++ between ++ after).
  { rewrite E. apply filter_index_two.
    intros k. destruct Hsel as [(-> & _)|(-> & _)]; cbn;
      rewrite !orb_true_iff, !Nat.eqb_eq; intuition (try discriminate; lia). }
  assert (Hmin : JS.min_list (selectedGroupIndices s) = List.length before).
  { destruct Hsel as [(-> & _)|(-> & _)]; cbn; lia. }
  unfold handleMergeGroups. rewrite Hsvg.
  destruct Hsel as [(Hs & -> & ->)|(Hs & -> & ->)];
    rewrite Hs in Hfilter, Hmin |- *;
    cbn [List.length Nat.ltb Nat.leb lookupAll]; rewrite Hx, Hy;
    cbn [asSVG]; rewrite Hmerge; cbv zeta;
    rewrite Hfilter, Hmin, splice_insert_at; reflexivity.
Qed.

(** The primary group of a 3-shape and a 1-shape group, selected in either
    order. *)
Lemma mergeSVG_three_one g3 g1 :
  List.length (SVGColorGroup.elements g3) = 3%nat ->
  List.length (SVGColorGroup.elements g1) = 1%nat ->
  mergeSVG [g3; g1] =
    Some (SVG (SVGColorGroup.mk (SVGColorGroup.representativeColor g3)
                 (SVGColorGroup.elements g3 ++ SVGColorGroup.elements g1))) /\
  mergeSVG [g1; g3] =
    Some (SVG (SVGColorGroup.mk (SVGColorGroup.representativeColor g3)
                 (SVGColorGroup.elements g1 ++ SVGColorGroup.elements g3))).
Proof.
  intros H3 H1. unfold mergeSVG. cbn [JS.sort JS.insert flat_map].
  rewrite H3, H1, !app_nil_r. cbn. split; reflexivity.
Qed.

(** The facts of C6 for a list cut at the two selected positions. *)
Lemma merged_list_facts (before between after : list ColorGroup)
    (x y merged : ColorGroup) :
  let i := List.length before in
  let j := (List.length before + 1 + List.length between)%nat in
  let l := before ++ x :: between ++ y :: after in
  let l' := before ++ merged :: between ++ after in
  nth_error l' i = Some merged /\
  JS.splice_remove i l' = JS.splice_remove i (JS.splice_remove j l) /\
  (List.length l' + 1 = List.length l)%nat.
Proof.
  cbv zeta. split; [apply nth_error_middle|]. split.
  - rewrite splice_remove_at.
    replace (before ++ x :: between ++ y :: after)
      with ((before ++ x :: between) ++ y :: after)
      by (now rewrite <- app_assoc).
    replace (List.length before + 1 + List.length between)%nat
      with (List.length (before ++ x :: between))
      by (rewrite length_app; cbn; lia).
    rewrite splice_remove_at, <- app_assoc. cbn.
    now rewrite splice_remove_at.
  - rewrite !length_app. cbn. rewrite !length_app. cbn. lia.
Qed.

Ltac merged_facts :=
  repeat split; trivial; try reflexivity;
  try apply Permutation_app_comm;
  try (rewrite length_app; lia).

(** C6.  In a vector decomposition whose groups at indices [i] and [j] hold
    3 shapes and 1 shape, [merge([i,j])] (the two selected in either order)
    yields one merged group, found at position [min(i,j)] of the new list,
    whose representative colour is that of the 3-shape group and whose
    shapes are the 4 shapes of the two groups; the other groups are the old
    ones without positions [i] and [j], in their order. *)
Theorem merge_three_and_one (s : AppState) (i j : nat)
    (gi gj : SVGColorGroup.t) :
  isSvgSource s = true ->
  nth_error (colorGroups s) i = Some (SVG gi) ->
  nth_error (colorGroups s) j = Some (SVG gj) ->
  List.length (SVGColorGroup.elements gi) = 3%nat ->
  List.length (SVGColorGroup.elements gj) = 1%nat ->
  selectedGroupIndices s = [i; j] \/ selectedGroupIndices s = [j; i] ->
  exists s' merged,
    handleMergeGroups s = Some s' /\
    nth_error (colorGroups s') (Nat.min i j) = Some (SVG merged) /\
    SVGColorGroup.representativeColor merged
      = SVGColorGroup.representativeColor gi /\
    Permutation (SVGColorGroup.elements merged)
                (SVGColorGroup.elements gi ++ SVGColorGroup.elements gj) /\
    List.length (SVGColorGroup.elements merged) = 4%nat /\
    JS.splice_remove (Nat.min i j) (colorGroups s')
      = JS.splice_remove (Nat.min i j)
          (JS.splice_remove (Nat.max i j) (colorGroups s)) /\
    (List.length (colorGroups s') + 1 = List.length (colorGroups s))%nat /\
    selectedGroupIndices s' = [] /\
    mergeHistory s' = mergeHistory s ++ [colorGroups s].
Proof.
  intros Hsvg Hi Hj H3 H1 Hsel.
  assert (Hij : i <> j).
  { intros ->. rewrite Hi in Hj. injection Hj as ->. lia. }
  destruct (mergeSVG_three_one gi gj H3 H1) as (M31 & M13).
  destruct (Nat.lt_ge_cases i j) as [Hlt|Hge].
  - destruct (split_two _ _ _ _ _ Hlt Hi Hj)
      as (before & between & after & E & <- & ->).
    rewrite Nat.min_l, Nat.max_r by lia.
    destruct (merged_list_facts before between after (SVG gi) (SVG gj))
      with (merged := SVG (SVGColorGroup.mk (SVGColorGroup.representativeColor gi)
                             (SVGColorGroup.elements gi ++ SVGColorGroup.elements gj)))
      as (F1 & F2 & F3).
    destruct (merged_list_facts before between after (SVG gi) (SVG gj))
      with (merged := SVG (SVGColorGroup.mk (SVGColorGroup.representativeColor gi)
                             (SVGColorGroup.elements gj ++ SVGColorGroup.elements gi)))
      as (F1' & F2' & F3').
    destruct Hsel as [Hs|Hs];
      [ eexists; exists (SVGColorGroup.mk (SVGColorGroup.representativeColor gi)
                           (SVGColorGroup.elements gi ++ SVGColorGroup.elements gj))
      | eexists; exists (SVGColorGroup.mk (SVGColorGroup.representativeColor gi)
                           (SVGColorGroup.elements gj ++ SVGColorGroup.elements gi)) ];
      (split;
       [ eapply handleMergeGroups_pair; eauto
       | cbn [colorGroups withGroups selectedGroupIndices mergeHistory
              SVGColorGroup.representativeColor SVGColorGroup.elements];
         rewrite E; merged_facts ]).
  - assert (Hlt : (j < i)%nat) by lia.
    destruct (split_two _ _ _ _ _ Hlt Hj Hi)
      as (before & between & after & E & <- & ->).
    rewrite Nat.min_r, Nat.max_l by lia.
    destruct (merged_list_facts before between after (SVG gj) (SVG gi))
      with (merged := SVG (SVGColorGroup.mk (SVGColorGroup.representativeColor gi)
                             (SVGColorGroup.elements gi ++ SVGColorGroup.elements gj)))
      as (F1 & F2 & F3).
    destruct (merged_list_facts before between after (SVG gj) (SVG gi))
      with (merged := SVG (SVGColorGroup.mk (SVGColorGroup.representativeColor gi)
                             (SVGColorGroup.elements gj ++ SVGColorGroup.elements gi)))
      as (F1' & F2' & F3').
    destruct Hsel as [Hs|Hs];
      [ eexists; exists (SVGColorGroup.mk (SVGColorGroup.representativeColor gi)
                           (SVGColorGroup.elements gi ++ SVGColorGroup.elements gj))
      | eexists; exists (SVGColorGroup.mk (SVGColorGroup.representativeColor gi)
                           (SVGColorGroup.elements gj ++ SVGColorGroup.elements gi)) ];
      (split;
       [ eapply handleMergeGroups_pair; eauto
       | cbn [colorGroups withGroups selectedGroupIndices mergeHistory
              SVGColorGroup.representativeColor SVGColorGroup.elements];
         rewrite E; merged_facts ]).
Qed.

(** The sample state with the green (1 shape) and then the red (3 shapes)
    layer selected. *)
Definition mergeState : AppState :=
  handleSelectGroup 0 (handleSelectGroup 1 sampleState).

Lemma merge_three_and_one_witness :
  exists s' merged,
    handleMergeGroups mergeState = Some s' /\
    nth_error (colorGroups s') (Nat.min 0 1) = Some (SVG merged) /\
    SVGColorGroup.representativeColor merged = mkRGB 200 0 0 /\
    Permutation (SVGColorGroup.elements merged)
                (SVGColorGroup.elements redGroup
                 ++ SVGColorGroup.elements greenGroup) /\
    List.length (SVGColorGroup.elements merged) = 4%nat /\
    JS.splice_remove (Nat.min 0 1) (colorGroups s')
      = JS.splice_remove (Nat.min 0 1)
          (JS.splice_remove (Nat.max 0 1) (colorGroups mergeState)) /\
    (List.length (colorGroups s') + 1 = List.length (colorGroups mergeState))%nat /\
    selectedGroupIndices s' = [] /\
    mergeHistory s' = mergeHistory mergeState ++ [colorGroups mergeState].
Proof.
  exact (merge_three_and_one mergeState 0 1 redGroup greenGroup
           eq_refl eq_refl eq_refl eq_refl eq_refl (or_intror eq_refl)).
Defined.

End LayerEdits.

(* ================================================================== *)
(** * Path normalisation *)
(* ================================================================== *)

Module PathNormalizer.
Import ColorUtils DOM App.

(** ** Sample inputs *)

Definition numbers (l : list float) : list (option float) := map Some l.

(** [<path d="M10 10" transform="rotate(45)"/>] *)
Definition pointPath : SVGElement :=
  mkElement "path" (Some [mkSegment "M" (numbers [10; 10]%float)])
            [("transform", "rotate(45)")]%string.

(** [pointPath] as [transformSvgElements] renders it for the view box
    [0 0 100 50]. *)
Definition pointPathNormalized : SVGElement :=
  mkElement "path" (Some [mkSegment "M" (numbers [60; 210]%float)]) [].

(** Dimensions without a view box. *)
Definition noViewBox : ImageDimensions.t :=
  ImageDimensions.mk 100 50 None.

(** [<path d="M0 0 A5 5 0 0 1 10 10 5 5 0 0 1 20 20"/>]: an arc command
    that carries two groups of seven arguments. *)
Definition twoArcsPath : SVGElement :=
  mkElement "path"
    (Some [ mkSegment "M" (numbers [0; 0]%float);
            mkSegment "A" (numbers [5; 5; 0; 0; 1; 10; 10;
                                    5; 5; 0; 0; 1; 20; 20]%float) ])
    [].

(** The view box [0 0 600 600], for which scale is 1 and nothing moves. *)
Definition identityViewBox : ImageDimensions.t :=
  ImageDimensions.mk 600 600 (Some [0; 0; 600; 600]%float).

(** ** Where normalisation is skipped *)

Lemma transformSvgElements_parts elements dimensions parts :
  parts = match ImageDimensions.viewBox dimensions with
          | Some parts => parts
          | None => [0%float; 0%float; ImageDimensions.width dimensions;
                     ImageDimensions.height dimensions]
          end ->
  transformSvgElements elements (Some dimensions) =
  if negb (Nat.eqb (List.length parts) 4) || existsb JS.isNaN parts
  then elements
  else
    match parts with
    | [x; y; w; h] =>
        if PrimFloat.leb w 0 || PrimFloat.leb h 0 then elements
        else map (transformElement x y w h
                    (JS.Math_min (targetWidth / w) (targetHeight / h)))
                 elements
    | _ => elements
    end.
Proof. intros ->. reflexivity. Qed.

Lemma existsb_isNaN parts v :
  In v parts -> JS.isNaN v = true -> existsb JS.isNaN parts = true.
Proof.
  intros Hin Hv. apply existsb_exists. eauto.
Qed.

(** C4, refuted as stated: a missing view box does not skip normalisation.
    With no view box and width 100, height 50 the source falls back to the
    box [0 0 100 50]: the point (10,10) of [pointPath] is moved to (60,210)
    and the [transform] attribute is dropped. *)
Lemma missing_viewBox_still_normalizes :
  transformSvgElements [pointPath] (Some noViewBox) = [pointPathNormalized] /\
  pointPathNormalized <> pointPath.
Proof.
  split; [vm_compute; reflexivity|].
  intros H. apply (f_equal attributes) in H. discriminate H.
Qed.

(** C4 (as amended).  Normalisation is skipped, and the shapes are emitted
    unmodified, when there are no dimensions, or when the view box in
    effect is degenerate: not four numbers, or of width <= 0 or height <= 0.
    The view box in effect is the [viewBox] attribute, or [0 0 width height]
    when the attribute is missing (so a missing view box skips
    normalisation only when [width] or [height] is NaN or <= 0; otherwise
    the shapes are normalised to the box [0 0 width height]). *)
Theorem normalization_skipped (elements : list SVGElement) :
  transformSvgElements elements None = elements /\
  (forall width height parts,
     List.length parts <> 4%nat \/ (exists v, In v parts /\ JS.isNaN v = true) ->
     transformSvgElements elements
       (Some (ImageDimensions.mk width height (Some parts))) = elements) /\
  (forall width height x y w h,
     PrimFloat.leb w 0 = true \/ PrimFloat.leb h 0 = true ->
     transformSvgElements elements
       (Some (ImageDimensions.mk width height (Some [x; y; w; h]))) = elements) /\
  (forall width height,
     JS.isNaN width = true \/ JS.isNaN height = true \/
     PrimFloat.leb width 0 = true \/ PrimFloat.leb height 0 = true ->
     transformSvgElements elements
       (Some (ImageDimensions.mk width height None)) = elements) /\
  (forall width height,
     JS.isNaN width = false -> JS.isNaN height = false ->
     PrimFloat.leb width 0 = false -> PrimFloat.leb height 0 = false ->
     transformSvgElements elements
       (Some (ImageDimensions.mk width height None))
     = map (transformElement 0 0 width height
              (JS.Math_min (targetWidth / width) (targetHeight / height)))
           elements).
Proof.
  split; [reflexivity|]. split; [|split; [|split]].
  - intros width height parts H.
    rewrite (transformSvgElements_parts elements
               (ImageDimensions.mk width height (Some parts)) parts eq_refl).
    destruct H as [Hlen|(v & Hin & Hv)].
    + apply Nat.eqb_neq in Hlen. now rewrite Hlen.
    + rewrite (existsb_isNaN _ _ Hin Hv). now rewrite orb_true_r.
  - intros width height x y w h H.
    rewrite (transformSvgElements_parts elements
               (ImageDimensions.mk width height (Some [x; y; w; h]))
               [x; y; w; h] eq_refl).
    destruct (negb _ || existsb _ _); [reflexivity|].
    destruct H as [-> | ->]; [reflexivity|].
    now rewrite orb_true_r.
  - intros width height H.
    rewrite (transformSvgElements_parts elements
               (ImageDimensions.mk width height None)
               [0; 0; width; height]%float eq_refl).
    cbn [List.length Nat.eqb negb orb existsb].
    replace (JS.isNaN 0) with false by reflexivity. cbn [orb].
    destruct H as [-> |[-> |[H|H]]]; cbn [orb]; try reflexivity.
    + now rewrite orb_true_r.
    + destruct (JS.isNaN width || (JS.isNaN height || false)); [reflexivity|].
      now rewrite H.
    + destruct (JS.isNaN width || (JS.isNaN height || false)); [reflexivity|].
      rewrite H. now rewrite orb_true_r.
  - intros width height Hw Hh Lw Lh.
    rewrite (transformSvgElements_parts elements
               (ImageDimensions.mk width height None)
               [0; 0; width; height]%float eq_refl).
    cbn [List.length Nat.eqb negb orb existsb].
    replace (JS.isNaN 0) with false by reflexivity.
    now rewrite Hw, Hh, Lw, Lh.
Qed.

Lemma normalization_skipped_witness :
  transformSvgElements [pointPath]
    (Some (ImageDimensions.mk 100 50 (Some [0; 0; 100; 0]%float))) = [pointPath] /\
  transformSvgElements [pointPath]
    (Some (ImageDimensions.mk 0 50 None)) = [pointPath].
Proof.
  split.
  - exact (proj1 (proj2 (proj2 (normalization_skipped [pointPath])))
             100%float 50%float 0%float 0%float 100%float 0%float
             (or_intror eq_refl)).
  - exact (proj1 (proj2 (proj2 (proj2 (normalization_skipped [pointPath]))))
             0%float 50%float (or_intror (or_intror (or_introl eq_refl)))).
Defined.

(** ** Elliptical arcs *)

(** What the [case 'a'] branch writes, for either letter case: the radii
    scaled, rotation and flags as they are, the end point transformed --
    seven slots, read from the first seven arguments. *)
Lemma arc_arguments x y w h scale command arguments :
  JS.lowerChar command = "a"%char ->
  args (transformSegment x y w h scale (mkSegment command arguments)) =
  let isRelative := Ascii.eqb command "a" in
  [ Some (toNumber (argAt arguments 0) * scale)%float;
    Some (toNumber (argAt arguments 1) * scale)%float;
    argAt arguments 2;
    argAt arguments 3;
    argAt arguments 4;
    Some (transformX x w scale isRelative (toNumber (argAt arguments 5)));
    Some (transformY y h scale isRelative (toNumber (argAt arguments 6))) ].
Proof.
  intros Ha. unfold transformSegment. cbn [DOM.command DOM.args].
  rewrite Ha. reflexivity.
Qed.

(** Every argument after the seventh is lost. *)
Lemma arc_keeps_seven x y w h scale command arguments :
  JS.lowerChar command = "a"%char ->
  List.length (args (transformSegment x y w h scale (mkSegment command arguments)))
  = 7%nat.
Proof.
  intros Ha. now rewrite arc_arguments.
Qed.

(** The pairs of every other command are all transformed: the [default]
    branch loops over the whole argument list. *)
Lemma transformPairs_length x y w h scale isRelative arguments :
  Nat.even (List.length arguments) = true ->
  List.length (transformPairs x y w h scale isRelative arguments)
  = List.length arguments.
Proof.
  revert arguments.
  fix IH 1. intros [|a0 [|a1 rest]]; cbn; intros H.
  - reflexivity.
  - discriminate.
  - now rewrite IH.
Qed.

(** C9, on the input where the source departs from it.  For the path
    [M0 0 A5 5 0 0 1 10 10 5 5 0 0 1 20 20] and the view box [0 0 600 600]
    (scale 1, no translation) the arc command comes out with its first
    group of seven arguments only: the second group, [5 5 0 0 1 20 20], is
    dropped. *)
Theorem arc_second_group_dropped :
  transformSvgElements [twoArcsPath] (Some identityViewBox) =
  [ mkElement "path"
      (Some [ mkSegment "M" (numbers [0; 0]%float);
              mkSegment "A" (numbers [5; 5; 0; 0; 1; 10; 10]%float) ])
      [] ].
Proof. vm_compute. reflexivity. Qed.

End PathNormalizer.

(* ================================================================== *)
(** * Raster reconstruction *)
(* ================================================================== *)

Module Reconstruction.
Import ColorUtils DOM App Arrays ColorMath.

Definition validPixel (p : Pixel) : Prop :=
  validChannel (red p) /\ validChannel (green p) /\
  validChannel (blue p) /\ validChannel (alpha p).

Definition pixelColor (p : Pixel) : RGBColor :=
  mkRGB (red p) (green p) (blue p).

(** ** Best fit *)

(** The distance the loop computes for a group. *)
Definition distanceTo (c : RGBColor) (group : ColorGroup) : float :=
  colorDistance c (representativeColor group).

(** The group at position [j] is at minimum distance from [c] over all
    groups (none is strictly closer), and is the first such group (it is
    strictly closer than every group before it). *)
Definition nearestAt (c : RGBColor) (groups : list ColorGroup)
    (j : nat) (group : ColorGroup) : Prop :=
  nth_error groups j = Some group /\
  (forall k gk, nth_error groups k = Some gk ->
                PrimFloat.ltb (distanceTo c gk) (distanceTo c group) = false) /\
  (forall k gk, (k < j)%nat -> nth_error groups k = Some gk ->
                PrimFloat.ltb (distanceTo c group) (distanceTo c gk) = true).

(** What the loop knows after the groups [seen]. *)
Definition bestSoFar (c : RGBColor) (seen : list ColorGroup)
    (bestGroupIndex : Z) (minDistance : float) : Prop :=
  (seen = [] /\ bestGroupIndex = -1 /\ minDistance = PrimFloat.infinity) \/
  (exists j group,
     bestGroupIndex = Z.of_nat j /\ minDistance = distanceTo c group /\
     nearestAt c seen j group).

Definition validGroups (c : RGBColor) (groups : list ColorGroup) : Prop :=
  Forall (fun group =>
            PrimFloat.ltb (distanceTo c group) PrimFloat.infinity = true) groups.

Lemma bestSoFar_step c seen group bestGroupIndex minDistance :
  PrimFloat.ltb (distanceTo c group) PrimFloat.infinity = true ->
  validGroups c seen ->
  bestSoFar c seen bestGroupIndex minDistance ->
  if PrimFloat.ltb (distanceTo c group) minDistance
  then bestSoFar c (seen ++ [group]) (Z.of_nat (List.length seen))
                 (distanceTo c group)
  else bestSoFar c (seen ++ [group]) bestGroupIndex minDistance.
Proof.
  intros Hfin Hseen [(-> & -> & ->)|(j & best & -> & -> & Hj & Hmin & Hfirst)].
  - rewrite Hfin. right. exists 0%nat, group. cbn.
    repeat split; trivial.
    + intros [|[|k]] gk E; cbn in E; try discriminate.
      injection E as <-. apply FloatOrder.ltb_irrefl.
    + intros k gk Hk. lia.
  - destruct (PrimFloat.ltb (distanceTo c group) (distanceTo c best)) eqn:Hlt.
    + right. exists (List.length seen), group.
      repeat split; trivial.
      * apply nth_error_middle with (after := []).
      * intros k gk E.
        destruct (Nat.lt_ge_cases k (List.length seen)) as [Hk|Hk].
        -- rewrite nth_error_app1 in E by exact Hk.
           destruct (PrimFloat.ltb (distanceTo c gk) (distanceTo c group)) eqn:C;
             [|reflexivity].
           rewrite <- (Hmin k gk E).
           symmetry. eapply FloatOrder.ltb_trans; eauto.
        -- rewrite nth_error_app2 in E by exact Hk.
           destruct (k - List.length seen)%nat as [|[|m]]; cbn in E;
             try discriminate.
           injection E as <-. apply FloatOrder.ltb_irrefl.
      * intros k gk Hk E.
        rewrite nth_error_app1 in E by exact Hk.
        eapply FloatOrder.ltb_nlt_trans; [exact Hlt|exact (Hmin k gk E)|].
        unfold validGroups in Hseen. rewrite Forall_forall in Hseen.
        apply Hseen. eapply nth_error_In; eauto.
    + right. exists j, best.
      assert (Hlen : (j < List.length seen)%nat).
      { apply nth_error_Some. congruence. }
      repeat split; trivial.
      * rewrite nth_error_app1 by exact Hlen. exact Hj.
      * intros k gk E.
        destruct (Nat.lt_ge_cases k (List.length seen)) as [Hk|Hk].
        -- rewrite nth_error_app1 in E by exact Hk. eauto.
        -- rewrite nth_error_app2 in E by exact Hk.
           destruct (k - List.length seen)%nat as [|[|m]]; cbn in E;
             try discriminate.
           injection E as <-. exact Hlt.
      * intros k gk Hk E.
        rewrite nth_error_app1 in E by lia. eauto.
Qed.

Lemma bestFitFrom_bestSoFar c rest :
  forall seen bestGroupIndex minDistance,
    validGroups c seen -> validGroups c rest ->
    bestSoFar c seen bestGroupIndex minDistance ->
    let result :=
      bestFitFrom c rest (Z.of_nat (List.length seen))
                  bestGroupIndex minDistance in
    bestSoFar c (seen ++ rest) (fst result) (snd result).
Proof.
  induction rest as [|group rest IH];
    intros seen bestGroupIndex minDistance Hseen Hrest Hbest; cbn zeta.
  - cbn. now rewrite app_nil_r.
  - inversion Hrest as [|? ? Hgroup Hrest']; subst.
    pose proof (bestSoFar_step c seen group bestGroupIndex minDistance
                  Hgroup Hseen Hbest) as Hstep.
    assert (Hseen' : validGroups c (seen ++ [group])).
    { apply Forall_app. split; [exact Hseen|]. now constructor. }
    cbn [bestFitFrom]. fold (distanceTo c group).
    replace (Z.of_nat (List.length seen) + 1)
      with (Z.of_nat (List.length (seen ++ [group])))
      by (rewrite length_app; cbn; lia).
    replace (seen ++ group :: rest) with ((seen ++ [group]) ++ rest)
      by (now rewrite <- app_assoc).
    destruct (PrimFloat.ltb (distanceTo c group) minDistance).
    + apply (IH _ _ _ Hseen' Hrest' Hstep).
    + apply (IH _ _ _ Hseen' Hrest' Hstep).
Qed.

(** [bestFit] on an empty list finds nothing; on groups of valid colours it
    finds the first group at minimum distance. *)
Lemma bestFit_nearest c groups :
  validGroups c groups ->
  (groups = [] /\ bestFit c groups = (-1, PrimFloat.infinity)) \/
  (exists j group,
     nearestAt c groups j group /\
     bestFit c groups = (Z.of_nat j, distanceTo c group)).
Proof.
  intros Hvalid.
  pose proof (bestFitFrom_bestSoFar c groups [] (-1) PrimFloat.infinity
                (Forall_nil _) Hvalid (or_introl (conj eq_refl (conj eq_refl eq_refl))))
    as H.
  cbn zeta in H. cbn [List.length Z.of_nat app] in H.
  fold (bestFit c groups) in H.
  destruct (bestFit c groups) as [best minD]. cbn [fst snd] in H.
  destruct H as [(-> & -> & ->)|(j & group & -> & -> & Hnear)].
  - now left.
  - right. eauto.
Qed.

Lemma validGroups_of_colors c colorGroups :
  validColor c ->
  Forall (fun group => validColor (representativeColor group)) colorGroups ->
  validGroups c colorGroups.
Proof.
  intros Hc. unfold validGroups. apply Forall_impl.
  intros group Hg. now apply colorDistance_finite.
Qed.

(** ** Sample input *)

Definition grey (v count : Z) : ColorGroup :=
  Raster (RasterColorGroup.mk (mkRGB v v v) [mkRGB v v v] count).

(** Two groups, dark and light, and three pixels: one near the dark group,
    one far from both, one transparent. *)
Definition previewGroups : list ColorGroup := [grey 10 2; grey 200 1].

Definition previewImage : ImageData :=
  mkImageData 3 1
    [mkPixel 12 12 12 255; mkPixel 100 100 100 255; mkPixel 12 12 12 0].

(** ** The claim on reconstruction *)

(** C8.  Raster reconstruction writes, for every source pixel: a transparent
    pixel when its alpha is below 128; otherwise the representative colour
    (opaque) of the group at minimum RGB distance over all groups -- the
    first one, if several are as close -- when that distance is strictly
    below the threshold, and a transparent pixel when it is not, or when
    there is no group.  Distances are those of 8-bit colours; for a
    tolerance in 0..100 "strictly below the threshold" is
    [distance^2 < (2.55 * tolerance)^2], here [400 * d2 < 2601 * t * t], and
    its failure is "at or above the threshold". *)
Theorem reassembledPreview_best_fit
    (colorGroups : list ColorGroup) (image : ImageData) (tolerance : Z)
    (i : nat) (p : Pixel) :
  nth_error (data image) i = Some p ->
  let output := nth_error (reassembledPreview colorGroups image tolerance) i in
  (alpha p < 128 -> output = Some blankPixel) /\
  (128 <= alpha p -> colorGroups = [] -> output = Some blankPixel) /\
  (128 <= alpha p -> colorGroups <> [] ->
   validPixel p ->
   Forall (fun group => validColor (representativeColor group)) colorGroups ->
   exists j group,
     nth_error colorGroups j = Some group /\
     (forall k gk, nth_error colorGroups k = Some gk ->
        squaredDistance (pixelColor p) (representativeColor group)
        <= squaredDistance (pixelColor p) (representativeColor gk)) /\
     (forall k gk, (k < j)%nat -> nth_error colorGroups k = Some gk ->
        squaredDistance (pixelColor p) (representativeColor group)
        < squaredDistance (pixelColor p) (representativeColor gk)) /\
     let distance := distanceTo (pixelColor p) group in
     let threshold := ImageProcessor.maxDist tolerance in
     (PrimFloat.ltb distance threshold = true ->
      output = Some (mkPixel (r (representativeColor group))
                             (g (representativeColor group))
                             (b (representativeColor group)) 255)) /\
     (PrimFloat.ltb distance threshold = false ->
      output = Some blankPixel) /\
     (0 <= tolerance <= 100 ->
      (PrimFloat.ltb distance threshold = true <->
       400 * squaredDistance (pixelColor p) (representativeColor group)
       < 2601 * tolerance * tolerance) /\
      (PrimFloat.ltb distance threshold = false <->
       PrimFloat.leb threshold distance = true))).
Proof.
  intros Hp. cbv zeta.
  unfold reassembledPreview. rewrite nth_error_map, Hp. cbn [option_map].
  unfold previewPixel. fold (pixelColor p).
  split; [|split].
  - intros Ha. apply Z.ltb_lt in Ha. now rewrite Ha.
  - intros Ha ->. destruct (alpha p <? 128); reflexivity.
  - intros Ha Hne (Hr & Hg & Hb & _) Hgroups.
    assert (Hc : validColor (pixelColor p))
      by (unfold validColor, pixelColor; cbn; auto).
    assert (Hlt : (alpha p <? 128) = false) by (apply Z.ltb_ge; lia).
    rewrite Hlt.
    destruct (bestFit_nearest (pixelColor p) colorGroups
                (validGroups_of_colors _ _ Hc Hgroups))
      as [(-> & _)|(j & group & Hnear & ->)]; [now destruct Hne|].
    exists j, group.
    destruct Hnear as (Hj & Hmin & Hfirst).
    assert (Hvalid : forall k gk, nth_error colorGroups k = Some gk ->
                                  validColor (representativeColor gk)).
    { intros k gk E. rewrite Forall_forall in Hgroups.
      apply Hgroups. eapply nth_error_In; eauto. }
    split; [exact Hj|]. split; [|split].
    + intros k gk E. specialize (Hmin k gk E). unfold distanceTo in Hmin.
      rewrite colorDistance_ltb in Hmin by eauto.
      apply Z.ltb_ge in Hmin. exact Hmin.
    + intros k gk Hk E. specialize (Hfirst k gk Hk E). unfold distanceTo in Hfirst.
      rewrite colorDistance_ltb in Hfirst by eauto.
      apply Z.ltb_lt in Hfirst. exact Hfirst.
    + assert (Hidx : (Z.of_nat j =? -1) = false) by (apply Z.eqb_neq; lia).
      rewrite Hidx, Nat2Z.id, Hj. cbn [negb andb].
      split; [|split].
      * now intros ->.
      * now intros ->.
      * intros Ht. split.
        -- unfold distanceTo.
           rewrite colorDistance_below_maxDist by eauto.
           apply Z.ltb_lt.
        -- apply FloatOrder.nlt_iff_leb.
           ++ apply FloatOrder.finite_leb_refl, colorDistance_finite; eauto.
           ++ apply Coarsening.maxDist_monotone; lia.
Qed.

Lemma reassembledPreview_best_fit_witness :
  nth_error (reassembledPreview previewGroups previewImage 20) 2
    = Some blankPixel /\
  exists j group,
    nth_error previewGroups j = Some group /\
    (forall k gk, nth_error previewGroups k = Some gk ->
       squaredDistance (mkRGB 12 12 12) (representativeColor group)
       <= squaredDistance (mkRGB 12 12 12) (representativeColor gk)) /\
    (forall k gk, (k < j)%nat -> nth_error previewGroups k = Some gk ->
       squaredDistance (mkRGB 12 12 12) (representativeColor group)
       < squaredDistance (mkRGB 12 12 12) (representativeColor gk)) /\
    (PrimFloat.ltb (distanceTo (mkRGB 12 12 12) group)
                   (ImageProcessor.maxDist 20) = true ->
     nth_error (reassembledPreview previewGroups previewImage 20) 0
     = Some (mkPixel (r (representativeColor group))
                     (g (representativeColor group))
                     (b (representativeColor group)) 255)) /\
    (PrimFloat.ltb (distanceTo (mkRGB 12 12 12) group)
                   (ImageProcessor.maxDist 20) = false ->
     nth_error (reassembledPreview previewGroups previewImage 20) 0
     = Some blankPixel) /\
    (0 <= 20 <= 100 ->
     (PrimFloat.ltb (distanceTo (mkRGB 12 12 12) group)
                    (ImageProcessor.maxDist 20) = true <->
      400 * squaredDistance (mkRGB 12 12 12) (representativeColor group)
      < 2601 * 20 * 20) /\
     (PrimFloat.ltb (distanceTo (mkRGB 12 12 12) group)
                    (ImageProcessor.maxDist 20) = false <->
      PrimFloat.leb (ImageProcessor.maxDist 20)
                    (distanceTo (mkRGB 12 12 12) group) = true)).
Proof.
  split.
  - exact (proj1 (reassembledPreview_best_fit previewGroups previewImage 20 2
                    (mkPixel 12 12 12 0) eq_refl)
                 ltac:(cbn; lia)).
  - refine (proj2 (proj2 (reassembledPreview_best_fit previewGroups previewImage
                            20 0 (mkPixel 12 12 12 255) eq_refl))
                  _ _ _ _).
    + cbn. lia.
    + discriminate.
    + unfold validPixel, validChannel. cbn. lia.
    + repeat constructor; cbn; lia.
Defined.

End Reconstruction.

(* ================================================================== *)
(** * Further facts: colours *)
(* ================================================================== *)

Module ColorFacts.
Import JS ColorUtils ColorMath ColorParsing.

(** ** Hex strings *)

Lemma hexChar_numeral n :
  0 <= n < 16 -> hexChar n = hexNumeral false (Z.to_nat n).
Proof. reflexivity. Qed.

Lemma hexDigits_small fuel n :
  0 <= n < 16 -> hexDigits (S fuel) n = [hexChar n].
Proof.
  intros H. cbn [hexDigits].
  assert (E : (n <? 16) = true) by (apply Z.ltb_lt; lia).
  now rewrite E.
Qed.

Lemma hexDigits_step fuel q digit :
  1 <= q -> 0 <= digit < 16 ->
  hexDigits (S fuel) (16 * q + digit) = hexDigits fuel q ++ [hexChar digit].
Proof.
  intros Hq Hd. cbn [hexDigits].
  assert (E : (16 * q + digit <? 16) = false) by (apply Z.ltb_ge; lia).
  rewrite E.
  replace ((16 * q + digit) / 16) with q
    by (apply Z.div_unique with digit; lia).
  replace ((16 * q + digit) mod 16) with digit
    by (apply Z.mod_unique with q; lia).
  reflexivity.
Qed.

(** The number [rgbToHex] prints, for 8-bit channels: no shift overflows. *)
Lemma packed_value c :
  validColor c ->
  shiftLeft 1 24 + shiftLeft (r c) 16 + shiftLeft (g c) 8 + b c
  = 16777216 + 65536 * r c + 256 * g c + b c.
Proof.
  intros (Hr & Hg & Hb). unfold validChannel in *.
  assert (S : forall x k, 0 <= x <= 255 -> 0 <= k <= 16 ->
                          shiftLeft x k = x * 2 ^ k).
  { intros x k Hx Hk. unfold shiftLeft, toInt32.
    rewrite (Z.mod_small k 32) by lia.
    rewrite (Z.mod_small (x + 2 ^ 31)) by lia.
    replace (x + 2 ^ 31 - 2 ^ 31) with x by lia.
    assert (0 < 2 ^ k <= 2 ^ 16).
    { split; [apply Z.pow_pos_nonneg; lia|].
      apply Z.pow_le_mono_r; lia. }
    rewrite Z.mod_small by nia. lia. }
  rewrite (S (r c) 16), (S (g c) 8) by lia.
  replace (shiftLeft 1 24) with 16777216 by reflexivity.
  lia.
Qed.

(** The seven hex digits of the packed value. *)
Lemma packed_digits rh rl gh gl bh bl :
  0 <= rh < 16 -> 0 <= rl < 16 -> 0 <= gh < 16 ->
  0 <= gl < 16 -> 0 <= bh < 16 -> 0 <= bl < 16 ->
  toString16 (16777216 + 65536 * (16 * rh + rl) + 256 * (16 * gh + gl)
              + (16 * bh + bl))
  = string_of_list_ascii
      [ "1"%char; hexChar rh; hexChar rl; hexChar gh; hexChar gl;
        hexChar bh; hexChar bl ].
Proof.
  intros Hrh Hrl Hgh Hgl Hbh Hbl.
  set (n := 16777216 + 65536 * (16 * rh + rl) + 256 * (16 * gh + gl)
            + (16 * bh + bl)).
  assert (Hn : 2 ^ 24 <= n < 2 ^ 25) by (unfold n; lia).
  unfold toString16.
  assert (E : (n <? 0) = false) by (apply Z.ltb_ge; lia).
  rewrite E.
  rewrite (Z.log2_unique n 24) by lia.
  f_equal.
  change (S (Z.to_nat 24)) with (25%nat).
  replace n
    with (16 * (16 * (16 * (16 * (16 * (16 * 1 + rh) + rl) + gh) + gl) + bh) + bl)
    by (unfold n; lia).
  rewrite !hexDigits_step by lia.
  rewrite hexDigits_small by lia.
  reflexivity.
Qed.

Lemma rgbToHex_digits rh rl gh gl bh bl :
  0 <= rh < 16 -> 0 <= rl < 16 -> 0 <= gh < 16 ->
  0 <= gl < 16 -> 0 <= bh < 16 -> 0 <= bl < 16 ->
  rgbToHex (mkRGB (16 * rh + rl) (16 * gh + gl) (16 * bh + bl))
  = hashed [hexChar rh; hexChar rl; hexChar gh; hexChar gl;
            hexChar bh; hexChar bl].
Proof.
  intros Hrh Hrl Hgh Hgl Hbh Hbl. unfold rgbToHex.
  rewrite packed_value
    by (unfold validColor, validChannel; cbn [r g b]; lia).
  cbn [r g b]. rewrite packed_digits by assumption.
  reflexivity.
Qed.

Lemma channel_split v :
  validChannel v -> v = 16 * (v / 16) + v mod 16 /\
                    0 <= v / 16 < 16 /\ 0 <= v mod 16 < 16.
Proof.
  unfold validChannel. intros Hv.
  pose proof (Z.div_mod v 16 ltac:(lia)).
  pose proof (Z.mod_pos_bound v 16 ltac:(lia)).
  lia.
Qed.

(** X1.  For every colour with 8-bit channels, [rgbToHex] yields [#] and six
    lower-case hex digits, and [hexToRgb] (so also [parseColorString]) reads
    the colour back from it. *)
Theorem hexToRgb_rgbToHex (c : RGBColor) :
  validColor c ->
  String.length (rgbToHex c) = 7%nat /\
  hexToRgb (rgbToHex c) = Some c /\
  (forall host fuel, parseColorString host (S fuel) (rgbToHex c) = Some c).
Proof.
  intros (Hr & Hg & Hb).
  destruct (channel_split _ Hr) as (Er & Hrh & Hrl).
  destruct (channel_split _ Hg) as (Eg & Hgh & Hgl).
  destruct (channel_split _ Hb) as (Eb & Hbh & Hbl).
  destruct c as [rv gv bv]. cbn [r g b] in *.
  assert (E : rgbToHex (mkRGB rv gv bv)
              = hashed [hexChar (rv / 16); hexChar (rv mod 16);
                        hexChar (gv / 16); hexChar (gv mod 16);
                        hexChar (bv / 16); hexChar (bv mod 16)]).
  { rewrite Er, Eg, Eb at 1. now apply rgbToHex_digits. }
  rewrite E.
  assert (P : forall host fuel,
             parseColorString host (S fuel)
               (hashed [hexChar (rv / 16); hexChar (rv mod 16);
                        hexChar (gv / 16); hexChar (gv mod 16);
                        hexChar (bv / 16); hexChar (bv mod 16)])
             = Some (mkRGB rv gv bv)).
  { intros host fuel. rewrite parseColorString_hashed.
    rewrite !hexChar_numeral by assumption.
    rewrite !hexPair_numeral by lia.
    rewrite !Z2Nat.id by lia.
    now rewrite <- Er, <- Eg, <- Eb. }
  split; [reflexivity|]. split; [|exact P].
  specialize (P blackHost 0%nat). unfold hashed in *.
  now rewrite parseColorString_hash in P.
Qed.

Lemma hexToRgb_rgbToHex_witness :
  String.length (rgbToHex (mkRGB 247 0 255)) = 7%nat /\
  hexToRgb (rgbToHex (mkRGB 247 0 255)) = Some (mkRGB 247 0 255) /\
  (forall host fuel,
     parseColorString host (S fuel) (rgbToHex (mkRGB 247 0 255))
     = Some (mkRGB 247 0 255)).
Proof.
  apply (hexToRgb_rgbToHex (mkRGB 247 0 255)).
  unfold validColor, validChannel. cbn. lia.
Defined.

(** X2.  Reading a six-digit hex colour with [hexToRgb] and printing it
    with [rgbToHex] gives the same digits in lower case. *)
Theorem rgbToHex_hexToRgb u1 n1 u2 n2 u3 n3 u4 n4 u5 n5 u6 n6 :
  (n1 < 16)%nat -> (n2 < 16)%nat -> (n3 < 16)%nat ->
  (n4 < 16)%nat -> (n5 < 16)%nat -> (n6 < 16)%nat ->
  option_map rgbToHex
    (hexToRgb (hashed [hexNumeral u1 n1; hexNumeral u2 n2; hexNumeral u3 n3;
                       hexNumeral u4 n4; hexNumeral u5 n5; hexNumeral u6 n6]))
  = Some (hashed [hexNumeral false n1; hexNumeral false n2;
                  hexNumeral false n3; hexNumeral false n4;
                  hexNumeral false n5; hexNumeral false n6]).
Proof.
  intros H1 H2 H3 H4 H5 H6.
  unfold hashed at 1. rewrite hexToRgb_hash, list_ascii_of_string_of_list_ascii.
  rewrite !hexPair_numeral by assumption. cbn [option_map].
  rewrite rgbToHex_digits by lia.
  rewrite !hexChar_numeral by lia.
  now rewrite !Nat2Z.id.
Qed.

Lemma rgbToHex_hexToRgb_witness :
  option_map rgbToHex (hexToRgb "#F7a0Ff") = Some "#f7a0ff"%string.
Proof.
  exact (rgbToHex_hexToRgb true 15 false 7 false 10 false 0 true 15 false 15
           ltac:(lia) ltac:(lia) ltac:(lia) ltac:(lia) ltac:(lia) ltac:(lia)).
Defined.

(** ** The distance *)

Lemma squaredDistance_sym c1 c2 : squaredDistance c1 c2 = squaredDistance c2 c1.
Proof. unfold squaredDistance. ring. Qed.

Lemma squaredDistance_zero c1 c2 : squaredDistance c1 c2 = 0 <-> c1 = c2.
Proof.
  split.
  - unfold squaredDistance. intros H.
    pose proof (Z.square_nonneg (r c1 - r c2)).
    pose proof (Z.square_nonneg (g c1 - g c2)).
    pose proof (Z.square_nonneg (b c1 - b c2)).
    assert (Hr : (r c1 - r c2) * (r c1 - r c2) = 0) by lia.
    assert (Hg : (g c1 - g c2) * (g c1 - g c2) = 0) by lia.
    assert (Hb : (b c1 - b c2) * (b c1 - b c2) = 0) by lia.
    apply Z.mul_eq_0 in Hr, Hg, Hb.
    destruct c1, c2. cbn [r g b] in *. f_equal; lia.
  - intros ->. unfold squaredDistance. ring.
Qed.

Lemma colorDistance_self c : colorDistance c c = 0%float.
Proof.
  rewrite colorDistance_root.
  replace (squaredDistance c c) with 0
    by (symmetry; now apply squaredDistance_zero).
  reflexivity.
Qed.

(** X3.  [colorDistance] does not depend on the order of its arguments, and
    the distance of a colour to itself is 0. *)
Theorem colorDistance_symmetric (c1 c2 : RGBColor) :
  colorDistance c1 c2 = colorDistance c2 c1 /\
  colorDistance c1 c1 = 0%float.
Proof.
  rewrite !colorDistance_root. split.
  - now rewrite squaredDistance_sym.
  - apply colorDistance_self.
Qed.

(** X4.  For colours with 8-bit channels the computed distance is 0 only
    between equal colours, and it is below the distance to another colour
    exactly when the squared distance is. *)
Theorem colorDistance_separates (c c1 c2 : RGBColor) :
  validColor c -> validColor c1 -> validColor c2 ->
  (colorDistance c c1 = 0%float <-> c = c1) /\
  (PrimFloat.ltb (colorDistance c c1) (colorDistance c c2) = true <->
   squaredDistance c c1 < squaredDistance c c2).
Proof.
  intros H H1 H2. split.
  - split.
    + intros E. apply squaredDistance_zero.
      pose proof (squaredDistance_range c c1 H H1) as Hrange.
      destruct (Z.eq_dec (squaredDistance c c1) 0) as [Z0|NZ]; [exact Z0|].
      assert (L : PrimFloat.ltb (root 0) (root (squaredDistance c c1)) = true)
        by (apply root_lt; lia).
      rewrite <- colorDistance_root, E in L.
      change (root 0) with 0%float in L.
      now rewrite FloatOrder.ltb_irrefl in L.
    + intros <-. apply colorDistance_self.
  - rewrite colorDistance_ltb by assumption. apply Z.ltb_lt.
Qed.

Lemma colorDistance_separates_witness :
  (colorDistance (mkRGB 10 10 10) (mkRGB 12 12 12) = 0%float <->
   mkRGB 10 10 10 = mkRGB 12 12 12) /\
  (PrimFloat.ltb (colorDistance (mkRGB 10 10 10) (mkRGB 12 12 12))
                 (colorDistance (mkRGB 10 10 10) (mkRGB 200 0 0)) = true <->
   squaredDistance (mkRGB 10 10 10) (mkRGB 12 12 12)
   < squaredDistance (mkRGB 10 10 10) (mkRGB 200 0 0)).
Proof.
  apply colorDistance_separates;
    unfold validColor, validChannel; cbn; lia.
Defined.

(** X5.  For colours with 8-bit channels and a tolerance of the slider
    (0..100), the clustering test [colorDistance(a, b) < tolerance * 2.55],
    as computed in binary64, holds exactly when the true distance is below
    [2.55 * tolerance]: [400 * d2 < 2601 * tolerance^2] for the squared
    distance [d2].  So two equal colours pass the test at every tolerance
    except 0, and no two colours pass it at tolerance 0. *)
Theorem threshold_test_exact (tolerance : Z) (c1 c2 : RGBColor) :
  0 <= tolerance <= 100 -> validColor c1 -> validColor c2 ->
  (PrimFloat.ltb (colorDistance c1 c2) (ImageProcessor.maxDist tolerance) = true
   <-> 400 * squaredDistance c1 c2 < 2601 * tolerance * tolerance) /\
  (PrimFloat.ltb (colorDistance c1 c1) (ImageProcessor.maxDist tolerance) = true
   <-> 1 <= tolerance) /\
  (tolerance = 0 ->
   PrimFloat.ltb (colorDistance c1 c2) (ImageProcessor.maxDist tolerance) = false).
Proof.
  intros Ht H1 H2.
  pose proof (squaredDistance_range c1 c2 H1 H2) as Hrange.
  split; [|split].
  - rewrite colorDistance_below_maxDist by assumption. apply Z.ltb_lt.
  - rewrite colorDistance_below_maxDist by assumption.
    replace (squaredDistance c1 c1) with 0
      by (symmetry; now apply squaredDistance_zero).
    rewrite Z.ltb_lt. nia.
  - intros ->. rewrite colorDistance_below_maxDist by (trivial; lia).
    apply Z.ltb_ge. lia.
Qed.

Lemma threshold_test_exact_witness :
  (PrimFloat.ltb (colorDistance (mkRGB 10 10 10) (mkRGB 12 12 12))
                 (ImageProcessor.maxDist 20) = true
   <-> 400 * squaredDistance (mkRGB 10 10 10) (mkRGB 12 12 12) < 2601 * 20 * 20) /\
  (PrimFloat.ltb (colorDistance (mkRGB 10 10 10) (mkRGB 10 10 10))
                 (ImageProcessor.maxDist 20) = true
   <-> 1 <= 20) /\
  (20 = 0 ->
   PrimFloat.ltb (colorDistance (mkRGB 10 10 10) (mkRGB 12 12 12))
                 (ImageProcessor.maxDist 20) = false).
Proof.
  apply threshold_test_exact;
    unfold validColor, validChannel; cbn; lia.
Defined.

End ColorFacts.

(* ================================================================== *)
(** * Further facts: sorting *)
(* ================================================================== *)

Module SortFacts.

Section ByKey.
Context {A : Type} (key : A -> Z).

(** The comparator [(a, b) => key(b) - key(a)]: descending by key. *)
Definition descending (a c : A) : Z := key c - key a.

Definition sortedDescending (l : list A) : Prop :=
  StronglySorted (fun a c => key c <= key a) l.

Lemma insert_In x y l : In y (JS.insert descending x l) <-> y = x \/ In y l.
Proof.
  induction l as [|z l IH]; cbn.
  - intuition.
  - destruct (descending x z <=? 0); cbn; [intuition|].
    rewrite IH. intuition.
Qed.

Lemma insert_sorted x l :
  sortedDescending l -> sortedDescending (JS.insert descending x l).
Proof.
  unfold sortedDescending.
  induction l as [|z l IH]; intros Hl; cbn.
  - constructor; [constructor|constructor].
  - inversion Hl as [|? ? Hl' Hz]; subst.
    unfold descending at 1.
    destruct (Z.leb_spec (key z - key x) 0) as [Hle|Hgt].
    + constructor; [exact Hl|].
      constructor; [lia|].
      rewrite Forall_forall in Hz |- *. intros y Hy.
      specialize (Hz y Hy). lia.
    + constructor; [now apply IH|].
      rewrite Forall_forall in Hz |- *. intros y Hy.
      apply insert_In in Hy as [->|Hy]; [lia|now apply Hz].
Qed.

Lemma sort_sorted l : sortedDescending (JS.sort descending l).
Proof.
  induction l as [|x l IH]; cbn.
  - constructor.
  - now apply insert_sorted.
Qed.

(** A list already in descending order is left as it is. *)
Lemma sort_of_sorted l : sortedDescending l -> JS.sort descending l = l.
Proof.
  unfold sortedDescending.
  induction l as [|x l IH]; intros Hl; cbn; [reflexivity|].
  inversion Hl as [|? ? Hl' Hx]; subst.
  rewrite (IH Hl').
  destruct l as [|y l]; cbn; [reflexivity|].
  inversion Hx as [|? ? Hy _]; subst.
  unfold descending.
  destruct (Z.leb_spec (key y - key x) 0); [reflexivity|lia].
Qed.
End ByKey.

End SortFacts.

(* ================================================================== *)
(** * Further facts: vector clustering *)
(* ================================================================== *)

Module VectorFacts.
Import ColorUtils DOM ImageProcessor ColorMath.

(** The group a shape opens. *)
Definition singleton (path : SVGPathData.t) : SVGColorGroup.t :=
  SVGColorGroup.mk (SVGPathData.color path) [SVGPathData.element path].

(** [l] with some elements left out, the others in their order. *)
Inductive Subsequence {A : Type} : list A -> list A -> Prop :=
| sub_nil : Subsequence [] []
| sub_keep x l l' : Subsequence l l' -> Subsequence (x :: l) (x :: l')
| sub_skip x l l' : Subsequence l l' -> Subsequence l (x :: l').

Lemma Subsequence_nil {A : Type} (l : list A) : Subsequence [] l.
Proof. induction l; constructor; assumption. Qed.

Lemma Subsequence_snoc_skip {A : Type} (l l' : list A) x :
  Subsequence l l' -> Subsequence l (l' ++ [x]).
Proof.
  induction 1; cbn.
  - constructor. constructor.
  - now constructor.
  - now constructor.
Qed.

Lemma Subsequence_snoc_keep {A : Type} (l l' : list A) x :
  Subsequence l l' -> Subsequence (l ++ [x]) (l' ++ [x]).
Proof.
  induction 1; cbn.
  - constructor. constructor.
  - now constructor.
  - now constructor.
Qed.

(** [placePath] either adds the shape to one group, whose colour stays, or
    opens a group at the end after every test has failed. *)
Lemma placePath_cases maxDist path groups :
  (exists before group after,
     groups = before ++ group :: after /\
     PrimFloat.ltb (colorDistance (SVGPathData.color path)
                                  (SVGColorGroup.representativeColor group))
                   maxDist = true /\
     placePath maxDist path groups
     = before
       ++ SVGColorGroup.mk (SVGColorGroup.representativeColor group)
            (SVGColorGroup.elements group ++ [SVGPathData.element path])
       :: after) \/
  (Forall (fun group =>
             PrimFloat.ltb (colorDistance (SVGPathData.color path)
                              (SVGColorGroup.representativeColor group))
                           maxDist = false) groups /\
   placePath maxDist path groups = groups ++ [singleton path]).
Proof.
  induction groups as [|group rest IH]; cbn.
  - right. split; [constructor|reflexivity].
  - destruct (PrimFloat.ltb _ _) eqn:E.
    + left. exists [], group, rest. cbn. auto.
    + destruct IH as [(before & g & after & -> & Hg & ->)|(Hall & ->)].
      * left. exists (group :: before), g, after. cbn. auto.
      * right. split; [now constructor|reflexivity].
Qed.

Lemma ForallOrdPairs_snoc {A : Type} (R : A -> A -> Prop) l c :
  ForallOrdPairs R l -> Forall (fun a => R a c) l ->
  ForallOrdPairs R (l ++ [c]).
Proof.
  induction 1 as [|a l Ha Hl IH]; intros Hc; cbn.
  - constructor; constructor.
  - inversion Hc; subst. constructor.
    + apply Forall_app. split; [exact Ha|]. now constructor.
    + now apply IH.
Qed.

Lemma ForallOrdPairs_nth {A : Type} (R : A -> A -> Prop) l :
  ForallOrdPairs R l ->
  forall i j a c, (i < j)%nat ->
    nth_error l i = Some a -> nth_error l j = Some c -> R a c.
Proof.
  induction 1 as [|x l Hx Hl IH]; intros i j a c Hij Hi Hj.
  - destruct i; discriminate.
  - destruct j as [|j]; [lia|]. cbn in Hj.
    destruct i as [|i]; cbn in Hi.
    + injection Hi as <-. rewrite Forall_forall in Hx.
      apply Hx. eapply nth_error_In; eauto.
    + apply (IH i j); trivial. lia.
Qed.

(** What holds of the groups after the shapes [processed]:
    each group was opened by one of them, whose colour it has and whose
    element is its first; a later group's colour failed the test against
    every earlier group; each group lists its shapes in document order. *)
Definition wellFormed (maxDist : float) (processed : list SVGPathData.t)
    (groups : list SVGColorGroup.t) : Prop :=
  Forall (fun g => exists path,
            In path processed /\
            SVGColorGroup.representativeColor g = SVGPathData.color path /\
            hd_error (SVGColorGroup.elements g)
            = Some (SVGPathData.element path)) groups /\
  ForallOrdPairs (fun c c' => PrimFloat.ltb (colorDistance c' c) maxDist = false)
                 (map SVGColorGroup.representativeColor groups) /\
  Forall (fun g => Subsequence (SVGColorGroup.elements g)
                               (map SVGPathData.element processed)) groups.

Lemma hd_error_snoc {A : Type} (l : list A) x y :
  hd_error l = Some x -> hd_error (l ++ [y]) = Some x.
Proof. destruct l; [discriminate|trivial]. Qed.

Lemma wellFormed_step maxDist processed groups path :
  wellFormed maxDist processed groups ->
  wellFormed maxDist (processed ++ [path]) (placePath maxDist path groups).
Proof.
  intros (Hopen & Hsep & Hord).
  assert (Hopen' : Forall (fun g => exists q,
            In q (processed ++ [path]) /\
            SVGColorGroup.representativeColor g = SVGPathData.color q /\
            hd_error (SVGColorGroup.elements g)
            = Some (SVGPathData.element q)) groups).
  { eapply Forall_impl; [|exact Hopen].
    intros g (q & Hq & ? & ?). exists q. split; [|auto].
    apply in_or_app. now left. }
  assert (Hord' : Forall (fun g => Subsequence (SVGColorGroup.elements g)
                    (map SVGPathData.element (processed ++ [path]))) groups).
  { eapply Forall_impl; [|exact Hord].
    intros g Hg. rewrite map_app. now apply Subsequence_snoc_skip. }
  destruct (placePath_cases maxDist path groups)
    as [(before & g & after & E & Hnear & ->)|(Hfar & ->)].
  - subst groups.
    apply Forall_app in Hopen' as (Ho1 & Ho2).
    apply Forall_app in Hord as (Hs1 & Hs2).
    apply Forall_app in Hord' as (Hs1' & Hs2').
    inversion Ho2 as [|? ? (q & Hq & Hc & Hh) Ho3]; subst.
    inversion Hs2 as [|? ? Hg Hs3]; subst.
    inversion Hs2' as [|? ? _ Hs3']; subst.
    repeat split.
    + apply Forall_app. split; [exact Ho1|].
      constructor; [|exact Ho3].
      exists q. cbn. repeat split; trivial. now apply hd_error_snoc.
    + rewrite map_app in Hsep |- *. exact Hsep.
    + apply Forall_app. split; [exact Hs1'|].
      constructor; [|exact Hs3'].
      cbn. rewrite map_app. now apply Subsequence_snoc_keep.
  - repeat split.
    + apply Forall_app. split; [exact Hopen'|].
      constructor; [|constructor].
      exists path. cbn. repeat split. apply in_or_app. right. now left.
    + rewrite map_app. cbn. apply ForallOrdPairs_snoc; [exact Hsep|].
      rewrite Forall_map. exact Hfar.
    + apply Forall_app. split; [exact Hord'|].
      constructor; [|constructor].
      cbn. rewrite map_app.
      apply (Subsequence_snoc_keep [] _ _ (Subsequence_nil _)).
Qed.

Lemma wellFormed_fold maxDist paths :
  forall processed groups,
    wellFormed maxDist processed groups ->
    wellFormed maxDist (processed ++ paths)
      (fold_left (fun gs path => placePath maxDist path gs) paths groups).
Proof.
  induction paths as [|path paths IH]; intros processed groups H; cbn.
  - now rewrite app_nil_r.
  - replace (processed ++ path :: paths) with ((processed ++ [path]) ++ paths)
      by (now rewrite <- app_assoc).
    apply IH. now apply wellFormed_step.
Qed.

Lemma groupPaths_wellFormed tolerance paths :
  wellFormed (maxDist tolerance) paths (groupPaths tolerance paths).
Proof.
  apply (wellFormed_fold (maxDist tolerance) paths [] []).
  repeat split; constructor.
Qed.

Lemma colorDistance_sym c1 c2 : colorDistance c1 c2 = colorDistance c2 c1.
Proof.
  rewrite !colorDistance_root. f_equal.
  unfold squaredDistance. ring.
Qed.

(** X6.  The groups of vector clustering: every group is non-empty and has
    the colour of its first shape, which is a shape of the input; and the
    representative colours of two different groups never pass the
    clustering test against each other. *)
Theorem groupPaths_representatives (tolerance : Z) (paths : list SVGPathData.t) :
  (forall g, In g (groupPaths tolerance paths) ->
     exists path,
       In path paths /\
       SVGColorGroup.representativeColor g = SVGPathData.color path /\
       hd_error (SVGColorGroup.elements g) = Some (SVGPathData.element path)) /\
  (forall i j gi gj,
     i <> j ->
     nth_error (groupPaths tolerance paths) i = Some gi ->
     nth_error (groupPaths tolerance paths) j = Some gj ->
     PrimFloat.ltb (colorDistance (SVGColorGroup.representativeColor gi)
                                  (SVGColorGroup.representativeColor gj))
                   (maxDist tolerance) = false).
Proof.
  destruct (groupPaths_wellFormed tolerance paths) as (Hopen & Hsep & _).
  split.
  - rewrite Forall_forall in Hopen. exact Hopen.
  - intros i j gi gj Hij Hi Hj.
    assert (Hi' := map_nth_error SVGColorGroup.representativeColor _ _ Hi).
    assert (Hj' := map_nth_error SVGColorGroup.representativeColor _ _ Hj).
    destruct (Nat.lt_ge_cases i j) as [L|L].
    + rewrite colorDistance_sym.
      exact (ForallOrdPairs_nth _ _ Hsep i j _ _ L Hi' Hj').
    + assert (L' : (j < i)%nat) by lia.
      exact (ForallOrdPairs_nth _ _ Hsep j i _ _ L' Hj' Hi').
Qed.

(** X7.  Vector clustering keeps the document order inside every group:
    the shapes of a group are shapes of the input, in the order of the
    input. *)
Theorem groupPaths_document_order (tolerance : Z) (paths : list SVGPathData.t) :
  Forall (fun g => Subsequence (SVGColorGroup.elements g)
                               (map SVGPathData.element paths))
         (groupPaths tolerance paths).
Proof.
  exact (proj2 (proj2 (groupPaths_wellFormed tolerance paths))).
Qed.

(** ** The ends of the tolerance scale *)

Lemma test_fails_at_zero c1 c2 :
  validColor c1 -> validColor c2 ->
  PrimFloat.ltb (colorDistance c1 c2) (maxDist 0) = false.
Proof.
  intros H1 H2. rewrite colorDistance_below_maxDist by (trivial; lia).
  pose proof (squaredDistance_range c1 c2 H1 H2).
  apply Z.ltb_ge. lia.
Qed.

Lemma test_passes_on_equal tolerance c :
  1 <= tolerance <= 100 -> validColor c ->
  PrimFloat.ltb (colorDistance c c) (maxDist tolerance) = true.
Proof.
  intros Ht Hc. rewrite colorDistance_below_maxDist by (trivial; lia).
  replace (squaredDistance c c) with 0 by (unfold squaredDistance; ring).
  apply Z.ltb_lt. nia.
Qed.

Lemma fold_placePath_zero paths :
  forall groups,
    Forall (fun p => validColor (SVGPathData.color p)) paths ->
    Forall (fun g => validColor (SVGColorGroup.representativeColor g)) groups ->
    fold_left (fun gs path => placePath (maxDist 0) path gs) paths groups
    = groups ++ map singleton paths.
Proof.
  induction paths as [|path paths IH]; intros groups Hp Hg;
    cbn [fold_left map].
  - now rewrite app_nil_r.
  - inversion Hp as [|? ? Hpath Hrest]; subst.
    destruct (placePath_cases (maxDist 0) path groups)
      as [(before & g & after & -> & Hnear & _)|(_ & ->)].
    + apply Forall_app in Hg as (_ & Hg).
      inversion Hg; subst.
      rewrite test_fails_at_zero in Hnear by assumption. discriminate.
    + rewrite IH; trivial.
      * now rewrite <- app_assoc.
      * apply Forall_app. split; [exact Hg|].
        constructor; [exact Hpath|constructor].
Qed.

Lemma ForallOrdPairs_NoDup {A : Type} (R : A -> A -> Prop) l :
  (forall a, ~ R a a) -> ForallOrdPairs R l -> NoDup l.
Proof.
  intros Hirr. induction 1 as [|a l Ha Hl IH]; constructor; trivial.
  intros Hin. rewrite Forall_forall in Ha. exact (Hirr a (Ha a Hin)).
Qed.

Lemma groupPaths_valid tolerance paths :
  Forall (fun p => validColor (SVGPathData.color p)) paths ->
  Forall validColor
    (map SVGColorGroup.representativeColor (groupPaths tolerance paths)).
Proof.
  intros Hp. rewrite Forall_map.
  destruct (groupPaths_wellFormed tolerance paths) as (Hopen & _ & _).
  eapply Forall_impl; [|exact Hopen].
  intros g (path & Hin & -> & _).
  rewrite Forall_forall in Hp. now apply Hp.
Qed.

(** X8.  For shapes with 8-bit colours: at tolerance 0 vector clustering
    groups nothing -- every shape, even one with the colour of an earlier
    shape, opens its own group, in document order; at a tolerance from 1 to
    100 no two groups have the same representative colour. *)
Theorem groupPaths_tolerance_ends (tolerance : Z) (paths : list SVGPathData.t) :
  Forall (fun p => validColor (SVGPathData.color p)) paths ->
  (tolerance = 0 -> groupPaths tolerance paths = map singleton paths) /\
  (1 <= tolerance <= 100 ->
   NoDup (map SVGColorGroup.representativeColor (groupPaths tolerance paths))).
Proof.
  intros Hp. split.
  - intros ->. unfold groupPaths.
    now rewrite fold_placePath_zero by (trivial; constructor).
  - intros Ht.
    pose proof (groupPaths_valid tolerance paths Hp) as Hvalid.
    destruct (groupPaths_wellFormed tolerance paths) as (_ & Hsep & _).
    revert Hvalid Hsep.
    generalize (map SVGColorGroup.representativeColor (groupPaths tolerance paths)).
    intros reps Hvalid Hsep.
    induction Hsep as [|c reps Hc Hsep IH]; [constructor|].
    inversion Hvalid as [|? ? Hcv Hrest]; subst.
    constructor; [|now apply IH].
    intros Hin. rewrite Forall_forall in Hc.
    specialize (Hc c Hin).
    rewrite test_passes_on_equal in Hc by assumption. discriminate.
Qed.

(** Three shapes; the first two have the same colour. *)
Definition repeatedColorPaths : list SVGPathData.t :=
  map (fun v => SVGPathData.mk (mkRGB v 0 0) (mkElement "path" None []))
      [7; 7; 9].

Lemma groupPaths_tolerance_ends_witness :
  groupPaths 0 repeatedColorPaths = map singleton repeatedColorPaths /\
  NoDup (map SVGColorGroup.representativeColor
           (groupPaths 20 repeatedColorPaths)).
Proof.
  assert (V : Forall (fun p => validColor (SVGPathData.color p))
                     repeatedColorPaths)
    by (repeat constructor; cbn; lia).
  split.
  - exact (proj1 (groupPaths_tolerance_ends 0 repeatedColorPaths V) eq_refl).
  - exact (proj2 (groupPaths_tolerance_ends 20 repeatedColorPaths V)
                 ltac:(lia)).
Defined.

(** ** [processSVG] *)

Lemma find_assoc_set name value l :
  find (fun nv => (fst nv =? name)%string) (assoc_set name value l)
  = Some (match find (fun nv => (fst nv =? name)%string) l with
          | Some nv => (fst nv, value)
          | None => (name, value)
          end).
Proof.
  induction l as [|[n v] l IH]; cbn.
  - now rewrite String.eqb_refl.
  - destruct (n =? name)%string eqn:E; cbn; rewrite E; [reflexivity|exact IH].
Qed.

Lemma getAttribute_setAttribute name value el :
  getAttribute name (setAttribute name value el) = Some value.
Proof.
  unfold getAttribute, setAttribute. cbn [attributes].
  rewrite find_assoc_set.
  now destruct (find _ (attributes el)).
Qed.

Lemma ingest_element host fuel shape path :
  In path (ingest host fuel shape) ->
  getAttribute "stroke" (SVGPathData.element path) = Some "none"%string /\
  tagName (SVGPathData.element path) = tagName (node shape) /\
  d (SVGPathData.element path) = d (node shape) /\
  parseColorString host fuel (style_fill shape) <> None /\
  PrimFloat.ltb 0 (if JS.isNaN (style_fillOpacity shape) then 1%float
                   else style_fillOpacity shape) = true.
Proof.
  unfold ingest.
  destruct (parseColorString host fuel (style_fill shape)) as [c|] eqn:Hp.
  2:{ cbn. contradiction. }
  destruct (PrimFloat.ltb 0 _) eqn:Ho.
  2:{ destruct (isWhiteColor (Some c)); contradiction. }
  destruct (isWhiteColor (Some c)); intros [<-|[]];
    cbn [SVGPathData.element]; rewrite getAttribute_setAttribute;
    repeat split; congruence.
Qed.

(** X9.  Every shape [processSVG] puts in a group comes from a shape
    element of the document whose computed fill parses to a colour and
    whose fill opacity is above 0 (an unparseable opacity counts as 1); it
    has that element's tag and path data, and its [stroke] attribute is
    [none]. *)
Theorem processSVG_elements
    (host : string -> string) (fuel : nat) (doc : SVGDocument) (tolerance : Z) :
  forall g e,
    In g (fst (processSVG host fuel doc tolerance)) ->
    In e (SVGColorGroup.elements g) ->
    getAttribute "stroke" e = Some "none"%string /\
    exists shape,
      In shape (shapeElements doc) /\
      tagName e = tagName (node shape) /\
      d e = d (node shape) /\
      parseColorString host fuel (style_fill shape) <> None /\
      PrimFloat.ltb 0 (if JS.isNaN (style_fillOpacity shape) then 1%float
                       else style_fillOpacity shape) = true.
Proof.
  intros g e Hg He. cbn [fst processSVG] in Hg.
  assert (Hall : In e (VectorClustering.allElements
                         (groupPaths tolerance (ingestAll host fuel doc)))).
  { apply in_flat_map. eauto. }
  unfold groupPaths in Hall.
  eapply Permutation_in in Hall;
    [|apply VectorClustering.fold_placePath_elements].
  cbn in Hall. apply in_map_iff in Hall as (path & <- & Hpath).
  unfold ingestAll in Hpath.
  apply in_flat_map in Hpath as (shape & Hshape & Hin).
  destruct (ingest_element host fuel shape path Hin) as (? & ? & ? & ? & ?).
  split; [assumption|]. exists shape. auto.
Qed.

Lemma processSVG_elements_witness :
  getAttribute "stroke"
    (setAttribute "stroke" "none" (VectorClustering.rectElement "red"))
  = Some "none"%string /\
  exists shape,
    In shape (shapeElements VectorClustering.sampleDocument) /\
    tagName (setAttribute "stroke" "none" (VectorClustering.rectElement "red"))
    = tagName (node shape) /\
    d (setAttribute "stroke" "none" (VectorClustering.rectElement "red"))
    = d (node shape) /\
    parseColorString ColorParsing.blackHost 1 (style_fill shape) <> None /\
    PrimFloat.ltb 0 (if JS.isNaN (style_fillOpacity shape) then 1%float
                     else style_fillOpacity shape) = true.
Proof.
  apply (processSVG_elements ColorParsing.blackHost 1
           VectorClustering.sampleDocument 20
           (SVGColorGroup.mk (mkRGB 255 0 0)
              [setAttribute "stroke" "none" (VectorClustering.rectElement "red")])).
  - vm_compute. right. left. reflexivity.
  - left. reflexivity.
Defined.

End VectorFacts.

(* ================================================================== *)
(** * Further facts: raster clustering *)
(* ================================================================== *)

Module RasterFacts.
Import ColorUtils DOM ImageProcessor ColorMath SortFacts.

(** A pixel the sampling loop does not skip. *)
Definition isOpaque (p : Pixel) : bool := negb (alpha p <? 128).

(** The pixels the sampling loop visits. *)
Definition sampledPixels (pixels : list Pixel) : list Pixel :=
  sampled (Z.to_nat (sampleRate (Z.of_nat (List.length pixels)))) 0 pixels.

Definition sumTotals (groups : list RasterColorGroup.t) : Z :=
  fold_right Z.add 0 (map RasterColorGroup.totalCount groups).

Definition allMembers (groups : list RasterColorGroup.t) : list RGBColor :=
  flat_map RasterColorGroup.memberColors groups.

(** The group a colour opens. *)
Definition singletonColor (colorData : ColorCount) : RasterColorGroup.t :=
  RasterColorGroup.mk (color colorData) [color colorData] (count colorData).

(** ** Sampling *)

Lemma sampled_nth rate pixels :
  (1 <= rate)%nat ->
  forall skip k,
    nth_error (sampled rate skip pixels) k
    = nth_error pixels (skip + k * rate).
Proof.
  intros Hrate.
  induction pixels as [|p rest IH]; intros skip k.
  - cbn. now destruct k, (skip + _)%nat.
  - destruct skip as [|skip]; cbn [sampled].
    + destruct k as [|k]; [reflexivity|].
      cbn [nth_error]. rewrite IH.
      replace (0 + S k * rate)%nat with (S (rate - 1 + k * rate)) by lia.
      reflexivity.
    + rewrite IH. reflexivity.
Qed.

Lemma sampled_Forall (P : Pixel -> Prop) rate pixels :
  Forall P pixels -> forall skip, Forall P (sampled rate skip pixels).
Proof.
  induction 1 as [|p rest Hp Hrest IH]; intros skip; cbn.
  - constructor.
  - destruct skip; [constructor; auto|auto].
Qed.

Lemma sampleRate_positive n : (1 <= Z.to_nat (sampleRate n))%nat.
Proof. unfold sampleRate. lia. Qed.

(** X10.  The sampling loop of [processRaster] visits the first pixel and
    then every [sampleRate]-th one: its [k]-th visit is the pixel at
    position [k * sampleRate], and [sampleRate] is at least 1. *)
Theorem sampledPixels_stride (pixels : list Pixel) (k : nat) :
  let rate := Z.to_nat (sampleRate (Z.of_nat (List.length pixels))) in
  (1 <= rate)%nat /\
  nth_error (sampledPixels pixels) k = nth_error pixels (k * rate).
Proof.
  cbv zeta. split; [apply sampleRate_positive|].
  unfold sampledPixels.
  now rewrite sampled_nth by apply sampleRate_positive.
Qed.

(** ** The frequency table *)

Lemma RGBColor_eqb_eq c1 c2 : RGBColor_eqb c1 c2 = true <-> c1 = c2.
Proof.
  unfold RGBColor_eqb. rewrite !andb_true_iff, !Z.eqb_eq.
  destruct c1, c2; cbn. split.
  - intros ((-> & ->) & ->). reflexivity.
  - intros E. injection E as -> -> ->. auto.
Qed.

Lemma countColor_sum c colorMap :
  Coarsening.sumCounts (countColor c colorMap)
  = Coarsening.sumCounts colorMap + 1.
Proof.
  unfold Coarsening.sumCounts.
  induction colorMap as [|e rest IH]; cbn; [reflexivity|].
  destruct (RGBColor_eqb (color e) c); cbn; lia.
Qed.

Lemma countColor_colors c colorMap :
  map color (countColor c colorMap)
  = if existsb (fun e => RGBColor_eqb (color e) c) colorMap
    then map color colorMap
    else map color colorMap ++ [c].
Proof.
  induction colorMap as [|e rest IH]; cbn; [reflexivity|].
  destruct (RGBColor_eqb (color e) c) eqn:E; cbn; [reflexivity|].
  rewrite IH. now destruct (existsb _ rest).
Qed.

Lemma countColor_NoDup c colorMap :
  NoDup (map color colorMap) -> NoDup (map color (countColor c colorMap)).
Proof.
  intros ND. rewrite countColor_colors.
  destruct (existsb _ colorMap) eqn:E; [exact ND|].
  apply NoDup_app; [exact ND|repeat constructor; intros []|].
  intros a Ha [<-|[]].
  apply in_map_iff in Ha as (e & Hc & He).
  assert (existsb (fun e => RGBColor_eqb (color e) c) colorMap = true).
  { apply existsb_exists. exists e. split; [exact He|].
    now apply RGBColor_eqb_eq. }
  congruence.
Qed.

Lemma samplePixel_fold pixels :
  forall colorMap,
    Coarsening.sumCounts (fold_left samplePixel pixels colorMap)
    = Coarsening.sumCounts colorMap
      + Z.of_nat (List.length (filter isOpaque pixels)) /\
    (NoDup (map color colorMap) ->
     NoDup (map color (fold_left samplePixel pixels colorMap))) /\
    (forall c, In c (map color (fold_left samplePixel pixels colorMap)) <->
               In c (map color colorMap) \/
               exists p, In p pixels /\ isOpaque p = true /\
                         c = mkRGB (red p) (green p) (blue p)).
Proof.
  induction pixels as [|p rest IH]; intros colorMap; cbn [fold_left filter].
  - cbn. repeat split; try lia; auto.
    intros [H|(p & [] & _)]. exact H.
  - destruct (IH (samplePixel colorMap p)) as (Hsum & Hnd & Hin).
    unfold samplePixel in *. unfold isOpaque at 1 3.
    destruct (alpha p <? 128) eqn:Ha; cbn [negb].
    + split; [exact Hsum|]. split; [exact Hnd|].
      intros c. rewrite Hin. split.
      * intros [H|(q & Hq & Ho & Hc)]; [now left|right].
        exists q. repeat split; trivial. now right.
      * intros [H|(q & [<-|Hq] & Ho & Hc)]; [now left| |right; eauto].
        unfold isOpaque in Ho. rewrite Ha in Ho. discriminate.
    + split; [|split].
      * rewrite Hsum, countColor_sum. cbn [List.length]. lia.
      * intros ND. now apply Hnd, countColor_NoDup.
      * intros c. rewrite Hin, countColor_colors.
        destruct (existsb _ colorMap) eqn:E.
        -- split.
           ++ intros [H|(q & Hq & Ho & Hc)]; [now left|right].
              exists q. repeat split; trivial. now right.
           ++ intros [H|(q & [<-|Hq] & Ho & Hc)];
                [now left| |right; eauto].
              left. subst c.
              apply existsb_exists in E as (e & He & Ee).
              apply RGBColor_eqb_eq in Ee. rewrite <- Ee.
              now apply in_map.
        -- rewrite in_app_iff. cbn [In]. split.
           ++ intros [[H|[<-|[]]]|(q & Hq & Ho & Hc)].
              ** now left.
              ** right. exists p. repeat split; [now left|].
                 unfold isOpaque. now rewrite Ha.
              ** right. exists q. repeat split; trivial. now right.
           ++ intros [H|(q & [<-|Hq] & Ho & Hc)].
              ** left. now left.
              ** left. right. left. now symmetry.
              ** right. eauto.
Qed.

(** ** First fit on colours *)

Lemma placeColor_cases maxDist colorData groups :
  (exists before group after,
     groups = before ++ group :: after /\
     PrimFloat.ltb (colorDistance (color colorData)
                                  (RasterColorGroup.representativeColor group))
                   maxDist = true /\
     placeColor maxDist colorData groups
     = before
       ++ RasterColorGroup.mk (RasterColorGroup.representativeColor group)
            (RasterColorGroup.memberColors group ++ [color colorData])
            (RasterColorGroup.totalCount group + count colorData)
       :: after) \/
  (Forall (fun group =>
             PrimFloat.ltb (colorDistance (color colorData)
                              (RasterColorGroup.representativeColor group))
                           maxDist = false) groups /\
   placeColor maxDist colorData groups = groups ++ [singletonColor colorData]).
Proof.
  induction groups as [|group rest IH]; cbn.
  - right. split; [constructor|reflexivity].
  - destruct (PrimFloat.ltb _ _) eqn:E.
    + left. exists [], group, rest. cbn. auto.
    + destruct IH as [(before & g & after & -> & Hg & ->)|(Hall & ->)].
      * left. exists (group :: before), g, after. cbn. auto.
      * right. split; [now constructor|reflexivity].
Qed.

Lemma sumTotals_app l1 l2 : sumTotals (l1 ++ l2) = sumTotals l1 + sumTotals l2.
Proof.
  unfold sumTotals. induction l1 as [|g l1 IH]; cbn; [reflexivity|].
  cbn in IH. lia.
Qed.

Lemma sumTotals_Permutation l1 l2 :
  Permutation l1 l2 -> sumTotals l1 = sumTotals l2.
Proof.
  unfold sumTotals. induction 1; cbn in *; lia.
Qed.

Lemma sumCounts_Permutation l1 l2 :
  Permutation l1 l2 -> Coarsening.sumCounts l1 = Coarsening.sumCounts l2.
Proof.
  unfold Coarsening.sumCounts. induction 1; cbn in *; lia.
Qed.

(** What holds of the groups after first fit: each lists its representative
    colour first and then colours that passed the test against it; a later
    group's colour failed the test against every earlier group; each group
    counts at least one pixel. *)
Definition wellFormed (maxDist : float) (groups : list RasterColorGroup.t) : Prop :=
  Forall (fun g => exists others,
            RasterColorGroup.memberColors g
            = RasterColorGroup.representativeColor g :: others /\
            Forall (fun c =>
                      PrimFloat.ltb
                        (colorDistance c (RasterColorGroup.representativeColor g))
                        maxDist = true) others) groups /\
  ForallOrdPairs (fun c c' => PrimFloat.ltb (colorDistance c' c) maxDist = false)
                 (map RasterColorGroup.representativeColor groups) /\
  Forall (fun g => 1 <= RasterColorGroup.totalCount g) groups.

Lemma placeColor_step maxDist colorData groups :
  1 <= count colorData ->
  wellFormed maxDist groups ->
  wellFormed maxDist (placeColor maxDist colorData groups) /\
  sumTotals (placeColor maxDist colorData groups)
  = sumTotals groups + count colorData /\
  Permutation (allMembers (placeColor maxDist colorData groups))
              (allMembers groups ++ [color colorData]).
Proof.
  intros Hcount (Hshape & Hsep & Hpos).
  destruct (placeColor_cases maxDist colorData groups)
    as [(before & g & after & E & Hnear & ->)|(Hfar & ->)].
  - subst groups.
    apply Forall_app in Hshape as (Hs1 & Hs2).
    apply Forall_app in Hpos as (Hp1 & Hp2).
    inversion Hs2 as [|? ? (others & Hm & Hothers) Hs3]; subst.
    inversion Hp2 as [|? ? Hg Hp3]; subst.
    split; [repeat split|split].
    + apply Forall_app. split; [exact Hs1|].
      constructor; [|exact Hs3].
      exists (others ++ [color colorData]). cbn. rewrite Hm. split; [reflexivity|].
      apply Forall_app. split; [exact Hothers|]. now constructor.
    + rewrite map_app in Hsep |- *. exact Hsep.
    + apply Forall_app. split; [exact Hp1|].
      constructor; [cbn; lia|exact Hp3].
    + rewrite !sumTotals_app. unfold sumTotals. cbn. lia.
    + unfold allMembers. rewrite !flat_map_app. cbn.
      rewrite <- !app_assoc. apply Permutation_app_head.
      apply Permutation_app_head. cbn.
      rewrite <- (app_nil_r (flat_map _ after)) at 1.
      rewrite (Permutation_app_comm (flat_map _ after) [color colorData]).
      cbn. rewrite app_nil_r. apply Permutation_refl.
  - split; [repeat split|split].
    + apply Forall_app. split; [exact Hshape|].
      constructor; [|constructor].
      exists []. cbn. auto.
    + rewrite map_app. cbn.
      apply VectorFacts.ForallOrdPairs_snoc; [exact Hsep|].
      rewrite Forall_map. exact Hfar.
    + apply Forall_app. split; [exact Hpos|].
      constructor; [cbn; lia|constructor].
    + rewrite sumTotals_app. unfold sumTotals. cbn. lia.
    + unfold allMembers. rewrite flat_map_app. cbn. apply Permutation_refl.
Qed.

Lemma groupColors_fold maxDist colors :
  forall groups,
    Forall (fun e => 1 <= count e) colors ->
    wellFormed maxDist groups ->
    let result := fold_left (fun gs c => placeColor maxDist c gs) colors groups in
    wellFormed maxDist result /\
    sumTotals result = sumTotals groups + Coarsening.sumCounts colors /\
    Permutation (allMembers result) (allMembers groups ++ map color colors).
Proof.
  induction colors as [|c colors IH]; intros groups Hc Hw; cbn zeta;
    cbn [fold_left].
  - unfold Coarsening.sumCounts. cbn. rewrite app_nil_r.
    split; [exact Hw|]. split; [lia|reflexivity].
  - inversion Hc as [|? ? Hc1 Hc2]; subst.
    destruct (placeColor_step maxDist c groups Hc1 Hw) as (Hw' & Hsum & Hperm).
    destruct (IH _ Hc2 Hw') as (Hw'' & Hsum' & Hperm').
    split; [exact Hw''|]. split.
    + rewrite Hsum', Hsum. unfold Coarsening.sumCounts. cbn. lia.
    + rewrite Hperm', Hperm. cbn. now rewrite <- app_assoc.
Qed.

(** The colours of the table, most frequent first. *)
Definition sortedColors (image : ImageData) : list ColorCount :=
  sortColors (buildColorMap (data image)).

Lemma sortedColors_Permutation image :
  Permutation (sortedColors image) (buildColorMap (data image)).
Proof. apply Coarsening.sort_Permutation. Qed.

Lemma sortedColors_counted image :
  Forall (fun e => 1 <= count e) (sortedColors image).
Proof.
  eapply Permutation_Forall; [symmetry; apply sortedColors_Permutation|].
  apply Coarsening.buildColorMap_counted.
Qed.

Lemma groupColors_facts image tolerance :
  let groups := groupColors tolerance (sortedColors image) in
  wellFormed (maxDist tolerance) groups /\
  sumTotals groups = Coarsening.sumCounts (sortedColors image) /\
  Permutation (allMembers groups) (map color (sortedColors image)).
Proof.
  apply (groupColors_fold (maxDist tolerance) (sortedColors image) []
           (sortedColors_counted image)).
  repeat split; constructor.
Qed.

Lemma processRaster_Permutation image tolerance :
  Permutation (processRaster image tolerance)
              (groupColors tolerance (sortedColors image)).
Proof. apply Coarsening.sort_Permutation. Qed.

(** X11.  [processRaster] counts every sampled opaque pixel in exactly one
    group: the [totalCount]s add up to the number of sampled pixels with
    alpha >= 128, and every group counts at least one pixel. *)
Theorem processRaster_counts (image : ImageData) (tolerance : Z) :
  sumTotals (processRaster image tolerance)
  = Z.of_nat (List.length (filter isOpaque (sampledPixels (data image)))) /\
  Forall (fun g => 1 <= RasterColorGroup.totalCount g)
         (processRaster image tolerance).
Proof.
  destruct (groupColors_facts image tolerance) as ((_ & _ & Hpos) & Hsum & _).
  split.
  - rewrite (sumTotals_Permutation _ _ (processRaster_Permutation image tolerance)).
    rewrite Hsum.
    rewrite (sumCounts_Permutation _ _ (sortedColors_Permutation image)).
    unfold buildColorMap.
    now rewrite (proj1 (samplePixel_fold _ [])).
  - eapply Permutation_Forall;
      [symmetry; apply processRaster_Permutation|exact Hpos].
Qed.

(** X12.  The member colours of the groups of [processRaster] are the
    distinct colours of the sampled opaque pixels, each in exactly one group
    and once. *)
Theorem processRaster_members (image : ImageData) (tolerance : Z) :
  NoDup (allMembers (processRaster image tolerance)) /\
  (forall c,
     In c (allMembers (processRaster image tolerance)) <->
     exists p, In p (sampledPixels (data image)) /\ isOpaque p = true /\
               c = mkRGB (red p) (green p) (blue p)).
Proof.
  destruct (groupColors_facts image tolerance) as (_ & _ & Hperm).
  assert (P : Permutation (allMembers (processRaster image tolerance))
                          (map color (buildColorMap (data image)))).
  { unfold allMembers.
    rewrite (Permutation_flat_map _ (processRaster_Permutation image tolerance)).
    fold (allMembers (groupColors tolerance (sortedColors image))).
    rewrite Hperm. apply Permutation_map, sortedColors_Permutation. }
  destruct (samplePixel_fold (sampledPixels (data image)) [])
    as (_ & Hnd & Hin).
  split.
  - eapply Permutation_NoDup; [symmetry; exact P|].
    apply Hnd. constructor.
  - intros c. split.
    + intros H. eapply Permutation_in in H; [|exact P].
      apply Hin in H as [[]|H]. exact H.
    + intros H. eapply Permutation_in; [symmetry; exact P|].
      apply Hin. now right.
Qed.

(** X13.  [processRaster] returns its groups in descending order of
    [totalCount]. *)
Theorem processRaster_sorted (image : ImageData) (tolerance : Z) :
  StronglySorted
    (fun g g' => RasterColorGroup.totalCount g' <= RasterColorGroup.totalCount g)
    (processRaster image tolerance).
Proof.
  apply (sort_sorted RasterColorGroup.totalCount).
Qed.

(** X14.  In every group of [processRaster] the representative colour is
    the first member colour and every other member passed the clustering
    test against it; and the representative colours of two groups are equal
    or fail the test against each other. *)
Theorem processRaster_groups (image : ImageData) (tolerance : Z) :
  Forall (fun g => exists others,
            RasterColorGroup.memberColors g
            = RasterColorGroup.representativeColor g :: others /\
            Forall (fun c =>
                      PrimFloat.ltb
                        (colorDistance c (RasterColorGroup.representativeColor g))
                        (maxDist tolerance) = true) others)
         (processRaster image tolerance) /\
  (forall g g',
     In g (processRaster image tolerance) ->
     In g' (processRaster image tolerance) ->
     RasterColorGroup.representativeColor g
     = RasterColorGroup.representativeColor g' \/
     PrimFloat.ltb (colorDistance (RasterColorGroup.representativeColor g)
                                  (RasterColorGroup.representativeColor g'))
                   (maxDist tolerance) = false).
Proof.
  destruct (groupColors_facts image tolerance) as ((Hshape & Hsep & _) & _ & _).
  pose proof (processRaster_Permutation image tolerance) as P.
  split.
  - eapply Permutation_Forall; [symmetry; exact P|exact Hshape].
  - intros g g' Hg Hg'.
    eapply Permutation_in in Hg; [|exact P].
    eapply Permutation_in in Hg'; [|exact P].
    apply (in_map RasterColorGroup.representativeColor) in Hg, Hg'.
    destruct (ForallOrdPairs_In Hsep _ _ Hg Hg') as [E|[H|H]].
    + now left.
    + right. now rewrite VectorFacts.colorDistance_sym.
    + right. exact H.
Qed.

Lemma fold_samplePixel_transparent pixels :
  Forall (fun p => alpha p < 128) pixels ->
  forall colorMap, fold_left samplePixel pixels colorMap = colorMap.
Proof.
  induction 1 as [|p rest Hp Hrest IH]; intros colorMap; cbn; [reflexivity|].
  rewrite IH. unfold samplePixel.
  apply Z.ltb_lt in Hp. now rewrite Hp.
Qed.

(** X15.  An image without an opaque pixel -- all alpha below 128, or no
    pixel at all -- yields no group, at any tolerance. *)
Theorem processRaster_transparent (image : ImageData) (tolerance : Z) :
  Forall (fun p => alpha p < 128) (data image) ->
  processRaster image tolerance = [].
Proof.
  intros H. unfold processRaster, buildColorMap.
  rewrite fold_samplePixel_transparent by now apply sampled_Forall.
  reflexivity.
Qed.

Lemma processRaster_transparent_witness :
  processRaster (mkImageData 2 1 [mkPixel 9 9 9 0; mkPixel 255 0 0 127]) 50 = [].
Proof.
  apply processRaster_transparent.
  repeat constructor; cbn; lia.
Defined.

(** ** Tolerance 0 *)

Lemma fold_placeColor_zero colors :
  forall groups,
    Forall (fun e => validColor (color e)) colors ->
    Forall (fun g => validColor (RasterColorGroup.representativeColor g)) groups ->
    fold_left (fun gs c => placeColor (maxDist 0) c gs) colors groups
    = groups ++ map singletonColor colors.
Proof.
  induction colors as [|c colors IH]; intros groups Hc Hg;
    cbn [fold_left map].
  - now rewrite app_nil_r.
  - inversion Hc as [|? ? Hc1 Hc2]; subst.
    destruct (placeColor_cases (maxDist 0) c groups)
      as [(before & g & after & -> & Hnear & _)|(_ & ->)].
    + apply Forall_app in Hg as (_ & Hg).
      inversion Hg; subst.
      rewrite VectorFacts.test_fails_at_zero in Hnear by assumption.
      discriminate.
    + rewrite IH; trivial.
      * now rewrite <- app_assoc.
      * apply Forall_app. split; [exact Hg|].
        constructor; [exact Hc1|constructor].
Qed.

Lemma sortedColors_valid image :
  Forall Reconstruction.validPixel (data image) ->
  Forall (fun e => validColor (color e)) (sortedColors image).
Proof.
  intros Hv.
  eapply Permutation_Forall; [symmetry; apply sortedColors_Permutation|].
  rewrite <- Forall_map. apply Forall_forall. intros c Hc.
  unfold buildColorMap in Hc.
  apply (proj2 (proj2 (samplePixel_fold _ []))) in Hc as [[]|(p & Hp & _ & ->)].
  assert (Hs : Forall Reconstruction.validPixel
                 (sampled (Z.to_nat (sampleRate (Z.of_nat (List.length (data image)))))
                          0 (data image)))
    by now apply sampled_Forall.
  rewrite Forall_forall in Hs. destruct (Hs p Hp) as (? & ? & ? & _).
  unfold validColor. cbn. auto.
Qed.

Lemma sortedDescending_map (l : list ColorCount) :
  sortedDescending count l ->
  sortedDescending RasterColorGroup.totalCount (map singletonColor l).
Proof.
  unfold sortedDescending.
  induction 1 as [|e l Hl IH He]; cbn; constructor; trivial.
  rewrite Forall_map. exact He.
Qed.

(** X16.  At tolerance 0, for pixels with 8-bit channels, [processRaster]
    groups nothing: every distinct sampled colour is a group of its own,
    the groups in the order of the frequency-sorted colours. *)
Theorem processRaster_tolerance_zero (image : ImageData) :
  Forall Reconstruction.validPixel (data image) ->
  processRaster image 0
  = map singletonColor (sortColors (buildColorMap (data image))).
Proof.
  intros Hv. unfold processRaster.
  fold (sortedColors image). unfold groupColors.
  rewrite fold_placeColor_zero
    by (try constructor; now apply sortedColors_valid).
  cbn [app]. unfold sortGroups.
  apply (sort_of_sorted RasterColorGroup.totalCount).
  apply sortedDescending_map.
  apply (sort_sorted count).
Qed.

Lemma processRaster_tolerance_zero_witness :
  processRaster Coarsening.shrinkingImage 0
  = map singletonColor
      (sortColors (buildColorMap (data Coarsening.shrinkingImage))).
Proof.
  apply processRaster_tolerance_zero.
  repeat constructor; cbn; lia.
Defined.

End RasterFacts.

(* ================================================================== *)
(** * Further facts: the layer-edit handlers *)
(* ================================================================== *)

Module LayerFacts.
Import ColorUtils DOM App Arrays.

(** ** Arrays *)

Lemma splice_insert_position {A : Type} (k : nat) (x : A) (l : list A) :
  nth_error (JS.splice_insert k x l) (Nat.min k (List.length l)) = Some x /\
  JS.splice_remove (Nat.min k (List.length l)) (JS.splice_insert k x l) = l /\
  Permutation (JS.splice_insert k x l) (x :: l) /\
  List.length (JS.splice_insert k x l) = S (List.length l).
Proof.
  unfold JS.splice_insert.
  assert (Hlen : List.length (firstn k l) = Nat.min k (List.length l))
    by apply length_firstn.
  rewrite <- Hlen. repeat split.
  - apply nth_error_middle.
  - rewrite splice_remove_at. apply firstn_skipn.
  - rewrite <- Permutation_middle. now rewrite firstn_skipn.
  - pose proof (f_equal (@List.length A) (firstn_skipn k l)) as E.
    rewrite length_app in *. cbn [List.length]. lia.
Qed.


(** ** Reordering *)

(** X17.  Dragging the group at a valid position [from] onto another
    position and then undoing the reorder gives back the group list and the
    reorder-undo stack as they were. *)
Theorem undoReorder_restores (s : AppState) (from dropIndex : nat) :
  from <> dropIndex ->
  (from < List.length (colorGroups s))%nat ->
  exists s1,
    handleDrop (Some from) dropIndex s = Some s1 /\
    colorGroups (handleUndoReorder s1) = colorGroups s /\
    reorderHistory (handleUndoReorder s1) = reorderHistory s /\
    selectedGroupIndices s1 = [].
Proof.
  intros Hne Hlt. unfold handleDrop.
  apply Nat.eqb_neq in Hne. rewrite Hne.
  destruct (nth_error (colorGroups s) from) as [g|] eqn:Hg.
  2:{ apply nth_error_None in Hg. lia. }
  eexists. split; [reflexivity|].
  unfold handleUndoReorder. cbn [reorderHistory withGroups].
  rewrite pop_push. cbn. auto.
Qed.

Lemma undoReorder_restores_witness :
  exists s1,
    handleDrop (Some 0%nat) 2 LayerEdits.sampleState = Some s1 /\
    colorGroups (handleUndoReorder s1) = colorGroups LayerEdits.sampleState /\
    reorderHistory (handleUndoReorder s1)
    = reorderHistory LayerEdits.sampleState /\
    selectedGroupIndices s1 = [].
Proof.
  exact (undoReorder_restores LayerEdits.sampleState 0 2
           ltac:(discriminate) ltac:(cbn; lia)).
Defined.



(** ** Deleting *)

Lemma handleUndoDelete_pushed s groups stack entry selected :
  colorGroups s = groups ->
  deletedGroups s = stack ++ [entry] ->
  selectedGroupIndices s = selected ->
  handleUndoDelete s =
  withGroups s
    (JS.splice_insert (Nat.min (originalIndex entry) (List.length groups))
                      (group entry) groups)
    stack (reorderHistory s) selected (mergeHistory s).
Proof.
  intros <- Hd <-. unfold handleUndoDelete. now rewrite Hd, pop_push.
Qed.

(** X19.  [undoDelete()] with a non-empty delete-undo stack pops the last
    entry and puts its group back at [min(originalIndex, length)]: the list
    grows by that one group, the other groups keep their order, and the
    other undo stacks and the selection stay as they are. *)
Theorem handleUndoDelete_reinserts (s : AppState) (stack : list DeletedGroup)
    (entry : DeletedGroup) :
  deletedGroups s = stack ++ [entry] ->
  let position :=
    Nat.min (originalIndex entry) (List.length (colorGroups s)) in
  let s' := handleUndoDelete s in
  nth_error (colorGroups s') position = Some (group entry) /\
  JS.splice_remove position (colorGroups s') = colorGroups s /\
  List.length (colorGroups s') = S (List.length (colorGroups s)) /\
  deletedGroups s' = stack /\
  reorderHistory s' = reorderHistory s /\
  mergeHistory s' = mergeHistory s /\
  selectedGroupIndices s' = selectedGroupIndices s.
Proof.
  intros Hd. cbv zeta.
  rewrite (handleUndoDelete_pushed s _ stack entry _ eq_refl Hd eq_refl).
  cbn [colorGroups deletedGroups reorderHistory mergeHistory
       selectedGroupIndices withGroups].
  set (k := Nat.min (originalIndex entry) (List.length (colorGroups s))).
  destruct (splice_insert_position k (group entry) (colorGroups s))
    as (Hnth & Hrem & _ & Hlen).
  assert (Hk : Nat.min k (List.length (colorGroups s)) = k) by (unfold k; lia).
  rewrite Hk in Hnth, Hrem.
  repeat split; trivial.
Qed.

Lemma handleUndoDelete_reinserts_witness :
  let s := withGroups LayerEdits.sampleState [LayerEdits.redLayer]
             [mkDeleted LayerEdits.blueLayer 5] [] [] [] in
  let position := Nat.min 5 (List.length (colorGroups s)) in
  let s' := handleUndoDelete s in
  nth_error (colorGroups s') position = Some LayerEdits.blueLayer /\
  JS.splice_remove position (colorGroups s') = colorGroups s /\
  List.length (colorGroups s') = S (List.length (colorGroups s)) /\
  deletedGroups s' = [] /\
  reorderHistory s' = reorderHistory s /\
  mergeHistory s' = mergeHistory s /\
  selectedGroupIndices s' = selectedGroupIndices s.
Proof.
  exact (handleUndoDelete_reinserts
           (withGroups LayerEdits.sampleState [LayerEdits.redLayer]
              [mkDeleted LayerEdits.blueLayer 5] [] [] [])
           [] (mkDeleted LayerEdits.blueLayer 5) eq_refl).
Defined.

(** The state with the selection cleared. *)
Definition deselected (s : AppState) : AppState :=
  withGroups s (colorGroups s) (deletedGroups s) (reorderHistory s) []
             (mergeHistory s).

Lemma undo_of_delete s i s1 :
  handleDeleteGroup i s = Some s1 -> handleUndoDelete s1 = deselected s.
Proof.
  unfold handleDeleteGroup.
  destruct (nth_error (colorGroups s) i) as [g|] eqn:Hg; [|discriminate].
  intros E. injection E as <-.
  apply nth_error_split in Hg as (before & after & El & <-).
  erewrite handleUndoDelete_pushed; [|reflexivity..].
  cbn [originalIndex group withGroups colorGroups reorderHistory mergeHistory
       tolerance dimensions isSvgSource originalImageData].
  unfold deselected, withGroups. f_equal.
  rewrite El, filter_index_one, length_app, Nat.min_l by lia.
  apply splice_insert_at.
Qed.

Lemma delete_deselects s i s1 :
  handleDeleteGroup i s = Some s1 -> deselected s1 = s1.
Proof.
  unfold handleDeleteGroup.
  destruct (nth_error (colorGroups s) i); [|discriminate].
  intros E. now injection E as <-.
Qed.

(** X20.  Deletes are undone last-in first-out: after deleting two groups in
    a row (each at a valid position), two [undoDelete()] give back the
    group list and the delete-undo stack as they were. *)
Theorem two_deletes_two_undos (s : AppState) (i j : nat) :
  (i < List.length (colorGroups s))%nat ->
  (j < List.length (colorGroups s) - 1)%nat ->
  exists s1 s2,
    handleDeleteGroup i s = Some s1 /\
    handleDeleteGroup j s1 = Some s2 /\
    colorGroups (handleUndoDelete (handleUndoDelete s2)) = colorGroups s /\
    deletedGroups (handleUndoDelete (handleUndoDelete s2)) = deletedGroups s.
Proof.
  intros Hi Hj.
  destruct (handleDeleteGroup i s) as [s1|] eqn:E1.
  2:{ unfold handleDeleteGroup in E1.
      destruct (nth_error (colorGroups s) i) eqn:N; [discriminate|].
      apply nth_error_None in N. lia. }
  assert (Hlen : List.length (colorGroups s1) = (List.length (colorGroups s) - 1)%nat).
  { pose proof (undo_of_delete s i s1 E1) as U.
    unfold handleDeleteGroup in E1.
    destruct (nth_error (colorGroups s) i) as [g|] eqn:N; [|discriminate].
    injection E1 as <-. cbn [colorGroups withGroups].
    apply nth_error_split in N as (before & after & El & <-).
    rewrite El, filter_index_one, !length_app. cbn. lia. }
  destruct (handleDeleteGroup j s1) as [s2|] eqn:E2.
  2:{ unfold handleDeleteGroup in E2.
      destruct (nth_error (colorGroups s1) j) eqn:N; [discriminate|].
      apply nth_error_None in N. lia. }
  exists s1, s2. split; [reflexivity|]. split; [exact E2|].
  rewrite (undo_of_delete s1 j s2 E2).
  rewrite (delete_deselects s i s1 E1), (undo_of_delete s i s1 E1).
  split; reflexivity.
Qed.

Lemma two_deletes_two_undos_witness :
  exists s1 s2,
    handleDeleteGroup 0 LayerEdits.sampleState = Some s1 /\
    handleDeleteGroup 1 s1 = Some s2 /\
    colorGroups (handleUndoDelete (handleUndoDelete s2))
    = colorGroups LayerEdits.sampleState /\
    deletedGroups (handleUndoDelete (handleUndoDelete s2))
    = deletedGroups LayerEdits.sampleState.
Proof.
  exact (two_deletes_two_undos LayerEdits.sampleState 0 1
           ltac:(cbn; lia) ltac:(cbn; lia)).
Defined.

(** ** Selecting *)

Lemma removeFirst_In (i k : nat) (l : list nat) :
  NoDup l -> (In k (removeFirst i l) <-> In k l /\ k <> i).
Proof.
  induction l as [|x l IH]; intros Hnd; cbn; [tauto|].
  inversion Hnd as [|? ? Hx Hl]; subst.
  destruct (Nat.eqb_spec x i) as [->|Hne].
  - split.
    + intros Hk. split; [now right|]. intros ->. contradiction.
    + intros [[->|Hk] Hki]; [contradiction|exact Hk].
  - cbn. rewrite (IH Hl). split.
    + intros [->|[Hk Hki]]; auto.
    + intros [[->|Hk] Hki]; auto.
Qed.

Lemma removeFirst_NoDup (i : nat) (l : list nat) :
  NoDup l -> NoDup (removeFirst i l).
Proof.
  induction l as [|x l IH]; intros Hnd; cbn; [constructor|].
  inversion Hnd as [|? ? Hx Hl]; subst.
  destruct (Nat.eqb x i); [exact Hl|].
  constructor; [|now apply IH].
  intros Hin. apply (removeFirst_In i x l Hl) in Hin. tauto.
Qed.

Lemma existsb_eqb_In (i : nat) (l : list nat) :
  existsb (Nat.eqb i) l = true <-> In i l.
Proof.
  rewrite existsb_exists. split.
  - intros (k & Hk & E). apply Nat.eqb_eq in E. now subst.
  - intros Hi. exists i. split; [exact Hi|apply Nat.eqb_refl].
Qed.

(** X21.  Clicking a group's checkbox toggles that index and no other: when
    the selection has no index twice, afterwards it still has none twice,
    the clicked index is selected exactly when it was not before, every
    other index is selected exactly when it was before, and the group list
    and the undo stacks are as they were. *)
Theorem handleSelectGroup_toggles (s : AppState) (indexToToggle : nat) :
  NoDup (selectedGroupIndices s) ->
  let s' := handleSelectGroup indexToToggle s in
  NoDup (selectedGroupIndices s') /\
  (In indexToToggle (selectedGroupIndices s')
   <-> ~ In indexToToggle (selectedGroupIndices s)) /\
  (forall k, k <> indexToToggle ->
     (In k (selectedGroupIndices s') <-> In k (selectedGroupIndices s))) /\
  colorGroups s' = colorGroups s /\
  deletedGroups s' = deletedGroups s /\
  reorderHistory s' = reorderHistory s /\
  mergeHistory s' = mergeHistory s.
Proof.
  intros Hnd. cbv zeta. unfold handleSelectGroup.
  cbn [selectedGroupIndices colorGroups deletedGroups reorderHistory
       mergeHistory withGroups].
  destruct (existsb (Nat.eqb indexToToggle) (selectedGroupIndices s)) eqn:E.
  - apply existsb_eqb_In in E.
    split; [now apply removeFirst_NoDup|].
    split; [|split; [|auto]].
    + rewrite (removeFirst_In _ _ _ Hnd). tauto.
    + intros k Hk. rewrite (removeFirst_In _ _ _ Hnd). tauto.
  - assert (Hnot : ~ In indexToToggle (selectedGroupIndices s)).
    { intros Hin. apply existsb_eqb_In in Hin. congruence. }
    split; [|split; [|split; [|auto]]].
    + apply NoDup_app; [exact Hnd|repeat constructor; intros []|].
      intros k Hk [<-|[]]. contradiction.
    + rewrite in_app_iff. cbn. tauto.
    + intros k Hk. rewrite in_app_iff. cbn. intuition congruence.
Qed.

Lemma handleSelectGroup_toggles_witness :
  let s' := handleSelectGroup 1 LayerEdits.mergeState in
  NoDup (selectedGroupIndices s') /\
  (In 1%nat (selectedGroupIndices s')
   <-> ~ In 1%nat (selectedGroupIndices LayerEdits.mergeState)) /\
  (forall k, k <> 1%nat ->
     (In k (selectedGroupIndices s')
      <-> In k (selectedGroupIndices LayerEdits.mergeState))) /\
  colorGroups s' = colorGroups LayerEdits.mergeState /\
  deletedGroups s' = deletedGroups LayerEdits.mergeState /\
  reorderHistory s' = reorderHistory LayerEdits.mergeState /\
  mergeHistory s' = mergeHistory LayerEdits.mergeState.
Proof.
  apply (handleSelectGroup_toggles LayerEdits.mergeState 1).
  cbn. repeat constructor; cbn; intuition discriminate.
Defined.

(** ** Merging *)

(** The groups [handleMergeGroups] leaves in place. *)
Definition unselected (selected : list nat) (groups : list ColorGroup)
    : list ColorGroup :=
  JS.filter_index (fun index => negb (existsb (Nat.eqb index) selected)) 0 groups.

(** What a group holds, whatever its kind. *)
Definition shapesOf (g : ColorGroup) : list SVGElement :=
  match g with
  | SVG g => SVGColorGroup.elements g
  | Raster _ => []
  end.

Definition membersOf (g : ColorGroup) : list RGBColor :=
  match g with
  | SVG _ => []
  | Raster g => RasterColorGroup.memberColors g
  end.

Definition pixelsOf (g : ColorGroup) : Z :=
  match g with
  | SVG _ => 0
  | Raster g => RasterColorGroup.totalCount g
  end.

Definition totalPixels (groups : list ColorGroup) : Z :=
  fold_right (fun g acc => pixelsOf g + acc) 0 groups.

(** The size [handleMergeGroups] ranks the selected groups by. *)
Definition sizeOf (g : ColorGroup) : Z :=
  match g with
  | SVG g => Z.of_nat (List.length (SVGColorGroup.elements g))
  | Raster g => RasterColorGroup.totalCount g
  end.

Lemma handleMergeGroups_parts s s' :
  (2 <= List.length (selectedGroupIndices s))%nat ->
  handleMergeGroups s = Some s' ->
  exists chosen merged,
    lookupAll (colorGroups s) (selectedGroupIndices s) = Some chosen /\
    (if isSvgSource s
     then exists svgGroups,
            asSVG chosen = Some svgGroups /\ mergeSVG svgGroups = Some merged
     else exists rasterGroups,
            asRaster chosen = Some rasterGroups /\
            mergeRaster rasterGroups = Some merged) /\
    s' = withGroups s
           (JS.splice_insert (JS.min_list (selectedGroupIndices s)) merged
              (unselected (selectedGroupIndices s) (colorGroups s)))
           [] [] [] (mergeHistory s ++ [colorGroups s]).
Proof.
  intros Hlen. unfold handleMergeGroups.
  destruct (Nat.ltb_spec (List.length (selectedGroupIndices s)) 2) as [Hlt|_];
    [lia|].
  destruct (lookupAll (colorGroups s) (selectedGroupIndices s))
    as [chosen|] eqn:El; [|discriminate].
  destruct (isSvgSource s).
  - destruct (asSVG chosen) as [svgGroups|] eqn:Ea; [|discriminate].
    destruct (mergeSVG svgGroups) as [merged|] eqn:Em; [|discriminate].
    intros E. injection E as <-.
    exists chosen, merged. split; [reflexivity|].
    split; [|reflexivity]. exists svgGroups. split; [exact Ea|exact Em].
  - destruct (asRaster chosen) as [rasterGroups|] eqn:Ea; [|discriminate].
    destruct (mergeRaster rasterGroups) as [merged|] eqn:Em; [|discriminate].
    intros E. injection E as <-.
    exists chosen, merged. split; [reflexivity|].
    split; [|reflexivity]. exists rasterGroups. split; [exact Ea|exact Em].
Qed.

(** X22.  A merge of two or more selected groups empties the selection and
    the delete and reorder undo stacks; [undoMerge()] right after it gives
    back the group list and the merge-undo stack as they were, and leaves
    the two emptied stacks empty. *)
Theorem undoMerge_restores (s s' : AppState) :
  (2 <= List.length (selectedGroupIndices s))%nat ->
  handleMergeGroups s = Some s' ->
  colorGroups (handleUndoMerge s') = colorGroups s /\
  mergeHistory (handleUndoMerge s') = mergeHistory s /\
  selectedGroupIndices s' = [] /\
  deletedGroups s' = [] /\ reorderHistory s' = [] /\
  deletedGroups (handleUndoMerge s') = [] /\
  reorderHistory (handleUndoMerge s') = [].
Proof.
  intros Hlen Hm.
  destruct (handleMergeGroups_parts s s' Hlen Hm)
    as (chosen & merged & _ & _ & ->).
  unfold handleUndoMerge. cbn [mergeHistory withGroups].
  rewrite pop_push. cbn. repeat split.
Qed.

(** A state with history, the first two layers selected. *)
Definition editedState : AppState :=
  withGroups LayerEdits.sampleState
    [LayerEdits.redLayer; LayerEdits.greenLayer; LayerEdits.blueLayer]
    [mkDeleted LayerEdits.blueLayer 0]
    [[LayerEdits.greenLayer; LayerEdits.redLayer; LayerEdits.blueLayer]]
    [1; 0]%nat [].

Definition editedStateMerged : AppState :=
  match handleMergeGroups editedState with
  | Some s' => s'
  | None => editedState
  end.

Lemma undoMerge_restores_witness :
  colorGroups (handleUndoMerge editedStateMerged) = colorGroups editedState /\
  mergeHistory (handleUndoMerge editedStateMerged) = mergeHistory editedState /\
  selectedGroupIndices editedStateMerged = [] /\
  deletedGroups editedStateMerged = [] /\
  reorderHistory editedStateMerged = [] /\
  deletedGroups (handleUndoMerge editedStateMerged) = [] /\
  reorderHistory (handleUndoMerge editedStateMerged) = [].
Proof.
  exact (undoMerge_restores editedState editedStateMerged
           ltac:(cbn; lia) eq_refl).
Defined.

(** *** The selected and the other groups make up the list *)

Lemma filter_index_split {A : Type} (keep keep' : nat -> bool) (i : nat)
    (x : A) (l : list A) (start : nat) :
  (start <= i)%nat ->
  nth_error l (i - start) = Some x ->
  keep i = true ->
  (forall k, keep' k = keep k && negb (Nat.eqb k i)) ->
  Permutation (JS.filter_index keep start l)
              (x :: JS.filter_index keep' start l).
Proof.
  intros Hle Hnth Hi Hk. revert start Hle Hnth.
  induction l as [|y l IH]; intros start Hle Hnth.
  - destruct (i - start)%nat; discriminate.
  - cbn [JS.filter_index]. destruct (Nat.eq_dec start i) as [->|Hne].
    + rewrite Nat.sub_diag in Hnth. cbn in Hnth. injection Hnth as ->.
      rewrite Hk, Hi, Nat.eqb_refl. cbn.
      rewrite (filter_index_ext keep' keep); [reflexivity|].
      intros k Hrange. rewrite Hk.
      destruct (Nat.eqb_spec k i); [lia|]. apply andb_true_r.
    + assert (Hnth' : nth_error l (i - S start) = Some x).
      { replace (i - start)%nat with (S (i - S start)) in Hnth by lia.
        exact Hnth. }
      specialize (IH (S start) ltac:(lia) Hnth').
      rewrite Hk. destruct (Nat.eqb_spec start i); [contradiction|].
      rewrite andb_true_r.
      destruct (keep start); [|exact IH].
      rewrite IH. apply perm_swap.
Qed.

Lemma selection_partition (groups : list ColorGroup) (selected : list nat)
    (chosen : list ColorGroup) :
  NoDup selected ->
  lookupAll groups selected = Some chosen ->
  Permutation (chosen ++ unselected selected groups) groups.
Proof.
  unfold unselected. revert chosen.
  induction selected as [|i rest IH]; intros chosen Hnd Hl.
  - cbn in Hl. injection Hl as <-. cbn.
    now rewrite filter_index_all.
  - cbn in Hl. inversion Hnd as [|? ? Hi Hrest]; subst.
    destruct (nth_error groups i) as [g|] eqn:Hg; [|discriminate].
    destruct (lookupAll groups rest) as [gs|]; [|discriminate].
    injection Hl as <-.
    specialize (IH gs Hrest eq_refl).
    rewrite <- IH at 2. cbn [app].
    etransitivity; [apply Permutation_middle|].
    apply Permutation_app_head. symmetry.
    apply (filter_index_split _ _ i g groups 0); [lia| |..].
    + now rewrite Nat.sub_0_r.
    + apply negb_true_iff.
      destruct (existsb (Nat.eqb i) rest) eqn:E; [|reflexivity].
      apply existsb_eqb_In in E. contradiction.
    + intros k. cbn [existsb]. rewrite negb_orb. apply andb_comm.
Qed.

Lemma asSVG_map chosen svgGroups :
  asSVG chosen = Some svgGroups -> chosen = map SVG svgGroups.
Proof.
  revert svgGroups.
  induction chosen as [|[g|g] chosen IH]; intros svgGroups E; cbn in E.
  - now injection E as <-.
  - destruct (asSVG chosen) as [gs|]; [|discriminate].
    injection E as <-. cbn. now rewrite (IH gs eq_refl).
  - discriminate.
Qed.

Lemma asRaster_map chosen rasterGroups :
  asRaster chosen = Some rasterGroups -> chosen = map Raster rasterGroups.
Proof.
  revert rasterGroups.
  induction chosen as [|[g|g] chosen IH]; intros rasterGroups E; cbn in E.
  - now injection E as <-.
  - discriminate.
  - destruct (asRaster chosen) as [gs|]; [|discriminate].
    injection E as <-. cbn. now rewrite (IH gs eq_refl).
Qed.

Lemma mergeSVG_holds svgGroups merged :
  mergeSVG svgGroups = Some merged ->
  shapesOf merged = flat_map shapesOf (map SVG svgGroups) /\
  membersOf merged = [] /\ pixelsOf merged = 0.
Proof.
  unfold mergeSVG.
  destruct (JS.sort _ svgGroups) as [|primaryGroup ?]; [discriminate|].
  intros E. injection E as <-. cbn [shapesOf membersOf pixelsOf].
  cbn [SVGColorGroup.elements].
  split; [|split; reflexivity].
  induction svgGroups as [|g gs IH]; cbn; [reflexivity|now rewrite IH].
Qed.

Lemma fold_left_totalCount rasterGroups start :
  fold_left (fun sum g => sum + RasterColorGroup.totalCount g) rasterGroups start
  = start + totalPixels (map Raster rasterGroups).
Proof.
  revert start.
  induction rasterGroups as [|g gs IH]; intros start; cbn; [lia|].
  rewrite IH. fold (totalPixels (map Raster gs)). lia.
Qed.

Lemma mergeRaster_holds rasterGroups merged :
  mergeRaster rasterGroups = Some merged ->
  shapesOf merged = [] /\
  membersOf merged = flat_map membersOf (map Raster rasterGroups) /\
  pixelsOf merged = totalPixels (map Raster rasterGroups).
Proof.
  unfold mergeRaster.
  destruct (JS.sort _ rasterGroups) as [|primaryGroup ?]; [discriminate|].
  intros E. injection E as <-. cbn [shapesOf membersOf pixelsOf].
  cbn [RasterColorGroup.memberColors RasterColorGroup.totalCount].
  split; [reflexivity|]. split.
  - induction rasterGroups as [|g gs IH]; cbn; [reflexivity|now rewrite IH].
  - now rewrite fold_left_totalCount.
Qed.

Lemma totalPixels_app l1 l2 :
  totalPixels (l1 ++ l2) = totalPixels l1 + totalPixels l2.
Proof.
  induction l1 as [|g l1 IH]; cbn; [reflexivity|].
  fold (totalPixels (l1 ++ l2)) (totalPixels l1). lia.
Qed.

Lemma totalPixels_Permutation l1 l2 :
  Permutation l1 l2 -> totalPixels l1 = totalPixels l2.
Proof.
  induction 1; unfold totalPixels in *; cbn [fold_right]; lia.
Qed.

Lemma flat_map_SVG_members (gs : list SVGColorGroup.t) :
  flat_map membersOf (map SVG gs) = [] /\ totalPixels (map SVG gs) = 0.
Proof.
  induction gs as [|g gs [IH1 IH2]]; cbn; [auto|].
  fold (totalPixels (map SVG gs)). rewrite IH1, IH2. auto.
Qed.

Lemma flat_map_Raster_shapes (gs : list RasterColorGroup.t) :
  flat_map shapesOf (map Raster gs) = [].
Proof.
  induction gs as [|g gs IH]; cbn; [reflexivity|exact IH].
Qed.

(** What a merge holds: the merged list against the old one. *)
Lemma merge_conserves (s s' : AppState) :
  NoDup (selectedGroupIndices s) ->
  (2 <= List.length (selectedGroupIndices s))%nat ->
  handleMergeGroups s = Some s' ->
  Permutation (flat_map shapesOf (colorGroups s'))
              (flat_map shapesOf (colorGroups s)) /\
  Permutation (flat_map membersOf (colorGroups s'))
              (flat_map membersOf (colorGroups s)) /\
  totalPixels (colorGroups s') = totalPixels (colorGroups s) /\
  (List.length (colorGroups s') + List.length (selectedGroupIndices s)
   = S (List.length (colorGroups s)))%nat.
Proof.
  intros Hnd Hlen Hm.
  destruct (handleMergeGroups_parts s s' Hlen Hm)
    as (chosen & merged & Hl & Hmerged & ->).
  cbn [colorGroups withGroups].
  pose proof (selection_partition _ _ _ Hnd Hl) as Hpart.
  set (rest := unselected (selectedGroupIndices s) (colorGroups s)) in *.
  destruct (splice_insert_position (JS.min_list (selectedGroupIndices s))
              merged rest) as (_ & _ & Hperm & Hlength).
  assert (Hheld :
    shapesOf merged = flat_map shapesOf chosen /\
    membersOf merged = flat_map membersOf chosen /\
    pixelsOf merged = totalPixels chosen).
  { destruct (isSvgSource s).
    - destruct Hmerged as (svgGroups & Has & Hmg).
      apply asSVG_map in Has. subst chosen.
      destruct (mergeSVG_holds _ _ Hmg) as (H1 & H2 & H3).
      destruct (flat_map_SVG_members svgGroups) as [H4 H5].
      now rewrite H1, H2, H3, H4, H5.
    - destruct Hmerged as (rasterGroups & Has & Hmg).
      apply asRaster_map in Has. subst chosen.
      destruct (mergeRaster_holds _ _ Hmg) as (H1 & H2 & H3).
      now rewrite H1, H2, H3, flat_map_Raster_shapes. }
  destruct Hheld as (Hshapes & Hmembers & Hpixels).
  assert (Hchosen : List.length chosen = List.length (selectedGroupIndices s)).
  { clear - Hl. revert chosen Hl.
    induction (selectedGroupIndices s) as [|i rest IH]; intros chosen Hl;
      cbn in Hl.
    - now injection Hl as <-.
    - destruct (nth_error (colorGroups s) i); [|discriminate].
      destruct (lookupAll (colorGroups s) rest) as [gs|]; [|discriminate].
      injection Hl as <-. cbn. now rewrite (IH gs eq_refl). }
  repeat split.
  - rewrite (Permutation_flat_map shapesOf Hperm). cbn [flat_map].
    rewrite Hshapes, <- flat_map_app.
    now apply Permutation_flat_map.
  - rewrite (Permutation_flat_map membersOf Hperm). cbn [flat_map].
    rewrite Hmembers, <- flat_map_app.
    now apply Permutation_flat_map.
  - rewrite (totalPixels_Permutation _ _ Hperm). cbn.
    fold (totalPixels rest).
    rewrite Hpixels, <- totalPixels_app.
    now apply totalPixels_Permutation.
  - rewrite Hlength, <- Hchosen.
    apply Permutation_length in Hpart. rewrite length_app in Hpart. lia.
Qed.

(** X23.  A merge loses and adds no shape: when the selection names two or
    more distinct groups, the shapes of all groups after the merge are the
    shapes of all groups before it, and the list is shorter by the number
    of selected groups less one. *)
Theorem merge_keeps_shapes (s s' : AppState) :
  NoDup (selectedGroupIndices s) ->
  (2 <= List.length (selectedGroupIndices s))%nat ->
  handleMergeGroups s = Some s' ->
  Permutation (flat_map shapesOf (colorGroups s'))
              (flat_map shapesOf (colorGroups s)) /\
  (List.length (colorGroups s') + List.length (selectedGroupIndices s)
   = S (List.length (colorGroups s)))%nat.
Proof.
  intros Hnd Hlen Hm.
  destruct (merge_conserves s s' Hnd Hlen Hm) as (H1 & _ & _ & H4).
  now split.
Qed.

Lemma NoDup_one_zero : NoDup [1; 0]%nat.
Proof. repeat constructor; cbn; intuition discriminate. Qed.

Lemma merge_keeps_shapes_witness :
  Permutation (flat_map shapesOf (colorGroups editedStateMerged))
              (flat_map shapesOf (colorGroups editedState)) /\
  (List.length (colorGroups editedStateMerged)
   + List.length (selectedGroupIndices editedState)
   = S (List.length (colorGroups editedState)))%nat.
Proof.
  exact (merge_keeps_shapes editedState editedStateMerged
           NoDup_one_zero ltac:(cbn; lia) eq_refl).
Defined.

(** Three raster layers, the last two selected. *)
Definition rasterState : AppState :=
  mkState 20
    [Raster (RasterColorGroup.mk (mkRGB 10 10 10)
               [mkRGB 10 10 10; mkRGB 12 12 12] 9);
     Raster (RasterColorGroup.mk (mkRGB 200 0 0) [mkRGB 200 0 0] 4);
     Raster (RasterColorGroup.mk (mkRGB 0 0 200)
               [mkRGB 0 0 200; mkRGB 0 0 190] 6)]
    (Some (ImageDimensions.mk 5 4 (Some [0; 0; 5; 4]%float)))
    false None [] [] [1; 2]%nat [].

Definition rasterStateMerged : AppState :=
  match handleMergeGroups rasterState with
  | Some s' => s'
  | None => rasterState
  end.

(** X24.  A merge loses and adds no member colour and no pixel count: when
    the selection names two or more distinct groups, the member colours of
    all groups after the merge are those of all groups before it, and so is
    the sum of the pixel counts. *)
Theorem merge_keeps_pixels (s s' : AppState) :
  NoDup (selectedGroupIndices s) ->
  (2 <= List.length (selectedGroupIndices s))%nat ->
  handleMergeGroups s = Some s' ->
  Permutation (flat_map membersOf (colorGroups s'))
              (flat_map membersOf (colorGroups s)) /\
  totalPixels (colorGroups s') = totalPixels (colorGroups s).
Proof.
  intros Hnd Hlen Hm.
  destruct (merge_conserves s s' Hnd Hlen Hm) as (_ & H2 & H3 & _).
  now split.
Qed.

Lemma NoDup_one_two : NoDup [1; 2]%nat.
Proof. repeat constructor; cbn; intuition discriminate. Qed.

Lemma merge_keeps_pixels_witness :
  Permutation (flat_map membersOf (colorGroups rasterStateMerged))
              (flat_map membersOf (colorGroups rasterState)) /\
  totalPixels (colorGroups rasterStateMerged)
  = totalPixels (colorGroups rasterState).
Proof.
  exact (merge_keeps_pixels rasterState rasterStateMerged
           NoDup_one_two ltac:(cbn; lia) eq_refl).
Defined.

(** *** Where the merged group goes, and its colour *)

Lemma fold_min_spec (l : list nat) (x : nat) :
  let m := fold_left Nat.min l x in
  (m = x \/ In m l) /\ (m <= x)%nat /\ (forall k, In k l -> (m <= k)%nat).
Proof.
  revert x. induction l as [|y l IH]; intros x; cbn.
  - repeat split; auto. intros k [].
  - destruct (IH (Nat.min x y)) as ([E|Hin] & Hle & Hall).
    + repeat split.
      * destruct (Nat.min_spec x y) as [[_ Hm]|[_ Hm]]; rewrite Hm in E;
          [left|right; left]; congruence.
      * lia.
      * intros k [<-|Hk]; [lia|now apply Hall].
    + split; [right; now right|]. split; [lia|].
      intros k [<-|Hk]; [lia|now apply Hall].
Qed.

Lemma min_list_spec (l : list nat) :
  l <> [] ->
  In (JS.min_list l) l /\ (forall k, In k l -> (JS.min_list l <= k)%nat).
Proof.
  destruct l as [|x l]; [congruence|]. intros _.
  unfold JS.min_list.
  destruct (fold_min_spec l x) as ([E|Hin] & Hle & Hall).
  - split; [now left|]. intros k [<-|Hk]; [lia|now apply Hall].
  - split; [now right|]. intros k [<-|Hk]; [lia|now apply Hall].
Qed.

Lemma lookupAll_In groups selected chosen :
  lookupAll groups selected = Some chosen ->
  (forall k, In k selected ->
     exists g, nth_error groups k = Some g /\ In g chosen) /\
  (forall g, In g chosen ->
     exists k, In k selected /\ nth_error groups k = Some g).
Proof.
  revert chosen.
  induction selected as [|i rest IH]; intros chosen E; cbn in E.
  - injection E as <-. split; intros ? [].
  - destruct (nth_error groups i) as [g|] eqn:Hg; [|discriminate].
    destruct (lookupAll groups rest) as [gs|]; [|discriminate].
    injection E as <-. destruct (IH gs eq_refl) as [IH1 IH2]. split.
    + intros k [<-|Hk].
      * exists g. split; [exact Hg|now left].
      * destruct (IH1 k Hk) as (h & Hh & Hin).
        exists h. split; [exact Hh|now right].
    + intros h [<-|Hh].
      * exists i. split; [now left|exact Hg].
      * destruct (IH2 h Hh) as (k & Hk & Hnth).
        exists k. split; [now right|exact Hnth].
Qed.

Lemma filter_index_prefix {A : Type} (keep : nat -> bool) (m : nat)
    (l : list A) (start : nat) :
  (forall k, (start <= k < start + m)%nat -> keep k = true) ->
  (m <= List.length l)%nat ->
  firstn m (JS.filter_index keep start l) = firstn m l /\
  (m <= List.length (JS.filter_index keep start l))%nat.
Proof.
  revert l start.
  induction m as [|m IH]; intros l start Hkeep Hlen.
  - cbn. split; [reflexivity|lia].
  - destruct l as [|x l]; [cbn in Hlen; lia|].
    cbn [JS.filter_index]. rewrite (Hkeep start) by lia.
    destruct (IH l (S start)) as [E Hle].
    + intros k Hk. apply Hkeep. lia.
    + cbn in Hlen. lia.
    + cbn. rewrite E. split; [reflexivity|lia].
Qed.

Lemma merged_place (groups : list ColorGroup) (selected : list nat)
    (chosen : list ColorGroup) (merged : ColorGroup) :
  selected <> [] ->
  lookupAll groups selected = Some chosen ->
  let m := JS.min_list selected in
  let groups' := JS.splice_insert m merged (unselected selected groups) in
  firstn m groups' = firstn m groups /\
  nth_error groups' m = Some merged /\
  JS.splice_remove m groups' = unselected selected groups.
Proof.
  intros Hne Hl. cbv zeta.
  destruct (min_list_spec selected Hne) as [Hin Hmin].
  destruct (lookupAll_In _ _ _ Hl) as [Hvalid _].
  destruct (Hvalid _ Hin) as (g & Hg & _).
  assert (Hm : (JS.min_list selected <= List.length groups)%nat).
  { apply Nat.lt_le_incl, nth_error_Some. congruence. }
  destruct (filter_index_prefix
              (fun index => negb (existsb (Nat.eqb index) selected))
              (JS.min_list selected) groups 0) as [Hprefix Hlen].
  { intros k Hk. apply negb_true_iff.
    destruct (existsb (Nat.eqb k) selected) eqn:E; [|reflexivity].
    apply existsb_eqb_In, Hmin in E. lia. }
  { exact Hm. }
  fold (unselected selected groups) in Hprefix, Hlen.
  destruct (splice_insert_position (JS.min_list selected) merged
              (unselected selected groups)) as (Hnth & Hrem & _ & _).
  rewrite Nat.min_l in Hnth, Hrem by exact Hlen.
  split; [|split; assumption].
  unfold JS.splice_insert. rewrite firstn_app, firstn_firstn, Nat.min_id.
  rewrite length_firstn, Nat.min_l, Nat.sub_diag by exact Hlen.
  cbn [firstn]. now rewrite app_nil_r.
Qed.

(** X25.  The merged group takes the place of the topmost selected group:
    it is at the smallest selected index, the groups above that index are
    as they were, and the groups after it are the unselected ones in their
    old order. *)
Theorem merged_group_position (s s' : AppState) :
  (2 <= List.length (selectedGroupIndices s))%nat ->
  handleMergeGroups s = Some s' ->
  let m := JS.min_list (selectedGroupIndices s) in
  firstn m (colorGroups s') = firstn m (colorGroups s) /\
  (exists merged, nth_error (colorGroups s') m = Some merged) /\
  JS.splice_remove m (colorGroups s')
  = unselected (selectedGroupIndices s) (colorGroups s).
Proof.
  intros Hlen Hm.
  destruct (handleMergeGroups_parts s s' Hlen Hm)
    as (chosen & merged & Hl & _ & ->).
  cbn [colorGroups withGroups].
  assert (Hne : selectedGroupIndices s <> []).
  { intros E. rewrite E in Hlen. cbn in Hlen. lia. }
  destruct (merged_place _ _ _ merged Hne Hl) as (H1 & H2 & H3).
  split; [exact H1|]. split; [now exists merged|exact H3].
Qed.

Lemma merged_group_position_witness :
  let m := JS.min_list (selectedGroupIndices rasterState) in
  firstn m (colorGroups rasterStateMerged)
  = firstn m (colorGroups rasterState) /\
  (exists merged, nth_error (colorGroups rasterStateMerged) m = Some merged) /\
  JS.splice_remove m (colorGroups rasterStateMerged)
  = unselected (selectedGroupIndices rasterState) (colorGroups rasterState).
Proof.
  exact (merged_group_position rasterState rasterStateMerged
           ltac:(cbn; lia) eq_refl).
Defined.

Lemma sort_head {A : Type} (key : A -> Z) (l : list A) (p : A) (rest : list A) :
  JS.sort (SortFacts.descending key) l = p :: rest ->
  In p l /\ (forall h, In h l -> key h <= key p).
Proof.
  intros E.
  pose proof (SortFacts.sort_sorted key l) as Hs.
  pose proof (Coarsening.sort_Permutation (SortFacts.descending key) l) as Hp.
  rewrite E in Hs, Hp. unfold SortFacts.sortedDescending in Hs.
  inversion Hs as [|? ? _ Hall]; subst.
  split.
  - eapply Permutation_in; [exact Hp|now left].
  - intros h Hh.
    apply (Permutation_in _ (Permutation_sym Hp)) in Hh as [<-|Hh]; [lia|].
    rewrite Forall_forall in Hall. now apply Hall.
Qed.

Lemma mergeSVG_primary svgGroups merged :
  mergeSVG svgGroups = Some merged ->
  exists p, In p svgGroups /\
    representativeColor merged = representativeColor (SVG p) /\
    (forall h, In h svgGroups -> sizeOf (SVG h) <= sizeOf (SVG p)).
Proof.
  unfold mergeSVG.
  destruct (JS.sort _ svgGroups) as [|p rest] eqn:E; [discriminate|].
  intros Em. injection Em as <-.
  destruct (sort_head (fun g => sizeOf (SVG g)) svgGroups p rest E) as [H1 H2].
  exists p. repeat split; assumption.
Qed.

Lemma mergeRaster_primary rasterGroups merged :
  mergeRaster rasterGroups = Some merged ->
  exists p, In p rasterGroups /\
    representativeColor merged = representativeColor (Raster p) /\
    (forall h, In h rasterGroups -> sizeOf (Raster h) <= sizeOf (Raster p)).
Proof.
  unfold mergeRaster.
  destruct (JS.sort _ rasterGroups) as [|p rest] eqn:E; [discriminate|].
  intros Em. injection Em as <-.
  destruct (sort_head (fun g => sizeOf (Raster g)) rasterGroups p rest E)
    as [H1 H2].
  exists p. repeat split; assumption.
Qed.

(** X26.  The merged group takes its representative colour from a largest
    selected group: some selected group is at least as large as every
    selected group (by number of shapes for vector groups, by pixel count
    for raster groups) and has the colour of the merged group. *)
Theorem merged_group_colour (s s' : AppState) :
  (2 <= List.length (selectedGroupIndices s))%nat ->
  handleMergeGroups s = Some s' ->
  exists merged k primaryGroup,
    nth_error (colorGroups s') (JS.min_list (selectedGroupIndices s))
    = Some merged /\
    In k (selectedGroupIndices s) /\
    nth_error (colorGroups s) k = Some primaryGroup /\
    representativeColor merged = representativeColor primaryGroup /\
    (forall k' g, In k' (selectedGroupIndices s) ->
       nth_error (colorGroups s) k' = Some g ->
       sizeOf g <= sizeOf primaryGroup).
Proof.
  intros Hlen Hm.
  destruct (handleMergeGroups_parts s s' Hlen Hm)
    as (chosen & merged & Hl & Hmerged & ->).
  cbn [colorGroups withGroups].
  assert (Hne : selectedGroupIndices s <> []).
  { intros E. rewrite E in Hlen. cbn in Hlen. lia. }
  destruct (merged_place _ _ _ merged Hne Hl) as (_ & Hnth & _).
  destruct (lookupAll_In _ _ _ Hl) as [Hsel Hchosen].
  assert (Hprimary : exists p, In p chosen /\
            representativeColor merged = representativeColor p /\
            (forall h, In h chosen -> sizeOf h <= sizeOf p)).
  { destruct (isSvgSource s).
    - destruct Hmerged as (svgGroups & Has & Hmg).
      apply asSVG_map in Has. subst chosen.
      destruct (mergeSVG_primary _ _ Hmg) as (p & Hp & Hc & Hmax).
      exists (SVG p). split; [now apply in_map|]. split; [exact Hc|].
      intros h Hh. apply in_map_iff in Hh as (h' & <- & Hh'). now apply Hmax.
    - destruct Hmerged as (rasterGroups & Has & Hmg).
      apply asRaster_map in Has. subst chosen.
      destruct (mergeRaster_primary _ _ Hmg) as (p & Hp & Hc & Hmax).
      exists (Raster p). split; [now apply in_map|]. split; [exact Hc|].
      intros h Hh. apply in_map_iff in Hh as (h' & <- & Hh'). now apply Hmax. }
  destruct Hprimary as (p & Hp & Hc & Hmax).
  destruct (Hchosen p Hp) as (k & Hk & Hkp).
  exists merged, k, p. repeat split; try assumption.
  intros k' g Hk' Hg.
  destruct (Hsel k' Hk') as (g' & Hg' & Hin).
  rewrite Hg in Hg'. injection Hg' as <-. now apply Hmax.
Qed.

Lemma merged_group_colour_witness :
  exists merged k primaryGroup,
    nth_error (colorGroups rasterStateMerged)
              (JS.min_list (selectedGroupIndices rasterState))
    = Some merged /\
    In k (selectedGroupIndices rasterState) /\
    nth_error (colorGroups rasterState) k = Some primaryGroup /\
    representativeColor merged = representativeColor primaryGroup /\
    (forall k' g, In k' (selectedGroupIndices rasterState) ->
       nth_error (colorGroups rasterState) k' = Some g ->
       sizeOf g <= sizeOf primaryGroup).
Proof.
  exact (merged_group_colour rasterState rasterStateMerged
           ltac:(cbn; lia) eq_refl).
Defined.

End LayerFacts.

(* ================================================================== *)
(** * Further facts: the raster layers of [downloadPng] *)
(* ================================================================== *)

Module LayerExport.
Import ColorUtils DOM App.

(** [Infinity < x] is false for every number. *)
Lemma infinity_not_below (x : float) :
  PrimFloat.ltb PrimFloat.infinity x = false.
Proof.
  rewrite FloatAxioms.ltb_spec.
  change (Prim2SF PrimFloat.infinity) with (S754_infinity false).
  destruct (Prim2SF x) as [| [|] | |]; reflexivity.
Qed.

(** The loop leaves the index and the distance it started with, or an
    index it has visited. *)
Lemma bestFitFrom_index c groups :
  forall j bestGroupIndex minDistance,
    let result := bestFitFrom c groups j bestGroupIndex minDistance in
    result = (bestGroupIndex, minDistance) \/
    j <= fst result < j + Z.of_nat (List.length groups).
Proof.
  induction groups as [|group rest IH]; intros j b m; cbn [bestFitFrom].
  - now left.
  - cbv zeta.
    destruct (PrimFloat.ltb (colorDistance c (representativeColor group)) m).
    + right.
      destruct (IH (j + 1) j (colorDistance c (representativeColor group)))
        as [E|H].
      * rewrite E. cbn [fst List.length]. lia.
      * cbn [List.length]. lia.
    + destruct (IH (j + 1) b m) as [E|H]; [now left|right].
      cbn [List.length]. lia.
Qed.

Lemma bestFit_index c groups bestGroupIndex minDistance :
  bestFit c groups = (bestGroupIndex, minDistance) ->
  (bestGroupIndex = -1 /\ minDistance = PrimFloat.infinity) \/
  0 <= bestGroupIndex < Z.of_nat (List.length groups).
Proof.
  intros E. unfold bestFit in E.
  destruct (bestFitFrom_index c groups 0 (-1) PrimFloat.infinity) as [H|H];
    rewrite E in H.
  - left. now injection H as -> ->.
  - right. cbn [fst] in H. lia.
Qed.

Lemma Pixel_eq_dec (p q : Pixel) : {p = q} + {p <> q}.
Proof. decide equality; apply Z.eq_dec. Qed.

Lemma layerPixel_kept groups groupIndex maxDist p :
  layerPixel groups groupIndex maxDist p <> blankPixel ->
  layerPixel groups groupIndex maxDist p = p /\
  128 <= alpha p /\
  fst (bestFit (mkRGB (red p) (green p) (blue p)) groups) = groupIndex /\
  PrimFloat.ltb (snd (bestFit (mkRGB (red p) (green p) (blue p)) groups))
                maxDist = true /\
  0 <= groupIndex < Z.of_nat (List.length groups).
Proof.
  unfold layerPixel.
  destruct (Z.ltb_spec (alpha p) 128) as [Ha|Ha]; [congruence|].
  destruct (bestFit (mkRGB (red p) (green p) (blue p)) groups)
    as [b m] eqn:E.
  destruct ((b =? groupIndex) && PrimFloat.ltb m maxDist) eqn:T; [|congruence].
  apply andb_true_iff in T as [Hb Hm]. apply Z.eqb_eq in Hb. subst b.
  intros _. cbn [fst snd].
  split; [now destruct p|]. split; [exact Ha|].
  split; [reflexivity|]. split; [exact Hm|].
  destruct (bestFit_index _ _ _ _ E) as [[_ ->]|H]; [|exact H].
  rewrite infinity_not_below in Hm. discriminate.
Qed.

Lemma previewPixel_drawn groups maxDist p :
  previewPixel groups maxDist p <> blankPixel <->
  128 <= alpha p /\
  PrimFloat.ltb (snd (bestFit (mkRGB (red p) (green p) (blue p)) groups))
                maxDist = true.
Proof.
  unfold previewPixel.
  destruct (Z.ltb_spec (alpha p) 128) as [Ha|Ha].
  { split; [congruence|intros [H _]; lia]. }
  destruct (bestFit (mkRGB (red p) (green p) (blue p)) groups)
    as [b m] eqn:E.
  cbn [snd].
  destruct (PrimFloat.ltb m maxDist) eqn:Hm.
  2:{ rewrite andb_false_r. unfold blankPixel.
      split; [congruence|intros [_ H]; discriminate]. }
  rewrite andb_true_r.
  destruct (bestFit_index _ _ _ _ E) as [[_ ->]|H].
  { rewrite infinity_not_below in Hm. discriminate. }
  destruct (Z.eqb_spec b (-1)) as [->|_]; [lia|]. cbn [negb].
  destruct (nth_error groups (Z.to_nat b)) as [group|] eqn:N.
  - split; [auto|]. intros _. unfold blankPixel. discriminate.
  - apply nth_error_None in N. lia.
Qed.

(** X27.  The raster layers split the preview: for every source pixel, a
    layer holds either that pixel unchanged or a blank pixel; it holds the
    pixel only if the pixel is opaque enough and the layer's index is the
    index of the nearest group; so no pixel is in two layers; and the pixel
    is in some layer exactly when the preview draws it. *)
Theorem layers_split_preview (colorGroups : list ColorGroup)
    (image : ImageData) (tolerance : Z) (i : nat) (p : Pixel) :
  nth_error (data image) i = Some p ->
  let layer groupIndex :=
    nth_error (downloadPngRaster colorGroups groupIndex image tolerance) i in
  let preview := nth_error (reassembledPreview colorGroups image tolerance) i in
  (forall k, layer k = Some p \/ layer k = Some blankPixel) /\
  (forall k, layer k <> Some blankPixel ->
     128 <= alpha p /\
     fst (bestFit (mkRGB (red p) (green p) (blue p)) colorGroups) = k /\
     0 <= k < Z.of_nat (List.length colorGroups)) /\
  (forall k1 k2, layer k1 <> Some blankPixel -> layer k2 <> Some blankPixel ->
     k1 = k2) /\
  (preview <> Some blankPixel <-> exists k, layer k <> Some blankPixel).
Proof.
  intros Hp. cbv zeta. unfold downloadPngRaster, reassembledPreview.
  set (maxDist := ImageProcessor.maxDist tolerance).
  assert (Hlayer : forall k,
    nth_error (map (layerPixel colorGroups k maxDist) (data image)) i
    = Some (layerPixel colorGroups k maxDist p)).
  { intros k. now rewrite nth_error_map, Hp. }
  assert (Hpreview :
    nth_error (map (previewPixel colorGroups maxDist) (data image)) i
    = Some (previewPixel colorGroups maxDist p)).
  { now rewrite nth_error_map, Hp. }
  rewrite Hpreview.
  assert (Hkept : forall k,
    nth_error (map (layerPixel colorGroups k maxDist) (data image)) i
    <> Some blankPixel ->
    layerPixel colorGroups k maxDist p <> blankPixel).
  { intros k H E. apply H. now rewrite Hlayer, E. }
  split; [|split; [|split]].
  - intros k. rewrite Hlayer.
    destruct (Pixel_eq_dec (layerPixel colorGroups k maxDist p) blankPixel)
      as [E|N].
    + right. now rewrite E.
    + left. f_equal. now apply layerPixel_kept.
  - intros k H.
    destruct (layerPixel_kept _ _ _ _ (Hkept k H)) as (_ & Ha & Hb & _ & Hr).
    auto.
  - intros k1 k2 H1 H2.
    destruct (layerPixel_kept _ _ _ _ (Hkept k1 H1)) as (_ & _ & <- & _).
    destruct (layerPixel_kept _ _ _ _ (Hkept k2 H2)) as (_ & _ & <- & _).
    reflexivity.
  - split.
    + intros H.
      assert (Hd : previewPixel colorGroups maxDist p <> blankPixel)
        by congruence.
      apply previewPixel_drawn in Hd as [Ha Hm].
      exists (fst (bestFit (mkRGB (red p) (green p) (blue p)) colorGroups)).
      rewrite Hlayer. unfold layerPixel.
      destruct (Z.ltb_spec (alpha p) 128) as [Hlt|_]; [lia|].
      destruct (bestFit (mkRGB (red p) (green p) (blue p)) colorGroups)
        as [b m].
      cbn [fst snd] in *. rewrite Z.eqb_refl, Hm. cbn [andb].
      unfold blankPixel. intros E. injection E as _ _ _ E. lia.
    + intros (k & H).
      destruct (layerPixel_kept _ _ _ _ (Hkept k H)) as (_ & Ha & _ & Hm & _).
      intros E. injection E as E. revert E.
      apply previewPixel_drawn. now split.
Qed.

Lemma layers_split_preview_witness :
  let colorGroups := Reconstruction.previewGroups in
  let image := Reconstruction.previewImage in
  let p := mkPixel 12 12 12 255 in
  let layer groupIndex :=
    nth_error (downloadPngRaster colorGroups groupIndex image 20) 0 in
  let preview := nth_error (reassembledPreview colorGroups image 20) 0 in
  (forall k, layer k = Some p \/ layer k = Some blankPixel) /\
  (forall k, layer k <> Some blankPixel ->
     128 <= alpha p /\
     fst (bestFit (mkRGB (red p) (green p) (blue p)) colorGroups) = k /\
     0 <= k < Z.of_nat (List.length colorGroups)) /\
  (forall k1 k2, layer k1 <> Some blankPixel -> layer k2 <> Some blankPixel ->
     k1 = k2) /\
  (preview <> Some blankPixel <-> exists k, layer k <> Some blankPixel).
Proof.
  exact (layers_split_preview Reconstruction.previewGroups
           Reconstruction.previewImage 20 0 (mkPixel 12 12 12 255) eq_refl).
Defined.

End LayerExport.

(* ================================================================== *)
(** * Further facts: path normalisation *)
(* ================================================================== *)

Module PathFacts.
Import ColorUtils DOM App.









(** ** Relative commands *)

Lemma transformPairs_relative x y w h scale arguments :
  forall i slot,
    nth_error (transformPairs x y w h scale true arguments) i = Some slot ->
    slot = Some (toNumber (argAt arguments i) * scale)%float.
Proof.
  revert arguments.
  fix IH 1. intros [|a0 [|a1 rest]] i slot; cbn [transformPairs].
  - destruct i; discriminate.
  - destruct i as [|[|[|i]]]; cbn; intros E; try discriminate;
      now injection E as <-.
  - destruct i as [|[|i]]; cbn [nth_error]; intros E.
    + now injection E as <-.
    + now injection E as <-.
    + apply IH in E. exact E.
Qed.

(** X29.  A relative (lower-case) command other than [a] is scaled and
    never moved: every argument written for it is the argument at the same
    position times the scale, whatever the origin and the size of the view
    box. *)
Theorem relative_commands_scaled (x y w h scale : float) (seg : Segment)
    (i : nat) (slot : option float) :
  Ascii.eqb (command seg) (JS.lowerChar (command seg)) = true ->
  command seg <> "a"%char ->
  nth_error (args (transformSegment x y w h scale seg)) i = Some slot ->
  slot = Some (toNumber (argAt (args seg) i) * scale)%float.
Proof.
  intros Hrel Ha. unfold transformSegment. cbv zeta.
  apply Ascii.eqb_eq in Hrel as Hlow.
  rewrite Hrel, <- Hlow.
  destruct (Ascii.eqb_spec (command seg) "a") as [E|_]; [contradiction|].
  destruct (Ascii.eqb (command seg) "z").
  { cbn. destruct i; discriminate. }
  destruct (Ascii.eqb (command seg) "h").
  { cbn [args]. destruct i as [|i]; cbn; intros E;
      [now injection E as <-|destruct i; discriminate]. }
  destruct (Ascii.eqb (command seg) "v").
  { cbn [args]. destruct i as [|i]; cbn; intros E;
      [now injection E as <-|destruct i; discriminate]. }
  cbn [args]. apply transformPairs_relative.
Qed.

Lemma relative_commands_scaled_witness :
  nth_error
    (args (transformSegment 10 20 100 50 6
             (mkSegment "l" [Some 1; Some 2; Some 3]%float))) 1
  = Some (Some 12%float) /\
  Some 12%float
  = Some (toNumber (argAt [Some 1; Some 2; Some 3]%float 1) * 6)%float.
Proof.
  split; [reflexivity|].
  exact (relative_commands_scaled 10 20 100 50 6
           (mkSegment "l" [Some 1; Some 2; Some 3]%float) 1 (Some 12%float)
           eq_refl ltac:(discriminate) eq_refl).
Defined.

(** ** An odd number of arguments *)

Lemma nan_mul (v : float) : (PrimFloat.nan * v)%float = PrimFloat.nan.
Proof.
  rewrite <- (SF2Prim_Prim2SF (PrimFloat.nan * v)), FloatAxioms.mul_spec.
  reflexivity.
Qed.

Lemma nan_sub (v : float) : (PrimFloat.nan - v)%float = PrimFloat.nan.
Proof.
  rewrite <- (SF2Prim_Prim2SF (PrimFloat.nan - v)), FloatAxioms.sub_spec.
  reflexivity.
Qed.

Lemma nan_add (v : float) : (PrimFloat.nan + v)%float = PrimFloat.nan.
Proof.
  rewrite <- (SF2Prim_Prim2SF (PrimFloat.nan + v)), FloatAxioms.add_spec.
  reflexivity.
Qed.

Lemma transformY_undefined y h scale isRelative :
  transformY y h scale isRelative (toNumber None) = PrimFloat.nan.
Proof.
  unfold transformY, toNumber.
  destruct isRelative; [apply nan_mul|].
  now rewrite nan_sub, nan_mul, nan_add.
Qed.

Lemma transformPairs_odd x y w h scale isRelative arguments :
  Nat.even (List.length arguments) = false ->
  List.length (transformPairs x y w h scale isRelative arguments)
  = S (List.length arguments) /\
  nth_error (transformPairs x y w h scale isRelative arguments)
            (List.length arguments)
  = Some (Some PrimFloat.nan).
Proof.
  revert arguments.
  fix IH 1. intros [|a0 [|a1 rest]]; cbn [transformPairs List.length]; intros H.
  - discriminate.
  - cbn. now rewrite transformY_undefined.
  - destruct (IH rest H) as [E1 E2]. cbn [nth_error]. now rewrite E1, E2.
Qed.

(** X30.  A command other than [a], [h], [v] and [z] is read in pairs: when
    it carries an odd number of arguments, one more argument is written
    than was read, and that last one is NaN. *)
Theorem odd_arguments_end_in_NaN (x y w h scale : float) (seg : Segment) :
  existsb (Ascii.eqb (JS.lowerChar (command seg))) ["a"; "h"; "v"; "z"]%char
  = false ->
  Nat.even (List.length (args seg)) = false ->
  let written := args (transformSegment x y w h scale seg) in
  List.length written = S (List.length (args seg)) /\
  nth_error written (List.length (args seg)) = Some (Some PrimFloat.nan).
Proof.
  intros Hcmd Hodd. cbv zeta. unfold transformSegment.
  cbn [existsb] in Hcmd.
  repeat (apply orb_false_iff in Hcmd as [? Hcmd]).
  repeat match goal with
         | H : Ascii.eqb _ _ = false |- _ => rewrite H; clear H
         end.
  cbn [args]. now apply transformPairs_odd.
Qed.

Lemma odd_arguments_end_in_NaN_witness :
  let written :=
    args (transformSegment 0 0 100 50 6 (mkSegment "M" [Some 10%float])) in
  List.length written = 2%nat /\
  nth_error written 1 = Some (Some PrimFloat.nan).
Proof.
  exact (odd_arguments_end_in_NaN 0 0 100 50 6
           (mkSegment "M" [Some 10%float]) eq_refl eq_refl).
Defined.

End PathFacts.
